(** * Script-Fu scripts: the typed argument registry and its marshalling

    A shallow embedding of
    [plug-ins/script-fu/libscriptfu/script-fu-script.c] and the properties of
    it that the specification states: construction of the PDB procedure
    (parameter names, menu label), the title of a script, reset of the
    argument values, collection of the standard leading arguments, and the
    textual command of a script.  Further properties follow the code: the
    bounds and edges of the collection, how reset, collection and the two
    commands compose, what each function reads of a script and of an
    invocation, and the names and the other data of the procedure.

    [script_fu_script_new] and [script_fu_script_free] allocate and release
    memory (a fresh script has zeroed arguments, whose labels and texts are
    NULL), and [script_fu_script_install_proc] and
    [script_fu_script_uninstall_proc] hand the procedure to libgimp; they
    are outside this model.

    C data is modelled as follows: [gint] is [Z]; [gdouble] is a binary
    floating-point number ([spec_float]); a [gchar *] is a [string] (the
    fields are taken to hold C strings, never NULL); [gboolean] is [bool];
    an array is a list, and [n_args] is the length of [args]. *)

From Stdlib Require Import ZArith String Ascii SpecFloat DecimalString Lia.
From Stdlib Require Import DecimalFacts DecimalPos DecimalZ.
From stdpp Require Import base list strings.

#[local] Arguments String.append : simpl nomatch.


(** ** C types *)

Abbreviation gint := Z (only parsing).
Abbreviation gdouble := spec_float (only parsing).
Abbreviation guchar := Byte.byte (only parsing).

(** The argument types of a script, [SFArgType].  The enumerators are the
    ones the source switches over. *)
Inductive SFArgType :=
| SF_IMAGE | SF_DRAWABLE | SF_LAYER | SF_CHANNEL | SF_VECTORS | SF_DISPLAY
| SF_COLOR | SF_TOGGLE | SF_VALUE | SF_STRING | SF_TEXT | SF_ADJUSTMENT
| SF_FILENAME | SF_DIRNAME | SF_FONT | SF_PALETTE | SF_PATTERN | SF_BRUSH
| SF_GRADIENT | SF_OPTION | SF_ENUM.

#[global] Instance SFArgType_eq_dec : EqDecision SFArgType.
Proof. solve_decision. Defined.

(** The six types whose value is the id of an object of the session. *)
Definition is_id_type (t : SFArgType) : bool :=
  match t with
  | SF_IMAGE | SF_DRAWABLE | SF_LAYER | SF_CHANNEL | SF_VECTORS | SF_DISPLAY => true
  | _ => false
  end.

Record SFAdjustment := { adj_value : gdouble }.
Record SFFilename := { filename : string }.
Record SFBrush :=
  { brush_name : string; opacity : gdouble; spacing : gint; paint_mode : gint }.
Record SFOption := { option_list : list string; option_history : gint }.
Record SFEnum := { enum_type_name : string; enum_history : gint }.

(** ** Strings and formatted output *)

(** The double quote, as a character and as a string of one character. *)
Definition dquote : ascii := ascii_of_nat 34.
Definition dq : string := String dquote "".
Definition backslash : ascii := ascii_of_nat 92.

Fixpoint string_take (n : nat) (s : string) : string :=
  match n, s with
  | S n', String c s' => String c (string_take n' s')
  | _, _ => ""
  end.

Fixpoint string_drop (n : nat) (s : string) : string :=
  match n, s with
  | S n', String _ s' => string_drop n' s'
  | _, _ => s
  end.

(** [GString]: a string that grows at its end. *)
Definition GString := string.
Definition g_string_new (init : string) : GString := init.
Definition g_string_append (s : GString) (val : string) : GString := s +:+ val.
Definition g_string_append_c (s : GString) (c : ascii) : GString := s +:+ String c "".

(** The conversion [%d] of printf. *)
Definition printf_d (i : gint) : string := NilZero.string_of_int (Z.to_int i).

(** *** g_ascii_dtostr

    [g_ascii_dtostr] is GLib's: [g_ascii_formatd (buffer, buf_len, "%.17g", d)],
    the conversion [%.17g] of printf in the C locale.  The number is rounded
    to 17 significant decimal digits (exactly, halves to even); with [X] the
    decimal exponent of the rounded number, the fixed notation is used when
    [-4 <= X < 17] and the exponent notation otherwise; trailing zeros of the
    fraction are removed, and the decimal point with them when nothing is
    left of the fraction.  The buffer of [G_ASCII_DTOSTR_BUF_SIZE] bytes
    holds every such text. *)

Fixpoint strip_zeros (s : string) : string :=
  match s with
  | "" => ""
  | String c s' =>
      match strip_zeros s' with
      | "" => if Ascii.eqb c "0" then "" else String c ""
      | t => String c t
      end
  end.

Fixpoint zeros (n : nat) : string :=
  match n with
  | O => ""
  | S n' => String "0" (zeros n')
  end.

(** The largest [X'] with [10^X' <= m * 2^e], searched upwards from [X]. *)
Fixpoint search_exp10 (fuel : nat) (m : positive) (e X : Z) : Z :=
  match fuel with
  | O => X
  | S fuel' =>
      let X' := (X + 1)%Z in
      if (10 ^ Z.max X' 0 * 2 ^ Z.max (- e) 0
          <=? Z.pos m * 2 ^ Z.max e 0 * 10 ^ Z.max (- X') 0)%Z
      then search_exp10 fuel' m e X'
      else X
  end.

(** The decimal exponent of [m * 2^e]: the search starts below it, at
    [min e 0 - 1], and [log2 m + 1 + max e 0] is above it. *)
Definition exp10 (m : positive) (e : Z) : Z :=
  let lo := (Z.min e 0 - 1)%Z in
  let hi := (Z.log2 (Z.pos m) + 1 + Z.max e 0)%Z in
  search_exp10 (Z.to_nat (hi - lo)) m e lo.

(** [m * 2^e / 10^(X - (P - 1))] rounded to the nearest integer, halves to
    even: the first [P] significant digits when [X] is the decimal exponent. *)
Definition round_digits (P : Z) (m : positive) (e X : Z) : Z :=
  let sh := (X - (P - 1))%Z in
  let num := (Z.pos m * 2 ^ Z.max e 0 * 10 ^ Z.max (- sh) 0)%Z in
  let den := (2 ^ Z.max (- e) 0 * 10 ^ Z.max sh 0)%Z in
  let q := (num / den)%Z in
  let r := (num mod den)%Z in
  if (den <? 2 * r)%Z || ((2 * r =? den)%Z && Z.odd q) then (q + 1)%Z else q.

(** The exponent of the exponent notation: a sign and at least two digits. *)
Definition printf_exponent (X : Z) : string :=
  (if (X <? 0)%Z then "-" else "+")
  +:+ (if (Z.abs X <? 10)%Z then "0" else "")
  +:+ printf_d (Z.abs X).

Definition point_fraction (frac : string) : string :=
  match frac with
  | "" => ""
  | _ => "." +:+ frac
  end.

Definition printf_g_finite (P : nat) (m : positive) (e : Z) : string :=
  let X0 := exp10 m e in
  let D0 := round_digits (Z.of_nat P) m e X0 in
  let '(D, X) :=
    if (D0 =? 10 ^ Z.of_nat P)%Z then ((D0 / 10)%Z, (X0 + 1)%Z) else (D0, X0) in
  let digits := printf_d D in
  if (X <? -4)%Z || (Z.of_nat P <=? X)%Z then
    string_take 1 digits
    +:+ point_fraction (strip_zeros (string_drop 1 digits))
    +:+ "e" +:+ printf_exponent X
  else if (0 <=? X)%Z then
    string_take (S (Z.to_nat X)) digits
    +:+ point_fraction (strip_zeros (string_drop (S (Z.to_nat X)) digits))
  else
    "0" +:+ point_fraction (strip_zeros (zeros (Z.to_nat (- X - 1)) +:+ digits)).

Definition printf_g (P : nat) (d : gdouble) : string :=
  match d with
  | S754_zero s => (if s then "-" else "") +:+ "0"
  | S754_infinity s => (if s then "-" else "") +:+ "inf"
  | S754_nan => "nan"
  | S754_finite s m e => (if s then "-" else "") +:+ printf_g_finite P m e
  end.

Definition g_ascii_dtostr (d : gdouble) : string := printf_g 17 d.

(** *** script_fu_strescape *)

(** Modelled from the spec: [script_fu_strescape] of script-fu-utils.c is not
    in the file.  It applies "backslash/quote escaping": a backslash is put
    before every backslash and every double quote; it is "total (defined for
    every possible input string; no failure mode)". *)
Fixpoint script_fu_strescape (source : string) : string :=
  match source with
  | "" => ""
  | String c rest =>
      if Ascii.eqb c backslash || Ascii.eqb c dquote
      then String backslash (String c (script_fu_strescape rest))
      else String c (script_fu_strescape rest)
  end.

(** *** C strings in memory: strlen, strncmp, strrchr, strstr

    A pointer into a string is the offset it points at; NULL is [None]. *)

Definition strlen (s : string) : nat := String.length s.

(** [strncmp (s1, s2, n) == 0]: the strings agree on their first [n]
    characters, or up to and with their common end when that comes first. *)
Fixpoint strncmp_eq (s1 s2 : string) (n : nat) : bool :=
  match n with
  | O => true
  | S n' =>
      match s1, s2 with
      | "", "" => true
      | String c1 r1, String c2 r2 => Ascii.eqb c1 c2 && strncmp_eq r1 r2 n'
      | _, _ => false
      end
  end.

(** [strrchr (s, c)]: the offset of the last [c] in [s]. *)
Fixpoint strrchr (s : string) (c : ascii) : option nat :=
  match s with
  | "" => None
  | String c' s' =>
      match strrchr s' c with
      | Some i => Some (S i)
      | None => if Ascii.eqb c' c then Some O else None
      end
  end.

(** [strstr (haystack, needle)]: the offset of the first occurrence. *)
Fixpoint strstr (haystack needle : string) : option nat :=
  if String.prefix needle haystack then Some O
  else
    match haystack with
    | "" => None
    | String _ h' => S <$> strstr h' needle
    end.

(** U+2026 HORIZONTAL ELLIPSIS in UTF-8: the bytes 342 200 246 (octal). *)
Definition horizontal_ellipsis : string :=
  String (ascii_of_nat 226) (String (ascii_of_nat 128) (String (ascii_of_nat 166) "")).

(** ** Reading a command back

    The text of a command is read by the interpreter (TinyScheme).  This is
    the part of its reader that the statements about tokens need: blanks
    separate, parentheses nest, a double quote opens a string in which a
    backslash escapes the next character, a quote mark (quote, backquote or
    comma) applies to the datum after it, a semicolon opens a comment up to
    the end of the line, and any other run of characters is an atom. *)

Inductive lex_mode := Gap | Atom | Str | StrEsc | Comment.

(** The state of the reader inside the outer parentheses: the nesting depth
    (1 at the top level of the call), the lexical mode, whether a quote mark
    waits for its datum, and the number of data begun at the top level. *)
Record reader :=
  { depth : nat; mode : lex_mode; quoted : bool; count : nat }.

Definition set_mode (m : lex_mode) (r : reader) : reader :=
  {| depth := depth r; mode := m; quoted := quoted r; count := count r |}.

Definition is_space (c : ascii) : bool :=
  Ascii.eqb c " " || Ascii.eqb c (ascii_of_nat 9) || Ascii.eqb c (ascii_of_nat 10)
  || Ascii.eqb c (ascii_of_nat 11) || Ascii.eqb c (ascii_of_nat 12)
  || Ascii.eqb c (ascii_of_nat 13).

(** The marks that apply to the datum after them: quote, backquote, comma. *)
Definition is_quote_mark (c : ascii) : bool :=
  Ascii.eqb c "'" || Ascii.eqb c "`" || Ascii.eqb c ",".

(** The count once a datum begins here: one more at the top level, unless the
    datum is the one a quote mark waits for. *)
Definition datum_begins (r : reader) : nat :=
  if (depth r =? 1)%nat && negb (quoted r) then S (count r) else count r.

Definition read_char (r : reader) (c : ascii) : option reader :=
  match depth r with
  | O => None                       (* text after the closing parenthesis *)
  | S d =>
      match mode r with
      | Str =>
          Some (if Ascii.eqb c backslash then set_mode StrEsc r
                else if Ascii.eqb c dquote then set_mode Gap r
                else r)
      | StrEsc => Some (set_mode Str r)
      | Comment => Some (if Ascii.eqb c (ascii_of_nat 10) then set_mode Gap r else r)
      | Gap | Atom =>
          if is_space c then Some (set_mode Gap r)
          else if Ascii.eqb c "(" then
            Some {| depth := S (depth r); mode := Gap; quoted := false;
                    count := datum_begins r |}
          else if Ascii.eqb c ")" then
            if quoted r then None
            else Some {| depth := d; mode := Gap; quoted := false; count := count r |}
          else if Ascii.eqb c dquote then
            Some {| depth := depth r; mode := Str; quoted := false;
                    count := datum_begins r |}
          else if Ascii.eqb c ";" then Some (set_mode Comment r)
          else
            match mode r with
            | Atom => Some r
            | _ =>
                if is_quote_mark c then
                  Some {| depth := depth r; mode := Gap; quoted := true;
                          count := datum_begins r |}
                else
                  Some {| depth := depth r; mode := Atom; quoted := false;
                          count := datum_begins r |}
            end
      end
  end.

Fixpoint read_chars (r : reader) (s : string) : option reader :=
  match s with
  | "" => Some r
  | String c s' =>
      match read_char r c with
      | Some r' => read_chars r' s'
      | None => None
      end
  end.

Definition top_level (n : nat) : reader :=
  {| depth := 1; mode := Gap; quoted := false; count := n |}.

(** [read_call s]: [s] is one parenthesized expression, and this is the
    number of its top-level tokens. *)
Definition read_call (s : string) : option nat :=
  match s with
  | String c rest =>
      if Ascii.eqb c "(" then
        match read_chars (top_level 0) rest with
        | Some r => if (depth r =? 0)%nat then Some (count r) else None
        | None => None
        end
      else None
  | "" => None
  end.

(** [t] reads as exactly one datum: alone between two blanks at the top
    level it is one token, and the reader is at the top level after it. *)
Definition single_datum (t : string) : bool :=
  match read_chars (top_level 0) t with
  | Some r =>
      (depth r =? 1)%nat && (count r =? 1)%nat && negb (quoted r)
      && match mode r with Gap | Atom => true | _ => false end
  | None => false
  end.

(** Every character of [s] satisfies [P]. *)
Fixpoint string_forall (P : ascii -> bool) (s : string) : bool :=
  match s with
  | "" => true
  | String c s' => P c && string_forall P s'
  end.

(** A character that begins or continues an atom, and the characters of the
    numbers that printf writes. *)
Definition atom_char (c : ascii) : bool :=
  negb (is_space c || Ascii.eqb c "(" || Ascii.eqb c ")" || Ascii.eqb c dquote
        || Ascii.eqb c ";" || is_quote_mark c).

Definition number_char (c : ascii) : bool :=
  match Ascii.is_nat c with
  | Some _ => true
  | None => Ascii.eqb c "-" || Ascii.eqb c "+" || Ascii.eqb c "." || Ascii.eqb c "e"
            || Ascii.eqb c "i" || Ascii.eqb c "n" || Ascii.eqb c "f" || Ascii.eqb c "a"
  end.

(** The reader [r] with [k] more tokens counted. *)
Definition add_count (k : nat) (r : reader) : reader :=
  {| depth := depth r; mode := mode r; quoted := quoted r; count := count r + k |}.

Fixpoint has_char (c : ascii) (s : string) : bool :=
  match s with
  | "" => false
  | String c' s' => Ascii.eqb c' c || has_char c s'
  end.

(** The part of a string before the first [c], the whole string when it has
    no [c]. *)
Fixpoint before_char (c : ascii) (s : string) : string :=
  match s with
  | "" => ""
  | String c' s' => if Ascii.eqb c' c then "" else String c' (before_char c s')
  end.

(** A name that needs no escaping between double quotes. *)
Definition plain_name (s : string) : bool :=
  negb (has_char dquote s) && negb (has_char backslash s).

(** [needle] occurs in [s] at offset [i]. *)
Definition occurs_at (needle s : string) (i : nat) : Prop :=
  String.prefix needle (string_drop i s) = true.

(** The run-time type of an object held by a [GValue], and the object
    itself, of which only the [id] property is read. *)
Inductive GType :=
| GIMP_TYPE_IMAGE | GIMP_TYPE_DRAWABLE | GIMP_TYPE_LAYER
| GIMP_TYPE_CHANNEL | GIMP_TYPE_VECTORS | GIMP_TYPE_DISPLAY.

#[global] Instance GType_eq_dec : EqDecision GType.
Proof. solve_decision. Defined.

Record GObject := { object_id : gint }.

(** A small state monad: the functions of the source that write into the
    script they are given are functions from the script to a result and the
    script after the call. *)
Definition State (S A : Type) : Type := S -> A * S.
Definition ret {S A : Type} (a : A) : State S A := fun s => (a, s).
Definition bind {S A B : Type} (m : State S A) (k : A -> State S B) : State S B :=
  fun s => let '(a, s') := m s in k a s'.

Notation "'let*' x ':=' m 'in' k" := (bind m (fun x => k))
  (at level 10, x name, m at level 100, k at level 200).

(** [a || b] of C on two calls that write: [b] runs only when [a] failed. *)
Definition orelse {S : Type} (a b : State S bool) : State S bool :=
  let* r := a in if r then ret true else b.

Section ScriptFu.

(** [GimpRGB] and [gimp_rgb_get_uchar] belong to libgimpcolor, which is not
    part of the file: the colour type is a parameter, and so is its
    conversion to three bytes. *)
Context {GimpRGB : Type}.
Variable gimp_rgb_get_uchar : GimpRGB -> guchar * guchar * guchar.

(** ** The value of an argument

    [SFArgValue] is a union in C.  Each member is kept as a field of its own,
    so that a member reads what was last written to it; the source selects
    the member by the type of the argument.  The six id members
    ([sfa_image], [sfa_drawable], [sfa_layer], [sfa_channel], [sfa_vectors],
    [sfa_display]) are one field: the source itself resets and prints all of
    them through [sfa_image].  Only the members and fields that the file uses
    are present. *)
Record SFArgValue :=
  { sfa_image : gint;
    sfa_color : GimpRGB;
    sfa_toggle : bool;
    sfa_value : string;
    sfa_adjustment : SFAdjustment;
    sfa_file : SFFilename;
    sfa_font : string;
    sfa_palette : string;
    sfa_pattern : string;
    sfa_gradient : string;
    sfa_brush : SFBrush;
    sfa_option : SFOption;
    sfa_enum : SFEnum }.

Record SFArg :=
  { arg_type : SFArgType;
    label : string;
    default_value : SFArgValue;
    value : SFArgValue }.

Record SFScript :=
  { name : string;
    menu_label : string;
    blurb : string;
    author : string;
    copyright : string;
    date : string;
    image_types : string;
    args : list SFArg }.

Definition n_args (script : SFScript) : nat := length (args script).

(** Assignments to one member of [arg->value]. *)
Definition set_sfa_image (id : gint) (v : SFArgValue) : SFArgValue :=
  {| sfa_image := id; sfa_color := sfa_color v; sfa_toggle := sfa_toggle v;
     sfa_value := sfa_value v; sfa_adjustment := sfa_adjustment v;
     sfa_file := sfa_file v; sfa_font := sfa_font v; sfa_palette := sfa_palette v;
     sfa_pattern := sfa_pattern v; sfa_gradient := sfa_gradient v;
     sfa_brush := sfa_brush v; sfa_option := sfa_option v; sfa_enum := sfa_enum v |}.

Definition set_sfa_color (c : GimpRGB) (v : SFArgValue) : SFArgValue :=
  {| sfa_image := sfa_image v; sfa_color := c; sfa_toggle := sfa_toggle v;
     sfa_value := sfa_value v; sfa_adjustment := sfa_adjustment v;
     sfa_file := sfa_file v; sfa_font := sfa_font v; sfa_palette := sfa_palette v;
     sfa_pattern := sfa_pattern v; sfa_gradient := sfa_gradient v;
     sfa_brush := sfa_brush v; sfa_option := sfa_option v; sfa_enum := sfa_enum v |}.

Definition set_sfa_toggle (b : bool) (v : SFArgValue) : SFArgValue :=
  {| sfa_image := sfa_image v; sfa_color := sfa_color v; sfa_toggle := b;
     sfa_value := sfa_value v; sfa_adjustment := sfa_adjustment v;
     sfa_file := sfa_file v; sfa_font := sfa_font v; sfa_palette := sfa_palette v;
     sfa_pattern := sfa_pattern v; sfa_gradient := sfa_gradient v;
     sfa_brush := sfa_brush v; sfa_option := sfa_option v; sfa_enum := sfa_enum v |}.

Definition set_sfa_value (s : string) (v : SFArgValue) : SFArgValue :=
  {| sfa_image := sfa_image v; sfa_color := sfa_color v; sfa_toggle := sfa_toggle v;
     sfa_value := s; sfa_adjustment := sfa_adjustment v;
     sfa_file := sfa_file v; sfa_font := sfa_font v; sfa_palette := sfa_palette v;
     sfa_pattern := sfa_pattern v; sfa_gradient := sfa_gradient v;
     sfa_brush := sfa_brush v; sfa_option := sfa_option v; sfa_enum := sfa_enum v |}.

Definition set_sfa_adjustment (a : SFAdjustment) (v : SFArgValue) : SFArgValue :=
  {| sfa_image := sfa_image v; sfa_color := sfa_color v; sfa_toggle := sfa_toggle v;
     sfa_value := sfa_value v; sfa_adjustment := a;
     sfa_file := sfa_file v; sfa_font := sfa_font v; sfa_palette := sfa_palette v;
     sfa_pattern := sfa_pattern v; sfa_gradient := sfa_gradient v;
     sfa_brush := sfa_brush v; sfa_option := sfa_option v; sfa_enum := sfa_enum v |}.

Definition set_sfa_file (f : SFFilename) (v : SFArgValue) : SFArgValue :=
  {| sfa_image := sfa_image v; sfa_color := sfa_color v; sfa_toggle := sfa_toggle v;
     sfa_value := sfa_value v; sfa_adjustment := sfa_adjustment v;
     sfa_file := f; sfa_font := sfa_font v; sfa_palette := sfa_palette v;
     sfa_pattern := sfa_pattern v; sfa_gradient := sfa_gradient v;
     sfa_brush := sfa_brush v; sfa_option := sfa_option v; sfa_enum := sfa_enum v |}.

Definition set_sfa_font (s : string) (v : SFArgValue) : SFArgValue :=
  {| sfa_image := sfa_image v; sfa_color := sfa_color v; sfa_toggle := sfa_toggle v;
     sfa_value := sfa_value v; sfa_adjustment := sfa_adjustment v;
     sfa_file := sfa_file v; sfa_font := s; sfa_palette := sfa_palette v;
     sfa_pattern := sfa_pattern v; sfa_gradient := sfa_gradient v;
     sfa_brush := sfa_brush v; sfa_option := sfa_option v; sfa_enum := sfa_enum v |}.

Definition set_sfa_palette (s : string) (v : SFArgValue) : SFArgValue :=
  {| sfa_image := sfa_image v; sfa_color := sfa_color v; sfa_toggle := sfa_toggle v;
     sfa_value := sfa_value v; sfa_adjustment := sfa_adjustment v;
     sfa_file := sfa_file v; sfa_font := sfa_font v; sfa_palette := s;
     sfa_pattern := sfa_pattern v; sfa_gradient := sfa_gradient v;
     sfa_brush := sfa_brush v; sfa_option := sfa_option v; sfa_enum := sfa_enum v |}.

Definition set_sfa_pattern (s : string) (v : SFArgValue) : SFArgValue :=
  {| sfa_image := sfa_image v; sfa_color := sfa_color v; sfa_toggle := sfa_toggle v;
     sfa_value := sfa_value v; sfa_adjustment := sfa_adjustment v;
     sfa_file := sfa_file v; sfa_font := sfa_font v; sfa_palette := sfa_palette v;
     sfa_pattern := s; sfa_gradient := sfa_gradient v;
     sfa_brush := sfa_brush v; sfa_option := sfa_option v; sfa_enum := sfa_enum v |}.

Definition set_sfa_gradient (s : string) (v : SFArgValue) : SFArgValue :=
  {| sfa_image := sfa_image v; sfa_color := sfa_color v; sfa_toggle := sfa_toggle v;
     sfa_value := sfa_value v; sfa_adjustment := sfa_adjustment v;
     sfa_file := sfa_file v; sfa_font := sfa_font v; sfa_palette := sfa_palette v;
     sfa_pattern := sfa_pattern v; sfa_gradient := s;
     sfa_brush := sfa_brush v; sfa_option := sfa_option v; sfa_enum := sfa_enum v |}.

Definition set_sfa_brush (b : SFBrush) (v : SFArgValue) : SFArgValue :=
  {| sfa_image := sfa_image v; sfa_color := sfa_color v; sfa_toggle := sfa_toggle v;
     sfa_value := sfa_value v; sfa_adjustment := sfa_adjustment v;
     sfa_file := sfa_file v; sfa_font := sfa_font v; sfa_palette := sfa_palette v;
     sfa_pattern := sfa_pattern v; sfa_gradient := sfa_gradient v;
     sfa_brush := b; sfa_option := sfa_option v; sfa_enum := sfa_enum v |}.

Definition set_sfa_option (o : SFOption) (v : SFArgValue) : SFArgValue :=
  {| sfa_image := sfa_image v; sfa_color := sfa_color v; sfa_toggle := sfa_toggle v;
     sfa_value := sfa_value v; sfa_adjustment := sfa_adjustment v;
     sfa_file := sfa_file v; sfa_font := sfa_font v; sfa_palette := sfa_palette v;
     sfa_pattern := sfa_pattern v; sfa_gradient := sfa_gradient v;
     sfa_brush := sfa_brush v; sfa_option := o; sfa_enum := sfa_enum v |}.

Definition set_sfa_enum (e : SFEnum) (v : SFArgValue) : SFArgValue :=
  {| sfa_image := sfa_image v; sfa_color := sfa_color v; sfa_toggle := sfa_toggle v;
     sfa_value := sfa_value v; sfa_adjustment := sfa_adjustment v;
     sfa_file := sfa_file v; sfa_font := sfa_font v; sfa_palette := sfa_palette v;
     sfa_pattern := sfa_pattern v; sfa_gradient := sfa_gradient v;
     sfa_brush := sfa_brush v; sfa_option := sfa_option v; sfa_enum := e |}.

Definition set_value (v : SFArgValue) (arg : SFArg) : SFArg :=
  {| arg_type := arg_type arg; label := label arg;
     default_value := default_value arg; value := v |}.

Definition set_args (l : list SFArg) (script : SFScript) : SFScript :=
  {| name := name script; menu_label := menu_label script; blurb := blurb script;
     author := author script; copyright := copyright script; date := date script;
     image_types := image_types script; args := l |}.

(** ** script_fu_script_reset *)

(** [g_strdup]: the copy of a string is the string. *)
Definition g_strdup (s : string) : string := s.

(** The body of the loop of [script_fu_script_reset], for one argument. *)
Definition reset_arg (reset_ids : bool) (arg : SFArg) : SFArg :=
  let value := value arg in
  let default_value := default_value arg in
  match arg_type arg with
  | SF_IMAGE | SF_DRAWABLE | SF_LAYER | SF_CHANNEL | SF_VECTORS | SF_DISPLAY =>
      if reset_ids
      then set_value (set_sfa_image (sfa_image default_value) value) arg
      else arg
  | SF_COLOR => set_value (set_sfa_color (sfa_color default_value) value) arg
  | SF_TOGGLE => set_value (set_sfa_toggle (sfa_toggle default_value) value) arg
  | SF_VALUE | SF_STRING | SF_TEXT =>
      set_value (set_sfa_value (g_strdup (sfa_value default_value)) value) arg
  | SF_ADJUSTMENT =>
      set_value
        (set_sfa_adjustment
           {| adj_value := adj_value (sfa_adjustment default_value) |} value) arg
  | SF_FILENAME | SF_DIRNAME =>
      set_value
        (set_sfa_file
           {| filename := g_strdup (filename (sfa_file default_value)) |} value) arg
  | SF_FONT => set_value (set_sfa_font (g_strdup (sfa_font default_value)) value) arg
  | SF_PALETTE =>
      set_value (set_sfa_palette (g_strdup (sfa_palette default_value)) value) arg
  | SF_PATTERN =>
      set_value (set_sfa_pattern (g_strdup (sfa_pattern default_value)) value) arg
  | SF_GRADIENT =>
      set_value (set_sfa_gradient (g_strdup (sfa_gradient default_value)) value) arg
  | SF_BRUSH =>
      set_value
        (set_sfa_brush
           {| brush_name := g_strdup (brush_name (sfa_brush default_value));
              opacity := opacity (sfa_brush default_value);
              spacing := spacing (sfa_brush default_value);
              paint_mode := paint_mode (sfa_brush default_value) |} value) arg
  | SF_OPTION =>
      set_value
        (set_sfa_option
           {| option_list := option_list (sfa_option value);
              option_history := option_history (sfa_option default_value) |} value) arg
  | SF_ENUM =>
      set_value
        (set_sfa_enum
           {| enum_type_name := enum_type_name (sfa_enum value);
              enum_history := enum_history (sfa_enum default_value) |} value) arg
  end.

Definition script_fu_script_reset (script : SFScript) (reset_ids : bool) : SFScript :=
  set_args (map (reset_arg reset_ids) (args script)) script.

(** ** Invocation values *)

Inductive GValue :=
| GValue_object (t : GType) (object : option GObject)
| GValue_rgb (c : GimpRGB)
| GValue_boolean (b : bool)
| GValue_string (s : string)
| GValue_double (d : gdouble)
| GValue_int (i : gint)
| GValue_enum (i : gint).

Definition GimpValueArray := list GValue.

Definition gimp_value_array_length (args : GimpValueArray) : nat := length args.
Definition gimp_value_array_index (args : GimpValueArray) (i : nat) : option GValue :=
  args !! i.

(** Modelled from the spec: the macros [GIMP_VALUE_HOLDS_IMAGE],
    [GIMP_VALUE_HOLDS_DRAWABLE], ... of libgimp are not in the file.  A value
    holds a type when it is an object value "runtime-typed as expected". *)
Definition GIMP_VALUE_HOLDS (t : GType) (v : GValue) : bool :=
  match v with
  | GValue_object t' _ => bool_decide (t' = t)
  | _ => false
  end.

Definition g_value_get_object (v : GValue) : option GObject :=
  match v with
  | GValue_object _ o => o
  | _ => None
  end.

(** Modelled from the spec: [gimp_image_get_id], [gimp_item_get_id] and
    [gimp_display_get_id] of libgimp are not in the file.  They give the id
    of the object, "or -1 if the referenced object is absent". *)
Definition gimp_get_id (o : option GObject) : gint :=
  match o with
  | Some obj => object_id obj
  | None => (-1)%Z
  end.

(** The [GType] that [script_fu_script_param_init] tests for a type of
    argument; the types it has no case for fall into [default]. *)
Definition standard_gtype (type : SFArgType) : option GType :=
  match type with
  | SF_IMAGE => Some GIMP_TYPE_IMAGE
  | SF_DRAWABLE => Some GIMP_TYPE_DRAWABLE
  | SF_LAYER => Some GIMP_TYPE_LAYER
  | SF_CHANNEL => Some GIMP_TYPE_CHANNEL
  | SF_VECTORS => Some GIMP_TYPE_VECTORS
  | SF_DISPLAY => Some GIMP_TYPE_DISPLAY
  | _ => None
  end.

(** ** script_fu_script_param_init and script_fu_script_collect_standard_args *)

Definition script_fu_script_param_init
    (values : GimpValueArray) (type : SFArgType) (n : nat) : State SFScript bool :=
  fun script =>
    match args script !! n with                (* arg = &script->args[n] *)
    | Some arg =>
        (* arg->value.sfa_image = id; return TRUE *)
        let store id :=
          (true,
           set_args (<[n := set_value (set_sfa_image id (value arg)) arg]> (args script))
             script) in
        if (n <? n_args script)%nat
           && bool_decide (arg_type arg = type)
           && (n + 1 <? gimp_value_array_length values)%nat
        then
          match gimp_value_array_index values (n + 1) with
          | Some value =>
              match type with
              | SF_IMAGE =>
                  if GIMP_VALUE_HOLDS GIMP_TYPE_IMAGE value
                  then store (gimp_get_id (g_value_get_object value))
                  else (false, script)
              | SF_DRAWABLE =>
                  if GIMP_VALUE_HOLDS GIMP_TYPE_DRAWABLE value
                  then store (gimp_get_id (g_value_get_object value))
                  else (false, script)
              | SF_LAYER =>
                  if GIMP_VALUE_HOLDS GIMP_TYPE_LAYER value
                  then store (gimp_get_id (g_value_get_object value))
                  else (false, script)
              | SF_CHANNEL =>
                  if GIMP_VALUE_HOLDS GIMP_TYPE_CHANNEL value
                  then store (gimp_get_id (g_value_get_object value))
                  else (false, script)
              | SF_VECTORS =>
                  if GIMP_VALUE_HOLDS GIMP_TYPE_VECTORS value
                  then store (gimp_get_id (g_value_get_object value))
                  else (false, script)
              | SF_DISPLAY =>
                  if GIMP_VALUE_HOLDS GIMP_TYPE_DISPLAY value
                  then store (gimp_get_id (g_value_get_object value))
                  else (false, script)
              | _ => (false, script)
              end
          | None => (false, script)
          end
        else (false, script)
    | None => (false, script)                  (* n_args <= n *)
    end.

Definition script_fu_script_collect_standard_args
    (values : GimpValueArray) : State SFScript nat :=
  let params_consumed := 0%nat in
  (* the first parameter may be a DISPLAY id *)
  let* display := script_fu_script_param_init values SF_DISPLAY params_consumed in
  let params_consumed := if display then S params_consumed else params_consumed in
  (* an IMAGE id may come first or after the DISPLAY id *)
  let* image := script_fu_script_param_init values SF_IMAGE params_consumed in
  if image then
    let params_consumed := S params_consumed in
    (* and may be followed by a DRAWABLE, LAYER, CHANNEL or VECTORS id *)
    let* item :=
      orelse (script_fu_script_param_init values SF_DRAWABLE params_consumed)
        (orelse (script_fu_script_param_init values SF_LAYER params_consumed)
           (orelse (script_fu_script_param_init values SF_CHANNEL params_consumed)
              (script_fu_script_param_init values SF_VECTORS params_consumed))) in
    ret (if item then S params_consumed else params_consumed)
  else ret params_consumed.

(** ** script_fu_script_get_title *)

(** [gimp_strip_uline] belongs to libgimpbase, which is not part of the
    file: the function that strips the mnemonics of a menu label is a
    parameter. *)
Variable gimp_strip_uline : string -> string.

(** The second statement: if this looks like a full menu path, use only the
    last part.  The pointer [tmp] is the offset found by [strrchr]. *)
Definition title_last_part (title : string) : string :=
  if match String.get 0 title with Some c => Ascii.eqb c "<" | None => false end
  then
    match strrchr title "/" with
    | Some tmp =>
        if (tmp + 1 <? strlen title)%nat        (* tmp[1] *)
        then g_strdup (string_drop (tmp + 1) title)
        else title
    | None => title
    end
  else title.

(** The last statements: cut off ellipsis. *)
Definition title_cut_ellipsis (title : string) : string :=
  let tmp := strstr title "..." in
  let tmp :=
    match tmp with
    | Some _ => tmp
    | None => strstr title horizontal_ellipsis   (* U+2026 HORIZONTAL ELLIPSIS *)
    end in
  match tmp with
  | Some tmp =>
      if (Z.of_nat tmp =? Z.of_nat (strlen title) - 3)%Z
      then string_take tmp title                 (* *tmp = 0 *)
      else title
  | None => title
  end.

Definition script_fu_script_get_title (script : SFScript) : string :=
  (* strip mnemonics from the menupath *)
  let title := gimp_strip_uline (menu_label script) in
  let title := title_last_part title in
  title_cut_ellipsis title.

(** ** script_fu_script_get_command *)

Definition printf_uchar (c : guchar) : string := printf_d (Z.of_N (Byte.to_N c)).

(** The body of the loop of [script_fu_script_get_command]: a space, and the
    text of the value of one argument. *)
Definition get_command_arg (s : GString) (arg : SFArg) : GString :=
  let arg_value := value arg in
  let s := g_string_append_c s " " in
  match arg_type arg with
  | SF_IMAGE | SF_DRAWABLE | SF_LAYER | SF_CHANNEL | SF_VECTORS | SF_DISPLAY =>
      g_string_append s (printf_d (sfa_image arg_value))
  | SF_COLOR =>
      let '(r, g, b) := gimp_rgb_get_uchar (sfa_color arg_value) in
      g_string_append s
        ("'(" +:+ printf_uchar r +:+ " " +:+ printf_uchar g +:+ " "
         +:+ printf_uchar b +:+ ")")
  | SF_TOGGLE => g_string_append s (if sfa_toggle arg_value then "TRUE" else "FALSE")
  | SF_VALUE => g_string_append s (sfa_value arg_value)
  | SF_STRING | SF_TEXT =>
      let tmp := script_fu_strescape (sfa_value arg_value) in
      g_string_append s (dq +:+ tmp +:+ dq)
  | SF_ADJUSTMENT =>
      let buffer := g_ascii_dtostr (adj_value (sfa_adjustment arg_value)) in
      g_string_append s buffer
  | SF_FILENAME | SF_DIRNAME =>
      let tmp := script_fu_strescape (filename (sfa_file arg_value)) in
      g_string_append s (dq +:+ tmp +:+ dq)
  | SF_FONT => g_string_append s (dq +:+ sfa_font arg_value +:+ dq)
  | SF_PALETTE => g_string_append s (dq +:+ sfa_palette arg_value +:+ dq)
  | SF_PATTERN => g_string_append s (dq +:+ sfa_pattern arg_value +:+ dq)
  | SF_GRADIENT => g_string_append s (dq +:+ sfa_gradient arg_value +:+ dq)
  | SF_BRUSH =>
      let buffer := g_ascii_dtostr (opacity (sfa_brush arg_value)) in
      g_string_append s
        ("'(" +:+ dq +:+ brush_name (sfa_brush arg_value) +:+ dq +:+ " "
         +:+ buffer +:+ " "
         +:+ printf_d (spacing (sfa_brush arg_value)) +:+ " "
         +:+ printf_d (paint_mode (sfa_brush arg_value)) +:+ ")")
  | SF_OPTION => g_string_append s (printf_d (option_history (sfa_option arg_value)))
  | SF_ENUM => g_string_append s (printf_d (enum_history (sfa_enum arg_value)))
  end.

Definition script_fu_script_get_command (script : SFScript) : string :=
  let s := g_string_new "(" in
  let s := g_string_append s (name script) in
  let s := fold_left get_command_arg (args script) s in
  g_string_append_c s ")".

(** ** script_fu_script_get_command_from_params

    The accessors of a [GValue] are partial here: [None] stands for a value
    that is not of the type the accessor is for, which GLib reports as a
    failed precondition. *)

Definition g_value_get_boolean (v : GValue) : option bool :=
  match v with GValue_boolean b => Some b | _ => None end.
Definition g_value_get_string (v : GValue) : option string :=
  match v with GValue_string s => Some s | _ => None end.
Definition g_value_get_double (v : GValue) : option gdouble :=
  match v with GValue_double d => Some d | _ => None end.
Definition g_value_get_int (v : GValue) : option gint :=
  match v with GValue_int i => Some i | _ => None end.
Definition gimp_value_get_rgb (v : GValue) : option GimpRGB :=
  match v with GValue_rgb c => Some c | _ => None end.
Definition G_VALUE_HOLDS_OBJECT (v : GValue) : bool :=
  match v with GValue_object _ _ => true | _ => false end.

(** The body of the loop, for the argument [arg] and the value at its place
    in the array. *)
Definition get_command_from_params_arg
    (s : GString) (arg : SFArg) (value : GValue) : option GString :=
  let s := g_string_append_c s " " in
  match arg_type arg with
  | SF_IMAGE | SF_DRAWABLE | SF_LAYER | SF_CHANNEL | SF_VECTORS | SF_DISPLAY =>
      if G_VALUE_HOLDS_OBJECT value then
        let object := g_value_get_object value in
        let id := match object with Some o => object_id o | None => (-1)%Z end in
        Some (g_string_append s (printf_d id))
      else None
  | SF_COLOR =>
      color ← gimp_value_get_rgb value;
      let '(r, g, b) := gimp_rgb_get_uchar color in
      Some (g_string_append s
              ("'(" +:+ printf_uchar r +:+ " " +:+ printf_uchar g +:+ " "
               +:+ printf_uchar b +:+ ")"))
  | SF_TOGGLE =>
      b ← g_value_get_boolean value;
      Some (g_string_append s (if b : bool then "TRUE" else "FALSE"))
  | SF_VALUE =>
      str ← g_value_get_string value;
      Some (g_string_append s str)
  | SF_STRING | SF_TEXT | SF_FILENAME | SF_DIRNAME =>
      str ← g_value_get_string value;
      let tmp := script_fu_strescape str in
      Some (g_string_append s (dq +:+ tmp +:+ dq))
  | SF_ADJUSTMENT =>
      d ← g_value_get_double value;
      Some (g_string_append s (g_ascii_dtostr d))
  | SF_FONT | SF_PALETTE | SF_PATTERN | SF_GRADIENT | SF_BRUSH =>
      str ← g_value_get_string value;
      Some (g_string_append s (dq +:+ str +:+ dq))
  | SF_OPTION | SF_ENUM =>
      i ← g_value_get_int value;
      Some (g_string_append s (printf_d i))
  end.

(** The loop, from the argument of index [i] on: its value is at [i + 1]. *)
Fixpoint get_command_from_params_loop
    (values : GimpValueArray) (i : nat) (l : list SFArg) (s : GString)
    : option GString :=
  match l with
  | [] => Some s
  | arg :: l' =>
      value ← gimp_value_array_index values (i + 1);
      s' ← get_command_from_params_arg s arg value;
      get_command_from_params_loop values (S i) l' s'
  end.

Definition script_fu_script_get_command_from_params
    (script : SFScript) (values : GimpValueArray) : option string :=
  let s := g_string_new "(" in
  let s := g_string_append s (name script) in
  s ← get_command_from_params_loop values 0 (args script) s;
  Some (g_string_append_c s ")").

(** ** script_fu_script_create_PDB_procedure *)

Inductive GimpPDBProcType :=
| GIMP_PDB_PROC_TYPE_INTERNAL | GIMP_PDB_PROC_TYPE_PLUGIN
| GIMP_PDB_PROC_TYPE_EXTENSION | GIMP_PDB_PROC_TYPE_TEMPORARY.

(** The constructor a parameter specification is made with. *)
Inductive GParamKind :=
| PARAM_SPEC_ENUM | PARAM_SPEC_IMAGE | PARAM_SPEC_DRAWABLE | PARAM_SPEC_LAYER
| PARAM_SPEC_CHANNEL | PARAM_SPEC_VECTORS | PARAM_SPEC_DISPLAY | PARAM_SPEC_RGB
| PARAM_SPEC_BOOLEAN | PARAM_SPEC_STRING | PARAM_SPEC_DOUBLE | PARAM_SPEC_INT.

Record GParamSpec :=
  { pspec_kind : GParamKind;
    pspec_name : string;
    pspec_nick : string;
    pspec_blurb : string;
    pspec_no_validate : bool }.

Record GimpProcedure :=
  { proc_name : string;
    proc_type : GimpPDBProcType;
    proc_image_types : string;
    proc_menu_label : option string;
    proc_documentation : string * option string * string;
    proc_attribution : string * string * string;
    proc_arguments : list GParamSpec }.

Definition gimp_procedure_add_argument
    (procedure : GimpProcedure) (pspec : GParamSpec) : GimpProcedure :=
  {| proc_name := proc_name procedure; proc_type := proc_type procedure;
     proc_image_types := proc_image_types procedure;
     proc_menu_label := proc_menu_label procedure;
     proc_documentation := proc_documentation procedure;
     proc_attribution := proc_attribution procedure;
     proc_arguments := proc_arguments procedure ++ [pspec] |}.

(** The values of the enumerators of [SFArgType] are declared in
    script-fu-enums.h, which is not part of the file: they are a parameter. *)
Variable SFArgType_value : SFArgType -> nat.

(** [name] and [nick] of the first switch of the loop. *)
Definition param_name (type : SFArgType) : string * string :=
  match type with
  | SF_IMAGE => ("image", "Image")
  | SF_DRAWABLE => ("drawable", "Drawable")
  | SF_LAYER => ("layer", "Layer")
  | SF_CHANNEL => ("channel", "Channel")
  | SF_VECTORS => ("vectors", "Vectors")
  | SF_DISPLAY => ("display", "Display")
  | SF_COLOR => ("color", "Color")
  | SF_TOGGLE => ("toggle", "Toggle")
  | SF_VALUE => ("value", "Value")
  | SF_STRING => ("string", "String")
  | SF_TEXT => ("text", "Text")
  | SF_ADJUSTMENT => ("adjustment", "Adjustment")
  | SF_FILENAME => ("filename", "Filename")
  | SF_DIRNAME => ("dirname", "Dirname")
  | SF_FONT => ("font", "Font")
  | SF_PALETTE => ("palette", "Palette")
  | SF_PATTERN => ("pattern", "Pattern")
  | SF_BRUSH => ("brush", "Brush")
  | SF_GRADIENT => ("gradient", "Gradient")
  | SF_OPTION => ("option", "Option")
  | SF_ENUM => ("enum", "Enum")
  end.

(** The constructor of the second switch of the loop, and whether it is
    given [GIMP_PARAM_NO_VALIDATE]. *)
Definition param_kind (type : SFArgType) : GParamKind * bool :=
  match type with
  | SF_IMAGE => (PARAM_SPEC_IMAGE, false)
  | SF_DRAWABLE => (PARAM_SPEC_DRAWABLE, false)
  | SF_LAYER => (PARAM_SPEC_LAYER, false)
  | SF_CHANNEL => (PARAM_SPEC_CHANNEL, false)
  | SF_VECTORS => (PARAM_SPEC_VECTORS, false)
  | SF_DISPLAY => (PARAM_SPEC_DISPLAY, false)
  | SF_COLOR => (PARAM_SPEC_RGB, false)
  | SF_TOGGLE => (PARAM_SPEC_BOOLEAN, false)
  | SF_VALUE | SF_STRING | SF_TEXT => (PARAM_SPEC_STRING, false)
  | SF_ADJUSTMENT => (PARAM_SPEC_DOUBLE, false)
  | SF_FILENAME | SF_DIRNAME => (PARAM_SPEC_STRING, true)
  | SF_FONT | SF_PALETTE | SF_PATTERN | SF_BRUSH | SF_GRADIENT =>
      (PARAM_SPEC_STRING, false)
  | SF_OPTION | SF_ENUM => (PARAM_SPEC_INT, false)
  end.

(** [g_strlcpy] and [g_snprintf] into a buffer of [size] bytes keep the first
    [size - 1] characters. *)
Definition g_strlcpy (src : string) (size : nat) : string := string_take (size - 1) src.
Definition g_snprintf (size : nat) (text : string) : string := string_take (size - 1) text.

(** The body of the loop of [script_fu_script_create_PDB_procedure].  The
    state is the procedure and the array [arg_count]; [None] is an access to
    [arg_count] outside the array. *)
Definition create_PDB_procedure_arg
    (st : GimpProcedure * list gint) (arg : SFArg) : option (GimpProcedure * list gint) :=
  let '(procedure, arg_count) := st in
  let '(name, nick) := param_name (arg_type arg) in
  count ← arg_count !! SFArgType_value (arg_type arg);
  let '(numbered_name, numbered_nick) :=
    if (count =? 0)%Z
    then (g_strlcpy name 64, g_strlcpy nick 64)
    else (g_snprintf 64 (name +:+ "-" +:+ printf_d (count + 1)%Z),
          g_snprintf 64 (nick +:+ " " +:+ printf_d (count + 1)%Z)) in
  let arg_count := <[SFArgType_value (arg_type arg) := (count + 1)%Z]> arg_count in
  let pspec :=
    {| pspec_kind := fst (param_kind (arg_type arg));
       pspec_name := numbered_name;
       pspec_nick := numbered_nick;
       pspec_blurb := label arg;
       pspec_no_validate := snd (param_kind (arg_type arg)) |} in
  Some (gimp_procedure_add_argument procedure pspec, arg_count).

Fixpoint create_PDB_procedure_loop
    (l : list SFArg) (st : GimpProcedure * list gint)
    : option (GimpProcedure * list gint) :=
  match l with
  | [] => Some st
  | arg :: l' =>
      st' ← create_PDB_procedure_arg st arg;
      create_PDB_procedure_loop l' st'
  end.

(** The procedure as it is before the loop: created, with its image types,
    menu label, documentation, attribution and the run-mode argument. *)
Definition create_PDB_procedure_head
    (script : SFScript) (plug_in_type : GimpPDBProcType) : GimpProcedure :=
  (* Allow scripts with no menus: menu_label stays NULL for them *)
  let menu_label :=
    if negb (strncmp_eq (menu_label script) "<None>" 6)
    then Some (menu_label script)
    else None in
  {| proc_name := name script;
     proc_type := plug_in_type;
     proc_image_types := image_types script;
     proc_menu_label :=
       match menu_label with
       | Some l => if (0 <? strlen l)%nat then Some l else None
       | None => None
       end;
     proc_documentation := (blurb script, None, name script);
     proc_attribution := (author script, copyright script, date script);
     proc_arguments :=
       [ {| pspec_kind := PARAM_SPEC_ENUM; pspec_name := "run-mode";
            pspec_nick := "Run mode"; pspec_blurb := "The run mode";
            pspec_no_validate := false |} ] |}.

Definition script_fu_script_create_PDB_procedure
    (script : SFScript) (plug_in_type : GimpPDBProcType) : option GimpProcedure :=
  (* gint arg_count[SF_DISPLAY] = { 0, } *)
  let arg_count := replicate (SFArgType_value SF_DISPLAY) 0%Z in
  fst <$> create_PDB_procedure_loop (args script)
            (create_PDB_procedure_head script plug_in_type, arg_count).

End ScriptFu.

(** * Definitions the statements use *)

Section Statements.

Context {GimpRGB : Type}.

(** The current value of an argument of type [type] is the member of the
    union that the source reads for that type; [current_value_eq type v d]:
    the values [v] and [d] agree on it.  (The list of an option and the type
    name of an enum are owned by the default value alone, see
    [script_fu_script_free]; the value of such an argument is its history.) *)
Definition current_value_eq
    (type : SFArgType) (v d : @SFArgValue GimpRGB) : Prop :=
  match type with
  | SF_IMAGE | SF_DRAWABLE | SF_LAYER | SF_CHANNEL | SF_VECTORS | SF_DISPLAY =>
      sfa_image v = sfa_image d
  | SF_COLOR => sfa_color v = sfa_color d
  | SF_TOGGLE => sfa_toggle v = sfa_toggle d
  | SF_VALUE | SF_STRING | SF_TEXT => sfa_value v = sfa_value d
  | SF_ADJUSTMENT => adj_value (sfa_adjustment v) = adj_value (sfa_adjustment d)
  | SF_FILENAME | SF_DIRNAME => filename (sfa_file v) = filename (sfa_file d)
  | SF_FONT => sfa_font v = sfa_font d
  | SF_PALETTE => sfa_palette v = sfa_palette d
  | SF_PATTERN => sfa_pattern v = sfa_pattern d
  | SF_GRADIENT => sfa_gradient v = sfa_gradient d
  | SF_BRUSH => sfa_brush v = sfa_brush d
  | SF_OPTION => option_history (sfa_option v) = option_history (sfa_option d)
  | SF_ENUM => enum_history (sfa_enum v) = enum_history (sfa_enum d)
  end.

(** The standard argument of type [type] matches at position [n]: the script
    declares an argument of exactly that type there, and the invocation has a
    value for it (after the run mode) that holds the object type. *)
Definition standard_arg_matches
    (script : @SFScript GimpRGB) (values : @GimpValueArray GimpRGB)
    (type : SFArgType) (n : nat) : bool :=
  match args script !! n, values !! (n + 1), standard_gtype type with
  | Some arg, Some v, Some t =>
      bool_decide (arg_type arg = type) && GIMP_VALUE_HOLDS t v
  | _, _, _ => false
  end.

(** The number of leading arguments, in the words of the specification:
    a display at position 0; an image at the next position; and, only after
    an image, one of drawable, layer, channel, vectors at the position after
    it. *)
Definition leading_args_spec
    (script : @SFScript GimpRGB) (values : @GimpValueArray GimpRGB) : nat :=
  let consumed := if standard_arg_matches script values SF_DISPLAY 0 then 1 else 0 in
  if standard_arg_matches script values SF_IMAGE consumed then
    let consumed := S consumed in
    if existsb (fun type => standard_arg_matches script values type consumed)
         [SF_DRAWABLE; SF_LAYER; SF_CHANNEL; SF_VECTORS]
    then S consumed
    else consumed
  else consumed.

(** The text of one argument in a command: what [get_command_arg] appends
    after the space. *)
Definition arg_token
    (gimp_rgb_get_uchar : GimpRGB -> guchar * guchar * guchar)
    (arg : @SFArg GimpRGB) : string :=
  string_drop 1 (get_command_arg gimp_rgb_get_uchar "" arg).

(** The texts that the command takes as they are read as intended: a raw
    value is a single datum, and the name of a font, palette, pattern,
    gradient or brush has no double quote and no backslash. *)
Definition arg_readable (arg : @SFArg GimpRGB) : bool :=
  match arg_type arg with
  | SF_VALUE => single_datum (sfa_value (value arg))
  | SF_FONT => plain_name (sfa_font (value arg))
  | SF_PALETTE => plain_name (sfa_palette (value arg))
  | SF_PATTERN => plain_name (sfa_pattern (value arg))
  | SF_GRADIENT => plain_name (sfa_gradient (value arg))
  | SF_BRUSH => plain_name (brush_name (sfa_brush (value arg)))
  | _ => true
  end.

(** What a successful [script_fu_script_param_init] leaves at position [i]:
    the id of the object of the invocation value for that position. *)
Definition write_id (values : @GimpValueArray GimpRGB) (i : nat) (arg : @SFArg GimpRGB)
    : @SFArg GimpRGB :=
  match values !! (i + 1) with
  | Some v =>
      set_value (set_sfa_image (gimp_get_id (g_value_get_object v)) (value arg)) arg
  | None => arg
  end.

(** The script once the ids of its first [c] arguments are stored. *)
Definition write_ids (values : @GimpValueArray GimpRGB) (c : nat)
    (script : @SFScript GimpRGB) : @SFScript GimpRGB :=
  set_args (imap (fun i arg => if (i <? c)%nat then write_id values i arg else arg)
              (args script)) script.

(** An invocation value that holds the object [id] of type [t]. *)
Definition GValue_id (t : GType) (id : gint) : @GValue GimpRGB :=
  GValue_object t (Some {| object_id := id |}).

(** The texts of the arguments of a command, each after its space. *)
Fixpoint command_tokens
    (gimp_rgb_get_uchar : GimpRGB -> guchar * guchar * guchar)
    (l : list (@SFArg GimpRGB)) : string :=
  match l with
  | [] => ""
  | arg :: l' =>
      " " +:+ arg_token gimp_rgb_get_uchar arg +:+ command_tokens gimp_rgb_get_uchar l'
  end.

(** The text of a brush as the specification has it: the name between double
    quotes and escaped, the opacity, the spacing and the paint mode. *)
Definition brush_text_escaped (b : SFBrush) : string :=
  "'(" +:+ dq +:+ script_fu_strescape (brush_name b) +:+ dq +:+ " "
  +:+ g_ascii_dtostr (opacity b) +:+ " "
  +:+ printf_d (spacing b) +:+ " " +:+ printf_d (paint_mode b) +:+ ")".

(** The text of a brush as [script_fu_script_get_command] writes it: the name
    is between double quotes as it is. *)
Definition brush_text (b : SFBrush) : string :=
  "'(" +:+ dq +:+ brush_name b +:+ dq +:+ " "
  +:+ g_ascii_dtostr (opacity b) +:+ " "
  +:+ printf_d (spacing b) +:+ " " +:+ printf_d (paint_mode b) +:+ ")".

(** The accesses to [arg_count] for this argument are inside the array
    [arg_count[SF_DISPLAY]]. *)
Definition arg_count_in_bounds
    (SFArgType_value : SFArgType -> nat) (arg : @SFArg GimpRGB) : Prop :=
  (SFArgType_value (arg_type arg) < SFArgType_value SF_DISPLAY)%nat.

(** The number of arguments of type [type] in [l]. *)
Definition occurrences (type : SFArgType) (l : list (@SFArg GimpRGB)) : nat :=
  length (filter (fun arg => arg_type arg = type) l).

(** The name (or nickname) of an argument that comes after [count] earlier
    ones of its type, as the loop writes it into its buffer of 64 bytes. *)
Definition numbered (text sep : string) (count : Z) : string :=
  if (count =? 0)%Z then g_strlcpy text 64
  else g_snprintf 64 (text +:+ sep +:+ printf_d (count + 1)%Z).

(** The parameter for the argument [arg] at position [i] of [l]. *)
Definition script_pspec (l : list (@SFArg GimpRGB)) (i : nat) (arg : @SFArg GimpRGB)
    : GParamSpec :=
  let count := Z.of_nat (occurrences (arg_type arg) (take i l)) in
  {| pspec_kind := fst (param_kind (arg_type arg));
     pspec_name := numbered (fst (param_name (arg_type arg))) "-" count;
     pspec_nick := numbered (snd (param_name (arg_type arg))) " " count;
     pspec_blurb := label arg;
     pspec_no_validate := snd (param_kind (arg_type arg)) |}.

(** [arg_count] holds, for every type inside the array, the number of
    arguments of that type among [pre]. *)
Definition counted (SFArgType_value : SFArgType -> nat)
    (pre : list (@SFArg GimpRGB)) (arg_count : list Z) : Prop :=
  length arg_count = SFArgType_value SF_DISPLAY
  /\ forall type, (SFArgType_value type < SFArgType_value SF_DISPLAY)%nat ->
       arg_count !! SFArgType_value type = Some (Z.of_nat (occurrences type pre)).

(** The invocation value [v] carries the current value of the argument: it
    is of the type of value that the parameter of the argument takes and
    holds what the argument holds.  (The value of a brush parameter is a
    string, which carries no brush.) *)
Definition value_carries (arg : @SFArg GimpRGB) (v : @GValue GimpRGB) : Prop :=
  match arg_type arg with
  | SF_IMAGE | SF_DRAWABLE | SF_LAYER | SF_CHANNEL | SF_VECTORS | SF_DISPLAY =>
      exists t o, v = GValue_object t o /\ gimp_get_id o = sfa_image (value arg)
  | SF_COLOR => v = GValue_rgb (sfa_color (value arg))
  | SF_TOGGLE => v = GValue_boolean (sfa_toggle (value arg))
  | SF_VALUE | SF_STRING | SF_TEXT => v = GValue_string (sfa_value (value arg))
  | SF_ADJUSTMENT => v = GValue_double (adj_value (sfa_adjustment (value arg)))
  | SF_FILENAME | SF_DIRNAME => v = GValue_string (filename (sfa_file (value arg)))
  | SF_FONT => v = GValue_string (sfa_font (value arg))
  | SF_PALETTE => v = GValue_string (sfa_palette (value arg))
  | SF_PATTERN => v = GValue_string (sfa_pattern (value arg))
  | SF_GRADIENT => v = GValue_string (sfa_gradient (value arg))
  | SF_BRUSH => False
  | SF_OPTION => v = GValue_int (option_history (sfa_option (value arg)))
  | SF_ENUM => v = GValue_int (enum_history (sfa_enum (value arg)))
  end.

(** The types whose value is written in a command as one integer or one
    truth value. *)
Definition integral_type (type : SFArgType) : bool :=
  match type with
  | SF_IMAGE | SF_DRAWABLE | SF_LAYER | SF_CHANNEL | SF_VECTORS | SF_DISPLAY
  | SF_TOGGLE | SF_OPTION | SF_ENUM => true
  | _ => false
  end.

(** A value of the kind that a parameter made by the constructor [kind]
    takes: an enum for the run mode, an object of the type of the
    constructor, a colour, a truth value, a string, a double, an integer. *)
Definition pspec_takes (kind : GParamKind) (v : @GValue GimpRGB) : bool :=
  match kind, v with
  | PARAM_SPEC_ENUM, GValue_enum _ => true
  | PARAM_SPEC_IMAGE, GValue_object GIMP_TYPE_IMAGE _ => true
  | PARAM_SPEC_DRAWABLE, GValue_object GIMP_TYPE_DRAWABLE _ => true
  | PARAM_SPEC_LAYER, GValue_object GIMP_TYPE_LAYER _ => true
  | PARAM_SPEC_CHANNEL, GValue_object GIMP_TYPE_CHANNEL _ => true
  | PARAM_SPEC_VECTORS, GValue_object GIMP_TYPE_VECTORS _ => true
  | PARAM_SPEC_DISPLAY, GValue_object GIMP_TYPE_DISPLAY _ => true
  | PARAM_SPEC_RGB, GValue_rgb _ => true
  | PARAM_SPEC_BOOLEAN, GValue_boolean _ => true
  | PARAM_SPEC_STRING, GValue_string _ => true
  | PARAM_SPEC_DOUBLE, GValue_double _ => true
  | PARAM_SPEC_INT, GValue_int _ => true
  | _, _ => false
  end.

(** The strings of an invocation that a command takes as they are read as
    intended: the string for a raw value is a single datum, and the string
    for a font, palette, pattern, gradient or brush has no double quote and
    no backslash. *)
Definition value_readable (type : SFArgType) (v : @GValue GimpRGB) : bool :=
  match type, v with
  | SF_VALUE, GValue_string str => single_datum str
  | (SF_FONT | SF_PALETTE | SF_PATTERN | SF_GRADIENT | SF_BRUSH), GValue_string str =>
      plain_name str
  | _, _ => true
  end.

End Statements.

(** The title in the words of the specification: after the mnemonics are
    stripped, "if the result begins with [<] and contains a [/], keep only
    the substring after the last [/]; if the (possibly shortened) title ends
    with an ASCII ellipsis or the single Unicode horizontal-ellipsis
    character in its final three bytes, strip it". *)
Fixpoint after_last (c : ascii) (s : string) : string :=
  match s with
  | "" => ""
  | String c' s' =>
      if has_char c s' then after_last c s'
      else if Ascii.eqb c' c then s' else String c' s'
  end.

Definition ends_with (suffix s : string) : bool :=
  (String.length suffix <=? String.length s)%nat
  && String.eqb (string_drop (String.length s - String.length suffix) s) suffix.

Definition title_as_specified (stripped : string) : string :=
  let title :=
    if String.prefix "<" stripped && has_char "/" stripped
    then after_last "/" stripped
    else stripped in
  if ends_with "..." title || ends_with horizontal_ellipsis title
  then string_take (String.length title - 3) title
  else title.

(** ** Values for the examples *)

(** A colour type for the examples: the three bytes themselves. *)
Definition rgb8 : Type := Byte.byte * Byte.byte * Byte.byte.
Definition rgb8_get_uchar (c : rgb8) : Byte.byte * Byte.byte * Byte.byte := c.

(** Modelled from the spec: [gimp_strip_uline] of libgimpbase is not in the
    file.  It "strip[s] mnemonic markers from the menu label": an underscore
    marks the mnemonic and is dropped; two underscores stand for one. *)
Fixpoint gimp_strip_uline_model (s : string) : string :=
  match s with
  | "" => ""
  | String c rest =>
      if Ascii.eqb c "_" then
        match rest with
        | String c' rest' =>
            if Ascii.eqb c' "_" then String "_" (gimp_strip_uline_model rest')
            else gimp_strip_uline_model rest
        | "" => ""
        end
      else String c (gimp_strip_uline_model rest)
  end.

(** Values of the enumerators for the examples: the order of the list, with
    [SF_DISPLAY] the last one. *)
Definition SFArgType_order (type : SFArgType) : nat :=
  match type with
  | SF_IMAGE => 0 | SF_DRAWABLE => 1 | SF_LAYER => 2 | SF_CHANNEL => 3
  | SF_VECTORS => 4 | SF_COLOR => 5 | SF_TOGGLE => 6 | SF_VALUE => 7
  | SF_STRING => 8 | SF_ADJUSTMENT => 9 | SF_FONT => 10 | SF_PATTERN => 11
  | SF_BRUSH => 12 | SF_GRADIENT => 13 | SF_FILENAME => 14 | SF_DIRNAME => 15
  | SF_OPTION => 16 | SF_PALETTE => 17 | SF_TEXT => 18 | SF_ENUM => 19
  | SF_DISPLAY => 20
  end.

(** The binary64 numbers 3.5 = 7881299347898368 * 2^-51, 1.5 and 100. *)
Definition gdouble_3_5 : gdouble := S754_finite false 7881299347898368 (-51).
Definition gdouble_1_5 : gdouble := S754_finite false 6755399441055744 (-52).
Definition gdouble_100 : gdouble := S754_finite false 7036874417766400 (-46).

Definition zero_value : @SFArgValue rgb8 :=
  {| sfa_image := 0; sfa_color := (Byte.x00, Byte.x00, Byte.x00); sfa_toggle := false;
     sfa_value := ""; sfa_adjustment := {| adj_value := S754_zero false |};
     sfa_file := {| filename := "" |}; sfa_font := ""; sfa_palette := "";
     sfa_pattern := ""; sfa_gradient := "";
     sfa_brush := {| brush_name := ""; opacity := S754_zero false;
                     spacing := 0; paint_mode := 0 |};
     sfa_option := {| option_list := []; option_history := 0 |};
     sfa_enum := {| enum_type_name := ""; enum_history := 0 |} |}.

(** An argument whose value is its default. *)
Definition new_arg (type : SFArgType) (text : string) (v : @SFArgValue rgb8)
    : @SFArg rgb8 :=
  {| arg_type := type; label := text; default_value := v; value := v |}.

Definition new_script (name menu_label : string) (l : list (@SFArg rgb8))
    : @SFScript rgb8 :=
  {| name := name; menu_label := menu_label; blurb := ""; author := "";
     copyright := ""; date := ""; image_types := ""; args := l |}.

(** The script of the round trip of the specification. *)
Definition test_blur : @SFScript rgb8 :=
  new_script "test-blur" "<None>"
    [ new_arg SF_ADJUSTMENT "Radius"
        (set_sfa_adjustment {| adj_value := gdouble_3_5 |} zero_value);
      new_arg SF_TOGGLE "Wrap" (set_sfa_toggle true zero_value);
      new_arg SF_STRING "Name" (set_sfa_value "hello" zero_value) ].

(** The same script under another menu label, with other labels and default
    values for its arguments, and the same current values. *)
Definition test_blur_edited : @SFScript rgb8 :=
  new_script "test-blur" "<Image>/Filters/Blur/Test..."
    [ {| arg_type := SF_ADJUSTMENT; label := "Amount"; default_value := zero_value;
         value := set_sfa_adjustment {| adj_value := gdouble_3_5 |} zero_value |};
      {| arg_type := SF_TOGGLE; label := "Tile"; default_value := zero_value;
         value := set_sfa_toggle true zero_value |};
      {| arg_type := SF_STRING; label := "Title"; default_value := zero_value;
         value := set_sfa_value "hello" zero_value |} ].

(** The script of the extractor scenario, with ids left by an earlier run. *)
Definition standard_script : @SFScript rgb8 :=
  new_script "script-fu-standard" "<Image>/Filters/Standard..."
    [ {| arg_type := SF_DISPLAY; label := "Display";
         default_value := set_sfa_image (-1) zero_value;
         value := set_sfa_image 5 zero_value |};
      new_arg SF_IMAGE "Image" (set_sfa_image (-1) zero_value);
      new_arg SF_DRAWABLE "Drawable" (set_sfa_image (-1) zero_value);
      {| arg_type := SF_ADJUSTMENT; label := "Amount";
         default_value := set_sfa_adjustment {| adj_value := gdouble_3_5 |} zero_value;
         value := set_sfa_adjustment {| adj_value := gdouble_1_5 |} zero_value |} ].

Definition standard_values : @GimpValueArray rgb8 :=
  [ GValue_enum 0; GValue_id GIMP_TYPE_DISPLAY 42; GValue_id GIMP_TYPE_IMAGE 7;
    GValue_id GIMP_TYPE_DRAWABLE 3; GValue_double gdouble_1_5 ].

Definition circle : SFBrush :=
  {| brush_name := "Circle"; opacity := gdouble_100; spacing := 20; paint_mode := 0 |}.

(** A brush whose name has a double quote in it. *)
Definition quoted_brush : SFBrush :=
  {| brush_name := "2" +:+ dq +:+ " Round"; opacity := gdouble_100;
     spacing := 20; paint_mode := 0 |}.

Definition brush_script (b : SFBrush) : @SFScript rgb8 :=
  new_script "script-fu-paint" "<Image>/Filters/Paint..."
    [ new_arg SF_BRUSH "Brush" (set_sfa_brush b zero_value) ].

(** A script with one raw value: two tokens in one text. *)
Definition value_script : @SFScript rgb8 :=
  new_script "script-fu-raw" "<None>"
    [ new_arg SF_VALUE "Size" (set_sfa_value "1 2" zero_value) ].

(** A script with three images and one with a display. *)
Definition three_images : @SFScript rgb8 :=
  new_script "script-fu-blend" "<Image>/Filters/Blend..."
    [ new_arg SF_IMAGE "First" zero_value; new_arg SF_IMAGE "Second" zero_value;
      new_arg SF_IMAGE "Third" zero_value ].

Definition display_script : @SFScript rgb8 :=
  new_script "script-fu-show" "<Image>/View/Show"
    [ new_arg SF_DISPLAY "Display" zero_value ].

Definition menu_path_script (menu_label : string) : @SFScript rgb8 :=
  new_script "script-fu-gauss" menu_label [].

(** * Properties *)

(** ** Strings *)

Lemma string_app_assoc (p q r : string) : (p +:+ q) +:+ r = p +:+ (q +:+ r).
Proof. induction p; simpl; congruence. Qed.

Lemma string_app_nil_r (p : string) : p +:+ "" = p.
Proof. induction p; simpl; congruence. Qed.

Lemma string_app_length (p q : string) :
  String.length (p +:+ q) = (String.length p + String.length q)%nat.
Proof. induction p; simpl; auto. Qed.

Lemma string_drop_app (p q : string) : string_drop (String.length p) (p +:+ q) = q.
Proof. induction p; simpl; auto. Qed.

Lemma string_take_app (p q : string) : string_take (String.length p) (p +:+ q) = p.
Proof. induction p; simpl; [reflexivity|]. now rewrite IHp. Qed.

Lemma string_take_drop (n : nat) (s : string) : string_take n s +:+ string_drop n s = s.
Proof.
  revert s; induction n; intros [|c s]; simpl; try reflexivity.
  f_equal. apply IHn.
Qed.

Lemma string_drop_length (n : nat) (s : string) :
  String.length (string_drop n s) = (String.length s - n)%nat.
Proof. revert s; induction n; intros [|c s]; simpl; auto. Qed.

Lemma string_app_nonempty_l (s t : string) : s <> "" -> s +:+ t <> "".
Proof. destruct s; [congruence|discriminate]. Qed.

Lemma string_take_nonempty n s : s <> "" -> string_take (S n) s <> "".
Proof. destruct s; [congruence|discriminate]. Qed.

Lemma string_take_all n s : (String.length s <= n)%nat -> string_take n s = s.
Proof.
  revert s; induction n as [|n IH]; intros [|c s]; simpl; try reflexivity; try lia.
  intros H. f_equal. apply IH. lia.
Qed.

Lemma string_app_inv_l (p q r : string) : p +:+ q = p +:+ r -> q = r.
Proof. induction p as [|c p IH]; simpl; [auto|]. intros [= H]. auto. Qed.

Lemma has_char_app c p q : has_char c (p +:+ q) = has_char c p || has_char c q.
Proof. induction p as [|c' p IH]; simpl; [reflexivity|]. now rewrite IH, orb_assoc. Qed.

Lemma has_char_take c n s : has_char c s = false -> has_char c (string_take n s) = false.
Proof.
  revert s; induction n as [|n IH]; intros [|c' s]; simpl; try reflexivity.
  intros H. apply orb_false_iff in H as [-> H]. now apply IH.
Qed.

Lemma before_char_none c s : has_char c s = false -> before_char c s = s.
Proof.
  induction s as [|c' s IH]; simpl; [reflexivity|].
  intros H. apply orb_false_iff in H as [-> H]. now rewrite IH.
Qed.

Lemma before_char_app c p q :
  has_char c p = false -> before_char c (p +:+ String c q) = p.
Proof.
  induction p as [|c' p IH]; simpl.
  - now rewrite Ascii.eqb_refl.
  - intros H. apply orb_false_iff in H as [-> H]. now rewrite IH.
Qed.

(** ** Reset *)

Section Reset.
Context {GimpRGB : Type}.
Implicit Types (script : @SFScript GimpRGB) (arg : @SFArg GimpRGB).

Lemma reset_arg_default reset_ids arg :
  default_value (reset_arg reset_ids arg) = default_value arg.
Proof. unfold reset_arg. destruct (arg_type arg), reset_ids; reflexivity. Qed.

Lemma reset_arg_type reset_ids arg :
  arg_type (reset_arg reset_ids arg) = arg_type arg.
Proof.
  unfold reset_arg. destruct (arg_type arg) eqn:E, reset_ids; simpl; congruence.
Qed.

Lemma reset_arg_label reset_ids arg : label (reset_arg reset_ids arg) = label arg.
Proof. unfold reset_arg. destruct (arg_type arg), reset_ids; reflexivity. Qed.

(** Whenever the reset writes, the value is the default. *)
Lemma reset_arg_restores reset_ids arg :
  is_id_type (arg_type arg) = false \/ reset_ids = true ->
  current_value_eq (arg_type arg) (value (reset_arg reset_ids arg)) (default_value arg).
Proof.
  unfold reset_arg. intros H.
  destruct (arg_type arg) eqn:Ht, reset_ids; simpl in *;
    try reflexivity; try (destruct H; discriminate).
  all: destruct (sfa_brush (default_value arg)); reflexivity.
Qed.

Lemma reset_arg_keeps_ids arg :
  is_id_type (arg_type arg) = true -> reset_arg false arg = arg.
Proof.
  unfold reset_arg. destruct (arg_type arg); simpl; intros; try discriminate; reflexivity.
Qed.

Lemma reset_defaults script reset_ids :
  map default_value (args (script_fu_script_reset script reset_ids))
  = map default_value (args script).
Proof.
  unfold script_fu_script_reset. simpl. rewrite map_map.
  apply map_ext. intros. apply reset_arg_default.
Qed.

(** C9. A reset leaves the default value of every argument as it was, for
    both values of the flag; so does every sequence of resets (the flags of
    the resets in [flags], one after the other). *)
Theorem reset_leaves_defaults script (flags : list bool) :
  (forall reset_ids,
     map default_value (args (script_fu_script_reset script reset_ids))
     = map default_value (args script))
  /\ map default_value (args (fold_left script_fu_script_reset flags script))
     = map default_value (args script).
Proof.
  split; [intros; apply reset_defaults|].
  revert script. induction flags as [|f flags IH]; intros script; simpl.
  - reflexivity.
  - rewrite IH. apply reset_defaults.
Qed.

(** C4. After a reset, the current value of every argument that is not of
    an id type is its default, whatever the flag; the current value of an
    argument of an id type (image, drawable, layer, channel, vectors,
    display) is its default when the flag is true, and the argument is
    exactly as it was when the flag is false.  The type of the argument
    stays. *)
Theorem reset_restores_values script reset_ids i arg :
  args script !! i = Some arg ->
  exists arg',
    args (script_fu_script_reset script reset_ids) !! i = Some arg'
    /\ arg_type arg' = arg_type arg
    /\ (is_id_type (arg_type arg) = false ->
        current_value_eq (arg_type arg) (value arg') (default_value arg))
    /\ (is_id_type (arg_type arg) = true ->
        if reset_ids
        then current_value_eq (arg_type arg) (value arg') (default_value arg)
        else arg' = arg).
Proof.
  intros Hi. exists (reset_arg reset_ids arg).
  unfold script_fu_script_reset; simpl.
  rewrite list_lookup_fmap, Hi. simpl.
  split; [reflexivity|]. split; [apply reset_arg_type|]. split.
  - intros Hid. apply reset_arg_restores. now left.
  - intros Hid. destruct reset_ids.
    + apply reset_arg_restores. now right.
    + now apply reset_arg_keeps_ids.
Qed.

Lemma reset_arg_idempotent reset_ids arg :
  reset_arg reset_ids (reset_arg reset_ids arg) = reset_arg reset_ids arg.
Proof.
  destruct arg as [type lbl d v]. unfold reset_arg; simpl.
  destruct type, reset_ids; reflexivity.
Qed.

(** A second reset with the same flag changes nothing. *)
Theorem reset_idempotent script reset_ids :
  script_fu_script_reset (script_fu_script_reset script reset_ids) reset_ids
  = script_fu_script_reset script reset_ids.
Proof.
  unfold script_fu_script_reset, set_args; simpl. f_equal.
  rewrite map_map. apply map_ext. intros. apply reset_arg_idempotent.
Qed.

(** A reset writes current values only: the name, the menu label and the
    other texts of the script, the number of its arguments, and the type and
    label of every argument are as before. *)
Theorem reset_frame script reset_ids :
  let script' := script_fu_script_reset script reset_ids in
  (name script' = name script /\ menu_label script' = menu_label script
   /\ blurb script' = blurb script /\ author script' = author script
   /\ copyright script' = copyright script /\ date script' = date script
   /\ image_types script' = image_types script)
  /\ n_args script' = n_args script
  /\ map arg_type (args script') = map arg_type (args script)
  /\ map label (args script') = map label (args script).
Proof.
  unfold script_fu_script_reset, n_args; cbn [name menu_label blurb author copyright date
                                               image_types args set_args].
  split; [repeat split|]. split; [apply length_map|].
  rewrite !map_map. split; apply map_ext; intros arg.
  - apply reset_arg_type.
  - apply reset_arg_label.
Qed.

End Reset.

(** ** Collecting the standard arguments *)

Section Collect.
Context {GimpRGB : Type}.
Implicit Types (script : @SFScript GimpRGB) (arg : @SFArg GimpRGB)
  (values : @GimpValueArray GimpRGB).

Lemma set_args_id script : set_args (args script) script = script.
Proof. destruct script; reflexivity. Qed.

Lemma write_ids_0 values script : write_ids values 0 script = script.
Proof.
  destruct script as [nm ml bl au co da it l].
  unfold write_ids, set_args; simpl. f_equal.
  apply list_eq. intros i. rewrite list_lookup_imap.
  destruct (l !! i); reflexivity.
Qed.

Lemma write_ids_lookup values c script i :
  args (write_ids values c script) !! i
  = (fun arg => if (i <? c)%nat then write_id values i arg else arg) <$> args script !! i.
Proof. unfold write_ids; simpl. apply list_lookup_imap. Qed.

Lemma write_id_type values i arg : arg_type (write_id values i arg) = arg_type arg.
Proof. unfold write_id. destruct (values !! (i + 1)); reflexivity. Qed.

Lemma write_ids_S values n script arg v :
  args script !! n = Some arg ->
  values !! (n + 1) = Some v ->
  set_args
    (<[n := set_value (set_sfa_image (gimp_get_id (g_value_get_object v)) (value arg)) arg]>
       (args (write_ids values n script)))
    (write_ids values n script)
  = write_ids values (S n) script.
Proof.
  intros Ha Hv. unfold write_ids; simpl.
  destruct script as [nm ml bl au co da it l]; unfold set_args; simpl in *.
  f_equal. apply list_eq. intros i.
  destruct (decide (i = n)) as [->|Hne].
  - rewrite list_lookup_insert_eq.
    + rewrite list_lookup_imap, Ha. simpl.
      replace (n <? S n)%nat with true by (symmetry; apply Nat.ltb_lt; lia).
      unfold write_id. now rewrite Hv.
    + rewrite length_imap. eapply lookup_lt_Some; eauto.
  - rewrite list_lookup_insert_ne by congruence.
    rewrite !list_lookup_imap. destruct (l !! i); simpl; [|reflexivity].
    destruct (i <? n)%nat eqn:E1, (i <? S n)%nat eqn:E2; try reflexivity.
    + apply Nat.ltb_lt in E1. apply Nat.ltb_ge in E2. lia.
    + apply Nat.ltb_ge in E1. apply Nat.ltb_lt in E2. lia.
Qed.

Lemma standard_gtype_None type :
  standard_gtype type = None -> is_id_type type = false.
Proof. destruct type; simpl; congruence. Qed.

(** [script_fu_script_param_init] at position [n], once the ids of the [n]
    arguments before it are stored: it succeeds exactly when the standard
    argument matches, and stores the id. *)
Lemma param_init_eq values type n script :
  script_fu_script_param_init values type n (write_ids values n script)
  = if standard_arg_matches script values type n
    then (true, write_ids values (S n) script)
    else (false, write_ids values n script).
Proof.
  unfold script_fu_script_param_init, standard_arg_matches.
  rewrite write_ids_lookup.
  destruct (args script !! n) as [arg|] eqn:Ha; simpl; [|reflexivity].
  rewrite Nat.ltb_irrefl.
  assert (Hn : (n <? n_args (write_ids values n script))%nat = true).
  { apply Nat.ltb_lt. unfold n_args, write_ids; simpl.
    rewrite length_imap. eapply lookup_lt_Some; eauto. }
  rewrite Hn; simpl.
  unfold gimp_value_array_length, gimp_value_array_index.
  destruct (values !! (n + 1)) as [v|] eqn:Hv.
  - assert (Hl : (n + 1 <? length values)%nat = true).
    { apply Nat.ltb_lt. eapply lookup_lt_Some; eauto. }
    rewrite Hl, andb_true_r.
    destruct (bool_decide (arg_type arg = type)) eqn:Ht; simpl;
      [|destruct (standard_gtype type); reflexivity].
    pose proof (write_ids_S values n script arg v Ha Hv) as HS.
    destruct type; simpl; try reflexivity;
      match goal with
      | |- context [GIMP_VALUE_HOLDS ?t v] => destruct (GIMP_VALUE_HOLDS t v)
      end; try reflexivity; f_equal; exact HS.
  - assert (Hl : (n + 1 <? length values)%nat = false).
    { apply Nat.ltb_ge. eapply lookup_ge_None; eauto. }
    rewrite Hl, andb_false_r. reflexivity.
Qed.

Lemma param_init_eq_0 values type script :
  script_fu_script_param_init values type 0 script
  = if standard_arg_matches script values type 0
    then (true, write_ids values 1 script)
    else (false, script).
Proof.
  rewrite <- (write_ids_0 values script) at 1. rewrite param_init_eq.
  now rewrite write_ids_0.
Qed.

(** The result of [script_fu_script_collect_standard_args] in closed form. *)
Lemma collect_standard_args_eq values script :
  script_fu_script_collect_standard_args values script
  = (leading_args_spec script values,
     write_ids values (leading_args_spec script values) script).
Proof.
  unfold script_fu_script_collect_standard_args, leading_args_spec, orelse, bind, ret.
  cbn [existsb].
  rewrite param_init_eq_0.
  destruct (standard_arg_matches script values SF_DISPLAY 0); cbv beta iota.
  - rewrite param_init_eq.
    destruct (standard_arg_matches script values SF_IMAGE 1); cbv beta iota;
      [|reflexivity].
    repeat (rewrite param_init_eq;
            match goal with
            | |- context [standard_arg_matches script values ?t 2] =>
                destruct (standard_arg_matches script values t 2)
            end; cbv beta iota; [reflexivity|]).
    reflexivity.
  - rewrite param_init_eq_0.
    destruct (standard_arg_matches script values SF_IMAGE 0); cbv beta iota;
      [|now rewrite write_ids_0].
    repeat (rewrite param_init_eq;
            match goal with
            | |- context [standard_arg_matches script values ?t 1] =>
                destruct (standard_arg_matches script values t 1)
            end; cbv beta iota; [reflexivity|]).
    reflexivity.
Qed.

Lemma leading_args_spec_le_3 script values : (leading_args_spec script values <= 3)%nat.
Proof.
  unfold leading_args_spec.
  repeat match goal with |- context [if ?b then _ else _] => destruct b end; lia.
Qed.

(** Every position below the count matched, so it has an argument and a value. *)
Lemma leading_args_spec_matched script values i :
  (i < leading_args_spec script values)%nat ->
  exists type, standard_arg_matches script values type i = true.
Proof.
  unfold leading_args_spec. simpl existsb.
  destruct (standard_arg_matches script values SF_DISPLAY 0) eqn:Hd.
  - destruct (standard_arg_matches script values SF_IMAGE 1) eqn:Hi.
    + intros Hlt.
      destruct i as [|[|[|i]]]; eauto.
      * destruct (standard_arg_matches script values SF_DRAWABLE 2) eqn:H1; eauto.
        destruct (standard_arg_matches script values SF_LAYER 2) eqn:H2; eauto.
        destruct (standard_arg_matches script values SF_CHANNEL 2) eqn:H3; eauto.
        destruct (standard_arg_matches script values SF_VECTORS 2) eqn:H4; eauto.
        simpl in Hlt. lia.
      * destruct (_ || _) in Hlt; lia.
    + intros Hlt. destruct i; [eauto|lia].
  - destruct (standard_arg_matches script values SF_IMAGE 0) eqn:Hi.
    + intros Hlt.
      destruct i as [|[|i]]; eauto.
      * destruct (standard_arg_matches script values SF_DRAWABLE 1) eqn:H1; eauto.
        destruct (standard_arg_matches script values SF_LAYER 1) eqn:H2; eauto.
        destruct (standard_arg_matches script values SF_CHANNEL 1) eqn:H3; eauto.
        destruct (standard_arg_matches script values SF_VECTORS 1) eqn:H4; eauto.
        simpl in Hlt. lia.
      * destruct (_ || _) in Hlt; lia.
    + intros Hlt. lia.
Qed.

Lemma standard_arg_matches_inv script values type i :
  standard_arg_matches script values type i = true ->
  exists arg v t, args script !! i = Some arg /\ values !! (i + 1) = Some v
    /\ standard_gtype type = Some t /\ arg_type arg = type
    /\ GIMP_VALUE_HOLDS t v = true.
Proof.
  unfold standard_arg_matches.
  destruct (args script !! i) as [arg|]; [|discriminate].
  destruct (values !! (i + 1)) as [v|]; [|discriminate].
  destruct (standard_gtype type) as [t|]; [|discriminate].
  intros H. apply andb_true_iff in H as [H1 H2].
  apply bool_decide_eq_true in H1. eauto 10.
Qed.

(** C10. Collecting the standard arguments changes nothing of the script but
    the current values of its first [consumed] arguments, [consumed] being
    the count it returns: the name, menu label and the other texts of the
    script, the number of arguments, and the type, label and default value
    of every argument stay; every argument from position [consumed] on stays
    as it was; and when the count is 0 the script is unchanged. *)
Theorem collect_standard_args_frame values script :
  let '(consumed, script') := script_fu_script_collect_standard_args values script in
  (name script' = name script /\ menu_label script' = menu_label script
   /\ blurb script' = blurb script /\ author script' = author script
   /\ copyright script' = copyright script /\ date script' = date script
   /\ image_types script' = image_types script)
  /\ length (args script') = length (args script)
  /\ (forall i arg, args script !! i = Some arg ->
      exists arg', args script' !! i = Some arg'
        /\ arg_type arg' = arg_type arg /\ label arg' = label arg
        /\ default_value arg' = default_value arg
        /\ ((consumed <= i)%nat -> arg' = arg))
  /\ (consumed = 0%nat -> script' = script).
Proof.
  rewrite collect_standard_args_eq.
  set (c := leading_args_spec script values).
  split; [|split; [|split]].
  - unfold write_ids. destruct script; simpl. tauto.
  - unfold write_ids; simpl. apply length_imap.
  - intros i arg Hi. rewrite write_ids_lookup, Hi. simpl.
    eexists; split; [reflexivity|].
    destruct (i <? c)%nat eqn:E.
    + unfold write_id. destruct (values !! (i + 1)); simpl;
        repeat split; try reflexivity; apply Nat.ltb_lt in E; lia.
    + repeat split; reflexivity.
  - intros ->. apply write_ids_0.
Qed.

(** C3. The count of standard arguments is at most 3 and is the one of the
    ordered probing: a display at position 0, an image at the next position,
    and only after an image one of drawable, layer, channel, vectors at the
    position after it, each match needing the argument of exactly that type
    and a value of the invocation that holds its object type
    ([leading_args_spec]); each matched position receives the id of the
    object of the invocation.  For a script [Display, Image, Drawable,
    Adjustment], the values display 42, image 7, drawable 3, 1.5 (after the
    run mode, which is the first value of every invocation) give 3 and the
    ids 42, 7, 3; the values image 7, drawable 3, 1.5 give 0 and leave the
    script as it was. *)
Theorem collect_standard_args_ordered :
  (forall values script,
     let '(consumed, script') := script_fu_script_collect_standard_args values script in
     consumed = leading_args_spec script values
     /\ (consumed <= 3)%nat
     /\ (forall i, (i < consumed)%nat ->
         exists arg v,
           args script !! i = Some arg /\ values !! (i + 1) = Some v
           /\ is_id_type (arg_type arg) = true
           /\ args script' !! i
              = Some (set_value
                        (set_sfa_image (gimp_get_id (g_value_get_object v)) (value arg))
                        arg)))
  /\ (forall script run_mode d,
        map arg_type (args script) = [SF_DISPLAY; SF_IMAGE; SF_DRAWABLE; SF_ADJUSTMENT] ->
        let values :=
          [run_mode; GValue_id GIMP_TYPE_DISPLAY 42%Z; GValue_id GIMP_TYPE_IMAGE 7%Z;
           GValue_id GIMP_TYPE_DRAWABLE 3%Z; GValue_double d] in
        let '(consumed, script') := script_fu_script_collect_standard_args values script in
        consumed = 3%nat
        /\ map (fun arg => sfa_image (value arg)) (take 3 (args script')) = [42; 7; 3]%Z
        /\ drop 3 (args script') = drop 3 (args script))
  /\ (forall script run_mode d,
        map arg_type (args script) = [SF_DISPLAY; SF_IMAGE; SF_DRAWABLE; SF_ADJUSTMENT] ->
        let values :=
          [run_mode; GValue_id GIMP_TYPE_IMAGE 7%Z; GValue_id GIMP_TYPE_DRAWABLE 3%Z;
           GValue_double d] in
        script_fu_script_collect_standard_args values script = (0%nat, script)).
Proof.
  split; [|split].
  - intros values script. rewrite collect_standard_args_eq.
    split; [reflexivity|]. split; [apply leading_args_spec_le_3|].
    intros i Hi.
    destruct (leading_args_spec_matched _ _ _ Hi) as [type Hm].
    destruct (standard_arg_matches_inv _ _ _ _ Hm) as (arg & v & t & Ha & Hv & Hg & Ht & _).
    exists arg, v. repeat split; try assumption.
    + rewrite Ht. destruct type; simpl in *; congruence.
    + rewrite write_ids_lookup, Ha. simpl.
      apply Nat.ltb_lt in Hi. rewrite Hi. unfold write_id. now rewrite Hv.
  - intros script run_mode d Ht values. rewrite collect_standard_args_eq.
    destruct script as [nm ml bl au co da it l]; simpl in Ht.
    destruct l as [|a0 [|a1 [|a2 [|a3 [|a4 l]]]]]; try discriminate.
    injection Ht as H0 H1 H2 H3.
    destruct a0, a1, a2, a3; simpl in *; subst.
    repeat split; reflexivity.
  - intros script run_mode d Ht values. rewrite collect_standard_args_eq.
    destruct script as [nm ml bl au co da it l]; simpl in Ht.
    destruct l as [|a0 [|a1 [|a2 [|a3 [|a4 l]]]]]; try discriminate.
    injection Ht as H0 H1 H2 H3.
    destruct a0, a1, a2, a3; simpl in *; subst.
    reflexivity.
Qed.

(** *** The steps of the collection, its bounds and its edges *)

(** [script_fu_script_param_init] on any script, position and type. *)
Lemma param_init_cases values type n script :
  (exists arg t o,
     args script !! n = Some arg /\ arg_type arg = type
     /\ standard_gtype type = Some t
     /\ values !! (n + 1)%nat = Some (GValue_object t o)
     /\ script_fu_script_param_init values type n script
        = (true,
           set_args
             (<[n := set_value (set_sfa_image (gimp_get_id o) (value arg)) arg]>
                (args script)) script))
  \/ (standard_arg_matches script values type n = false
      /\ script_fu_script_param_init values type n script = (false, script)).
Proof.
  unfold script_fu_script_param_init, standard_arg_matches.
  destruct (args script !! n) as [arg|] eqn:Ha; [|right; split; reflexivity].
  assert (Hn : (n <? n_args script)%nat = true).
  { apply Nat.ltb_lt. eapply lookup_lt_Some; eauto. }
  rewrite Hn. cbn [andb].
  unfold gimp_value_array_length, gimp_value_array_index.
  destruct (values !! (n + 1)%nat) as [v|] eqn:Hv.
  - assert (Hl : (n + 1 <? length values)%nat = true).
    { apply Nat.ltb_lt. eapply lookup_lt_Some; eauto. }
    rewrite Hl, andb_true_r.
    destruct (bool_decide (arg_type arg = type)) eqn:Ht; cbn [andb];
      [|right; split; [destruct (standard_gtype type)|]; reflexivity].
    apply bool_decide_eq_true in Ht.
    destruct type; cbn [standard_gtype]; try (right; split; reflexivity);
      match goal with
      | |- context [GIMP_VALUE_HOLDS ?t v] =>
          destruct (GIMP_VALUE_HOLDS t v) eqn:Hh;
            [|right; split; reflexivity];
            left; destruct v as [t' o| | | | | |]; try discriminate;
            apply bool_decide_eq_true in Hh; subst t';
            exists arg, t, o; repeat split; assumption
      end.
  - right. assert (Hl : (n + 1 <? length values)%nat = false).
    { apply Nat.ltb_ge. eapply lookup_ge_None; eauto. }
    rewrite Hl, andb_false_r. split; reflexivity.
Qed.


(** [script_fu_script_param_init], for every position and every type: it
    returns TRUE exactly when the script has an argument of that type at
    position [n], the type is one of the six id types, and the invocation has
    at [n + 1] an object value of the matching object type; then it stores
    the id of that object in the argument and nothing else.  It returns
    FALSE in every other case (a position past the arguments, a value
    missing from the invocation, a type that is not an id type) and then the
    script is as it was. *)
Theorem param_init_result values type n script :
  let '(found, script') := script_fu_script_param_init values type n script in
  (found = true <->
     exists arg t o,
       args script !! n = Some arg /\ arg_type arg = type
       /\ is_id_type type = true /\ standard_gtype type = Some t
       /\ values !! (n + 1)%nat = Some (GValue_object t o))
  /\ (found = false -> script' = script)
  /\ (forall arg v,
        found = true -> args script !! n = Some arg ->
        values !! (n + 1)%nat = Some v ->
        script'
        = set_args
            (<[n := set_value
                      (set_sfa_image (gimp_get_id (g_value_get_object v)) (value arg))
                      arg]> (args script)) script).
Proof.
  destruct (param_init_cases values type n script)
    as [(arg & t & o & Ha & Ht & Hg & Hv & ->)|[Hm ->]].
  - split; [|split].
    + split; [intros _|reflexivity].
      exists arg, t, o. repeat split; try assumption.
      destruct type; simpl in *; congruence.
    + discriminate.
    + intros arg' v _ Ha' Hv'. rewrite Ha in Ha'. rewrite Hv in Hv'.
      injection Ha' as <-. injection Hv' as <-. reflexivity.
  - split; [|split].
    + split; [discriminate|].
      intros (arg & t & o & Ha & Ht & _ & Hg & Hv).
      unfold standard_arg_matches in Hm. rewrite Ha, Hv, Hg in Hm.
      simpl in Hm. rewrite bool_decide_eq_true_2 in Hm by assumption.
      rewrite bool_decide_eq_true_2 in Hm by reflexivity. discriminate.
    + reflexivity.
    + discriminate.
Qed.

(** A matched position has an argument of an id type and a value that holds
    an object. *)
Lemma leading_args_spec_id script values i :
  (i < leading_args_spec script values)%nat ->
  exists arg v, args script !! i = Some arg /\ values !! (i + 1)%nat = Some v
    /\ is_id_type (arg_type arg) = true /\ G_VALUE_HOLDS_OBJECT v = true.
Proof.
  intros Hi. destruct (leading_args_spec_matched _ _ _ Hi) as [type Hm].
  destruct (standard_arg_matches_inv _ _ _ _ Hm) as (arg & v & t & Ha & Hv & Hg & Ht & Hh).
  exists arg, v. repeat split; try assumption.
  - rewrite Ht. destruct type; simpl in *; congruence.
  - destruct v; simpl in *; congruence.
Qed.

(** The count of collected arguments never passes the arguments of the
    script nor the values of the invocation after the run mode. *)
Theorem collect_standard_args_bounds values script :
  let consumed := fst (script_fu_script_collect_standard_args values script) in
  (consumed <= n_args script)%nat /\ (consumed <= length values - 1)%nat.
Proof.
  rewrite collect_standard_args_eq. cbn [fst].
  destruct (leading_args_spec script values) as [|c] eqn:E; [split; lia|].
  destruct (leading_args_spec_id script values c) as (arg & v & Ha & Hv & _ & _); [lia|].
  apply lookup_lt_Some in Ha. apply lookup_lt_Some in Hv.
  unfold n_args. split; lia.
Qed.

Lemma standard_arg_matches_write_ids values c script type n :
  standard_arg_matches (write_ids values c script) values type n
  = standard_arg_matches script values type n.
Proof.
  unfold standard_arg_matches. rewrite write_ids_lookup.
  destruct (args script !! n) as [arg|]; [|reflexivity]. simpl.
  destruct (n <? c)%nat; [|reflexivity]. now rewrite write_id_type.
Qed.

Lemma leading_args_spec_write_ids values c script :
  leading_args_spec (write_ids values c script) values = leading_args_spec script values.
Proof.
  unfold leading_args_spec. cbn [existsb].
  now rewrite !standard_arg_matches_write_ids.
Qed.

Lemma write_id_idempotent values i arg :
  write_id values i (write_id values i arg) = write_id values i arg.
Proof. unfold write_id. destruct (values !! (i + 1)%nat); reflexivity. Qed.

Lemma write_ids_idempotent values c script :
  write_ids values c (write_ids values c script) = write_ids values c script.
Proof.
  destruct script as [nm ml bl au co da it l].
  unfold write_ids, set_args; simpl. f_equal.
  apply list_eq. intros i. rewrite !list_lookup_imap.
  destruct (l !! i) as [arg|]; [|reflexivity]. simpl.
  destruct (i <? c)%nat; [|reflexivity]. now rewrite write_id_idempotent.
Qed.

(** Collecting the standard arguments of the same invocation a second time
    returns the same count and leaves the script as the first time. *)
Theorem collect_standard_args_idempotent values script :
  let '(consumed, script') := script_fu_script_collect_standard_args values script in
  script_fu_script_collect_standard_args values script' = (consumed, script').
Proof.
  rewrite collect_standard_args_eq, collect_standard_args_eq.
  rewrite leading_args_spec_write_ids. now rewrite write_ids_idempotent.
Qed.

(** Nothing is collected, and the script stays as it is, when the invocation
    has no value after the run mode, when the script has no argument, and
    when the first argument is neither a display nor an image. *)
Theorem collect_standard_args_nothing values script :
  (length values <= 1)%nat
  \/ args script = []
  \/ (exists arg, args script !! 0%nat = Some arg
        /\ arg_type arg <> SF_DISPLAY /\ arg_type arg <> SF_IMAGE) ->
  script_fu_script_collect_standard_args values script = (0%nat, script).
Proof.
  intros H. rewrite collect_standard_args_eq.
  assert (Hd : forall type, type = SF_DISPLAY \/ type = SF_IMAGE ->
                 standard_arg_matches script values type 0 = false).
  { intros type Htype. unfold standard_arg_matches.
    destruct H as [Hlen|[Hnil|(arg & Ha & Hnd & Hni)]].
    - destruct (values !! (0 + 1)%nat) as [v|] eqn:Hv.
      + apply lookup_lt_Some in Hv. simpl in Hv. lia.
      + destruct (args script !! 0%nat); reflexivity.
    - now rewrite Hnil.
    - rewrite Ha. destruct (values !! (0 + 1)%nat); [|reflexivity].
      destruct (standard_gtype type); [|reflexivity].
      rewrite bool_decide_eq_false_2; [reflexivity|].
      destruct Htype; congruence. }
  unfold leading_args_spec.
  rewrite (Hd SF_DISPLAY) by now left. rewrite (Hd SF_IMAGE) by now right.
  now rewrite write_ids_0.
Qed.

(** *** Collection and reset *)

Lemma standard_arg_matches_reset script reset_ids values type n :
  standard_arg_matches (script_fu_script_reset script reset_ids) values type n
  = standard_arg_matches script values type n.
Proof.
  unfold standard_arg_matches, script_fu_script_reset. cbn [args set_args].
  rewrite list_lookup_fmap.
  destruct (args script !! n) as [arg|]; [|reflexivity]. simpl.
  now rewrite reset_arg_type.
Qed.

Lemma leading_args_spec_reset script reset_ids values :
  leading_args_spec (script_fu_script_reset script reset_ids) values
  = leading_args_spec script values.
Proof.
  unfold leading_args_spec. cbn [existsb].
  now rewrite !standard_arg_matches_reset.
Qed.

Lemma reset_arg_write_id values i arg :
  is_id_type (arg_type arg) = true ->
  reset_arg true (write_id values i arg) = reset_arg true arg
  /\ reset_arg false (write_id values i arg) = write_id values i (reset_arg false arg).
Proof.
  intros Hid. unfold write_id.
  destruct (values !! (i + 1)%nat) as [v|]; [|split; reflexivity].
  destruct arg as [type lbl d v0]. unfold reset_arg; simpl in *.
  destruct type; try discriminate; split; reflexivity.
Qed.

(** Resetting and collecting: a reset with the ids forgets what was
    collected; a reset without the ids and the collection of the standard
    arguments do not disturb each other, in either order they give the same
    script and the same count. *)
Theorem reset_collect_standard_args values script :
  let '(consumed, script') := script_fu_script_collect_standard_args values script in
  script_fu_script_reset script' true = script_fu_script_reset script true
  /\ script_fu_script_collect_standard_args values (script_fu_script_reset script false)
     = (consumed, script_fu_script_reset script' false).
Proof.
  rewrite !collect_standard_args_eq, leading_args_spec_reset.
  set (c := leading_args_spec script values).
  assert (Hid : forall i arg, (i < c)%nat -> args script !! i = Some arg ->
                  is_id_type (arg_type arg) = true).
  { intros i arg Hi Ha.
    destruct (leading_args_spec_id script values i Hi) as (arg' & v & Ha' & _ & H & _).
    congruence. }
  clearbody c.
  destruct script as [nm ml bl au co da it l].
  unfold write_ids, script_fu_script_reset, set_args; simpl in *.
  split; [|f_equal]; f_equal; apply list_eq; intros i;
    rewrite ?list_lookup_fmap, ?list_lookup_imap, ?list_lookup_fmap;
    destruct (l !! i) as [arg|] eqn:Ha; simpl; try reflexivity;
    destruct (i <? c)%nat eqn:E; try reflexivity;
    apply Nat.ltb_lt in E; f_equal;
    destruct (reset_arg_write_id values i arg (Hid i arg E Ha)) as [H1 H2];
    congruence.
Qed.

End Collect.

(** ** The title of a script *)

Lemma strrchr_None s c : has_char c s = false -> strrchr s c = None.
Proof.
  induction s as [|c' s IH]; simpl; [reflexivity|].
  intros H. apply orb_false_iff in H as [H1 H2]. now rewrite IH, H1.
Qed.

Lemma strrchr_last p c q :
  has_char c q = false -> strrchr (p +:+ String c q) c = Some (String.length p).
Proof.
  intros Hq. induction p as [|c' p IH]; simpl.
  - rewrite strrchr_None by assumption. now rewrite Ascii.eqb_refl.
  - now rewrite IH.
Qed.

Lemma strrchr_has s c i : strrchr s c = Some i -> has_char c s = true.
Proof.
  revert i. induction s as [|c' s IH]; simpl; [discriminate|].
  intros i. destruct (strrchr s c) eqn:E.
  - intros _. rewrite (IH _ eq_refl). apply orb_true_r.
  - destruct (Ascii.eqb c' c); [reflexivity|discriminate].
Qed.

Lemma strrchr_end p c : strrchr (p +:+ String c "") c = Some (String.length p).
Proof. now apply strrchr_last. Qed.

(** A prefix as long as the string is the string. *)
Lemma prefix_same_length (n s : string) :
  String.prefix n s = true -> String.length s = String.length n -> s = n.
Proof.
  revert s; induction n as [|c n IH]; intros [|c' s]; simpl; try discriminate; auto.
  destruct (ascii_dec c c') as [->|]; [|discriminate].
  intros H Hl. f_equal. apply IH; auto.
Qed.

Lemma prefix_app (n q : string) : String.prefix n (n +:+ q) = true.
Proof.
  induction n as [|c n IH]; simpl; [destruct q; reflexivity|].
  destruct (ascii_dec c c); [assumption|congruence].
Qed.

Lemma prefix_length (n s : string) :
  String.prefix n s = true -> (String.length n <= String.length s)%nat.
Proof.
  revert s; induction n as [|c n IH]; intros [|c' s]; simpl; try discriminate; try lia.
  destruct (ascii_dec c c'); [|discriminate]. intros H. apply IH in H. lia.
Qed.

(** [strstr] finds the first occurrence. *)
Lemma strstr_Some h n i :
  strstr h n = Some i ->
  occurs_at n h i /\ forall j, (j < i)%nat -> ~ occurs_at n h j.
Proof.
  unfold occurs_at. revert i; induction h as [|c h IH]; intros i; cbn [strstr].
  - destruct (String.prefix n "") eqn:E.
    + intros [= <-]. split; [assumption|lia].
    + discriminate.
  - destruct (String.prefix n (String c h)) eqn:E.
    + intros [= <-]. split; [assumption|lia].
    + destruct (strstr h n) as [k|] eqn:Ek; cbn [fmap option_fmap option_map];
        [|discriminate].
      intros [= <-]. destruct (IH k eq_refl) as [H1 H2]. split; [assumption|].
      intros [|j] Hj; cbn [string_drop]; [congruence|]. apply H2. lia.
Qed.

Lemma strstr_first h n i :
  occurs_at n h i -> (forall j, (j < i)%nat -> ~ occurs_at n h j) ->
  (i <= String.length h)%nat ->
  strstr h n = Some i.
Proof.
  unfold occurs_at. revert i; induction h as [|c h IH]; intros i Hi Hlt Hle.
  - simpl in Hle. assert (i = 0)%nat as -> by lia. cbn [strstr string_drop] in *.
    now rewrite Hi.
  - destruct i as [|i].
    + cbn [string_drop] in Hi. cbn [strstr]. now rewrite Hi.
    + cbn [strstr]. destruct (String.prefix n (String c h)) eqn:E.
      * exfalso. apply (Hlt 0%nat); [lia|exact E].
      * rewrite (IH i); [reflexivity| exact Hi | | simpl in Hle; lia].
        intros j Hj. apply (Hlt (S j)). lia.
Qed.

Lemma strstr_None h n : (forall j, ~ occurs_at n h j) -> strstr h n = None.
Proof.
  unfold occurs_at. induction h as [|c h IH]; intros H.
  - cbn [strstr]. destruct (String.prefix n "") eqn:E; [|reflexivity].
    exfalso. apply (H 0%nat). exact E.
  - cbn [strstr]. destruct (String.prefix n (String c h)) eqn:E.
    + exfalso. apply (H 0%nat). exact E.
    + rewrite IH; [reflexivity|]. intros j. apply (H (S j)).
Qed.


Lemma title_last_part_path p q :
  has_char "/" q = false -> q <> "" ->
  title_last_part ("<" +:+ p +:+ "/" +:+ q) = q.
Proof.
  intros Hq Hne. unfold title_last_part. simpl String.get. simpl Ascii.eqb. cbv iota.
  change ("<" +:+ p +:+ "/" +:+ q) with (String "<" p +:+ String "/" q).
  rewrite strrchr_last by assumption.
  unfold strlen. rewrite string_app_length.
  replace (String.length (String "<" p) + 1)%nat
    with (String.length (String "<" p +:+ "/")) by (rewrite string_app_length; reflexivity).
  assert (Hlen : (0 < String.length q)%nat) by (destruct q; [congruence|simpl; lia]).
  assert (Hlt : (String.length (String "<" p +:+ "/") <?
                 String.length (String "<" p) + String.length (String "/" q))%nat = true).
  { apply Nat.ltb_lt. rewrite string_app_length. simpl. lia. }
  rewrite Hlt. unfold g_strdup.
  replace (String "<" p +:+ String "/" q) with ((String "<" p +:+ "/") +:+ q)
    by (rewrite string_app_assoc; reflexivity).
  apply string_drop_app.
Qed.

Lemma title_last_part_whole title :
  String.get 0 title <> Some "<"%char \/ has_char "/" title = false
  \/ (exists p, title = p +:+ "/") ->
  title_last_part title = title.
Proof.
  unfold title_last_part. intros H.
  destruct (match String.get 0 title with Some c => Ascii.eqb c "<" | None => false end) eqn:E;
    [|reflexivity].
  destruct H as [H|[H|[p ->]]].
  - destruct (String.get 0 title) as [c|]; [|discriminate].
    apply Ascii.eqb_eq in E. congruence.
  - now rewrite strrchr_None.
  - rewrite strrchr_end. unfold strlen. rewrite string_app_length. simpl.
    now rewrite Nat.ltb_irrefl.
Qed.

Lemma occurs_at_end u n : occurs_at n (u +:+ n) (String.length u).
Proof.
  unfold occurs_at. rewrite string_drop_app.
  rewrite <- (string_app_nil_r n) at 2. apply prefix_app.
Qed.

Lemma cut_at_end u n :
  String.length n = 3%nat ->
  (if (Z.of_nat (String.length u) =? Z.of_nat (strlen (u +:+ n)) - 3)%Z
   then string_take (String.length u) (u +:+ n) else u +:+ n) = u.
Proof.
  intros Hn. unfold strlen. rewrite string_app_length, Hn.
  replace (Z.of_nat (String.length u) =? Z.of_nat (String.length u + 3) - 3)%Z with true
    by (symmetry; apply Z.eqb_eq; lia).
  apply string_take_app.
Qed.

Lemma title_cut_ascii_ellipsis u :
  (forall j, (j < String.length u)%nat -> ~ occurs_at "..." (u +:+ "...") j) ->
  title_cut_ellipsis (u +:+ "...") = u.
Proof.
  intros Hfirst. unfold title_cut_ellipsis.
  rewrite (strstr_first _ _ (String.length u)).
  - now apply cut_at_end.
  - apply occurs_at_end.
  - assumption.
  - rewrite string_app_length. lia.
Qed.

Lemma title_cut_horizontal_ellipsis u :
  (forall j, ~ occurs_at "..." (u +:+ horizontal_ellipsis) j) ->
  (forall j, (j < String.length u)%nat ->
             ~ occurs_at horizontal_ellipsis (u +:+ horizontal_ellipsis) j) ->
  title_cut_ellipsis (u +:+ horizontal_ellipsis) = u.
Proof.
  intros Hnone Hfirst. unfold title_cut_ellipsis.
  rewrite strstr_None by assumption.
  rewrite (strstr_first _ _ (String.length u)).
  - now apply cut_at_end.
  - apply occurs_at_end.
  - assumption.
  - rewrite string_app_length. lia.
Qed.

(** An occurrence three bytes before the end is the end of the string. *)
Lemma occurs_at_end_inv n title i :
  String.length n = 3%nat ->
  occurs_at n title i ->
  (Z.of_nat i =? Z.of_nat (strlen title) - 3)%Z = true ->
  title = string_take i title +:+ n.
Proof.
  intros Hn Hocc Hi. apply Z.eqb_eq in Hi. unfold strlen in Hi.
  rewrite <- (string_take_drop i title) at 1. f_equal.
  apply prefix_same_length; [exact Hocc|].
  rewrite string_drop_length. lia.
Qed.

Lemma title_cut_none title :
  (forall u, title <> u +:+ "...") ->
  (forall u, title <> u +:+ horizontal_ellipsis) ->
  title_cut_ellipsis title = title.
Proof.
  intros H1 H2. unfold title_cut_ellipsis.
  destruct (strstr title "...") as [i|] eqn:E1.
  - destruct (Z.of_nat i =? _)%Z eqn:Ei; [|reflexivity].
    exfalso. apply (H1 (string_take i title)).
    apply occurs_at_end_inv; [reflexivity| |assumption].
    now apply strstr_Some in E1 as [? _].
  - destruct (strstr title horizontal_ellipsis) as [i|] eqn:E2; [|reflexivity].
    destruct (Z.of_nat i =? _)%Z eqn:Ei; [|reflexivity].
    exfalso. apply (H2 (string_take i title)).
    apply occurs_at_end_inv; [reflexivity| |assumption].
    now apply strstr_Some in E2 as [? _].
Qed.

(** [strrchr] finds the last occurrence: nothing after it is the character. *)
Lemma strrchr_Some s c i :
  strrchr s c = Some i ->
  exists p q, s = p +:+ String c q /\ String.length p = i /\ has_char c q = false.
Proof.
  revert i. induction s as [|c' s IH]; intros i; cbn [strrchr]; [discriminate|].
  destruct (strrchr s c) as [k|] eqn:E.
  - cbn [fmap option_fmap option_map]. intros [= <-].
    destruct (IH k eq_refl) as (p & q & -> & Hp & Hq).
    exists (String c' p), q. simpl. now rewrite Hp.
  - destruct (Ascii.eqb c' c) eqn:Ec; [|discriminate].
    intros [= <-]. apply Ascii.eqb_eq in Ec as ->.
    exists "", s. repeat split.
    clear IH. induction s as [|c'' s IH]; [reflexivity|].
    cbn [strrchr] in E. cbn [has_char].
    destruct (strrchr s c) eqn:E'; [discriminate|].
    destruct (Ascii.eqb c'' c) eqn:Ec; [discriminate|].
    rewrite IH by reflexivity. reflexivity.
Qed.

(** The first step of the title keeps the label or what follows its last
    slash. *)
Lemma title_last_part_cases title :
  title_last_part title = title
  \/ exists p q, title = "<" +:+ p +:+ "/" +:+ q /\ has_char "/" q = false /\ q <> ""
       /\ title_last_part title = q.
Proof.
  unfold title_last_part.
  destruct title as [|c t]; [now left|]. cbn [String.get].
  destruct (Ascii.eqb c "<") eqn:Ec; [|now left].
  apply Ascii.eqb_eq in Ec as ->.
  destruct (strrchr (String "<" t) "/") as [tmp|] eqn:E; [|now left].
  destruct (tmp + 1 <? strlen (String "<" t))%nat eqn:El; [|now left].
  right. apply strrchr_Some in E as (p & q & Heq & Hp & Hq).
  destruct p as [|c p]; [discriminate|].
  injection Heq as <- ->.
  exists p, q. unfold g_strdup, strlen in *.
  apply Nat.ltb_lt in El. rewrite <- Hp in *.
  cbn [String.length] in El.
  change (String "<" (p +:+ String "/" q)) with (String "<" p +:+ String "/" q) in *.
  rewrite string_app_length in El. cbn [String.length] in El.
  repeat split.
  - assumption.
  - intros ->. simpl in El. lia.
  - replace (String "<" p +:+ String "/" q) with ((String "<" p +:+ "/") +:+ q)
      by (rewrite string_app_assoc; reflexivity).
    replace (String.length (String "<" p) + 1)%nat
      with (String.length (String "<" p +:+ "/"))
      by (rewrite string_app_length; simpl; lia).
    apply string_drop_app.
Qed.

(** The last step of the title keeps the title or cuts an ellipsis off its
    end. *)
Lemma title_cut_ellipsis_cases title :
  title_cut_ellipsis title = title
  \/ title = title_cut_ellipsis title +:+ "..."
  \/ title = title_cut_ellipsis title +:+ horizontal_ellipsis.
Proof.
  unfold title_cut_ellipsis.
  destruct (strstr title "...") as [i|] eqn:E1.
  - destruct (Z.of_nat i =? _)%Z eqn:Ei; [|now left].
    right; left. apply occurs_at_end_inv; [reflexivity| |assumption].
    now apply strstr_Some in E1 as [? _].
  - destruct (strstr title horizontal_ellipsis) as [i|] eqn:E2; [|now left].
    destruct (Z.of_nat i =? _)%Z eqn:Ei; [|now left].
    right; right. apply occurs_at_end_inv; [reflexivity| |assumption].
    now apply strstr_Some in E2 as [? _].
Qed.

(** What [strstr] finds is no longer than the string. *)
Lemma strstr_length h n i :
  strstr h n = Some i -> (String.length n <= String.length h)%nat.
Proof.
  intros H. apply strstr_Some in H as [H _]. unfold occurs_at in H.
  apply prefix_length in H. rewrite string_drop_length in H. lia.
Qed.

Section TitleProperties.
Context {GimpRGB : Type}.
Variable gimp_strip_uline : string -> string.

(** C7 (amended). The title is made from the menu label stripped of its
    mnemonics ([title0]) in two steps.  First the last part of a menu path:
    when [title0] begins with [<] and has a [/] with at least one character
    after the last one, the part is what follows the last [/]; when it does
    not begin with [<], has no [/], or ends with [/], the part is [title0]
    whole.  Then the ellipsis: a part that ends with ["..."], and in which
    ["..."] does not occur earlier, loses it; a part without ["..."] that
    ends with U+2026, and in which U+2026 does not occur earlier, loses it; a
    part that ends with neither is the title.  The menu label
    ["<Image>/Filters/Blur/Gaussian Blur..."], which has no mnemonic to
    strip, gives the title ["Gaussian Blur"]. *)
Theorem get_title_amended (script : @SFScript GimpRGB) :
  let title0 := gimp_strip_uline (menu_label script) in
  let title := script_fu_script_get_title gimp_strip_uline script in
  (exists part,
     (forall p q, title0 = "<" +:+ p +:+ "/" +:+ q ->
                  has_char "/" q = false -> q <> "" -> part = q)
     /\ (String.get 0 title0 <> Some "<"%char \/ has_char "/" title0 = false
         \/ (exists p, title0 = p +:+ "/") -> part = title0)
     /\ (forall u, part = u +:+ "..." ->
           (forall j, (j < String.length u)%nat -> ~ occurs_at "..." part j) ->
           title = u)
     /\ (forall u, part = u +:+ horizontal_ellipsis ->
           (forall j, ~ occurs_at "..." part j) ->
           (forall j, (j < String.length u)%nat -> ~ occurs_at horizontal_ellipsis part j) ->
           title = u)
     /\ ((forall u, part <> u +:+ "...") ->
         (forall u, part <> u +:+ horizontal_ellipsis) ->
         title = part))
  /\ (menu_label script = "<Image>/Filters/Blur/Gaussian Blur..." ->
      title0 = menu_label script ->
      title = "Gaussian Blur").
Proof.
  intros title0 title. split.
  - exists (title_last_part title0). repeat split.
    + intros p q -> Hq Hne. now apply title_last_part_path.
    + apply title_last_part_whole.
    + intros u Hu Hfirst. unfold title, script_fu_script_get_title. fold title0. rewrite Hu in *.
      now apply title_cut_ascii_ellipsis.
    + intros u Hu Hnone Hfirst. unfold title, script_fu_script_get_title. fold title0. rewrite Hu in *.
      now apply title_cut_horizontal_ellipsis.
    + intros H1 H2. unfold title, script_fu_script_get_title. fold title0.
      now apply title_cut_none.
  - intros Hl H. unfold title, script_fu_script_get_title. fold title0.
    rewrite H, Hl. reflexivity.
Qed.

(** The title is a piece of the menu label stripped of its mnemonics: what
    is left of it once a menu path up to a slash is taken off its front, or
    nothing, and once an ellipsis of three bytes is taken off its end, or
    nothing.  No character is added or changed. *)
Theorem get_title_piece (script : @SFScript GimpRGB) :
  exists pre post,
    gimp_strip_uline (menu_label script)
    = pre +:+ script_fu_script_get_title gimp_strip_uline script +:+ post
    /\ (pre = "" \/ exists p, pre = "<" +:+ p +:+ "/")
    /\ (post = "" \/ post = "..." \/ post = horizontal_ellipsis).
Proof.
  unfold script_fu_script_get_title.
  set (title0 := gimp_strip_uline (menu_label script)).
  destruct (title_last_part_cases title0) as [->|(p & q & H0 & _ & _ & ->)].
  - exists "".
    destruct (title_cut_ellipsis_cases title0) as [Hc|[Hc|Hc]].
    + exists "". rewrite Hc, string_app_nil_r. repeat split; auto.
    + exists "...". split; [exact Hc|]. split; auto.
    + exists horizontal_ellipsis. split; [exact Hc|]. split; auto.
  - exists ("<" +:+ p +:+ "/"). rewrite H0.
    assert (Hpre : forall r, "<" +:+ p +:+ "/" +:+ r = ("<" +:+ p +:+ "/") +:+ r).
    { intros r. simpl. f_equal. now rewrite string_app_assoc. }
    destruct (title_cut_ellipsis_cases q) as [Hc|[Hc|Hc]].
    + exists "". rewrite Hc, string_app_nil_r. split; [apply Hpre|]. split; eauto.
    + exists "...". split; [rewrite <- Hc; apply Hpre|]. split; eauto.
    + exists horizontal_ellipsis. split; [rewrite <- Hc; apply Hpre|]. split; eauto.
Qed.

Lemma title_cut_ellipsis_take title :
  exists n, title_cut_ellipsis title = string_take n title.
Proof.
  unfold title_cut_ellipsis.
  assert (Hw : title = string_take (String.length title) title).
  { rewrite <- (string_app_nil_r title) at 3. now rewrite string_take_app. }
  destruct (strstr title "...") as [i|].
  - destruct (Z.of_nat i =? _)%Z; eauto.
  - destruct (strstr title horizontal_ellipsis) as [i|]; [|eauto].
    destruct (Z.of_nat i =? _)%Z; eauto.
Qed.

(** The title of a menu path has no slash: when the stripped label begins
    with [<] and does not end with a slash, no slash is left in the title. *)
Theorem get_title_no_slash (script : @SFScript GimpRGB) :
  String.get 0 (gimp_strip_uline (menu_label script)) = Some "<"%char ->
  ends_with "/" (gimp_strip_uline (menu_label script)) = false ->
  has_char "/" (script_fu_script_get_title gimp_strip_uline script) = false.
Proof.
  unfold script_fu_script_get_title.
  set (title0 := gimp_strip_uline (menu_label script)). intros Hlt Hend.
  destruct (title_cut_ellipsis_take (title_last_part title0)) as [n ->].
  apply has_char_take.
  unfold title_last_part. rewrite Hlt. cbn [Ascii.eqb Bool.eqb]. cbv iota.
  destruct (strrchr title0 "/") as [tmp|] eqn:E.
  - apply strrchr_Some in E as (p & q & Heq & Hp & Hq).
    destruct (tmp + 1 <? strlen title0)%nat eqn:El.
    + unfold g_strdup. rewrite Heq, <- Hp.
      replace (p +:+ String "/" q) with ((p +:+ "/") +:+ q)
        by (rewrite string_app_assoc; reflexivity).
      replace (String.length p + 1)%nat with (String.length (p +:+ "/"))
        by (rewrite string_app_length; simpl; lia).
      now rewrite string_drop_app.
    + exfalso. apply Nat.ltb_ge in El. unfold strlen in El.
      rewrite Heq, string_app_length, <- Hp in El. cbn [String.length] in El.
      assert (q = "") as -> by (destruct q; [reflexivity|simpl in El; lia]).
      rewrite Heq in Hend. unfold ends_with in Hend.
      rewrite string_app_length in Hend. cbn [String.length] in Hend.
      replace (String.length p + 1 - 1)%nat with (String.length p) in Hend by lia.
      rewrite string_drop_app in Hend.
      replace (1 <=? String.length p + 1)%nat with true in Hend
        by (symmetry; apply Nat.leb_le; lia).
      discriminate Hend.
  - clear Hlt Hend. induction title0 as [|c t IH]; [reflexivity|].
    cbn [strrchr] in E. cbn [has_char].
    destruct (strrchr t "/"); [discriminate|].
    destruct (Ascii.eqb c "/"); [discriminate|]. now rewrite IH.
Qed.

(** A stripped label of fewer than three bytes is the title as it is; so the
    empty label has the empty title.  (No ellipsis is looked for before the
    beginning of the label.) *)
Theorem get_title_short (script : @SFScript GimpRGB) :
  (String.length (gimp_strip_uline (menu_label script)) < 3)%nat ->
  script_fu_script_get_title gimp_strip_uline script
  = gimp_strip_uline (menu_label script).
Proof.
  unfold script_fu_script_get_title.
  set (title0 := gimp_strip_uline (menu_label script)). intros Hlen.
  assert (Hpart : title_last_part title0 = title0).
  { destruct (title_last_part_cases title0) as [H|(p & q & H & _ & Hq & _)]; [exact H|].
    exfalso. rewrite H in Hlen. simpl in Hlen.
    rewrite string_app_length in Hlen. destruct q; [congruence|simpl in Hlen; lia]. }
  rewrite Hpart. unfold title_cut_ellipsis.
  destruct (strstr title0 "...") as [i|] eqn:E1.
  { apply strstr_length in E1. simpl in E1. lia. }
  destruct (strstr title0 horizontal_ellipsis) as [i|] eqn:E2; [|reflexivity].
  apply strstr_length in E2. simpl in E2. lia.
Qed.

End TitleProperties.

(** ** Decimal numbers: [printf_d] *)

Lemma nb_digits_double d :
  (Decimal.nb_digits (Decimal.Little.double d) <= S (Decimal.nb_digits d))%nat
  /\ (Decimal.nb_digits (Decimal.Little.succ_double d) <= S (Decimal.nb_digits d))%nat.
Proof. induction d as [|d [IH1 IH2]|d [IH1 IH2]|d [IH1 IH2]|d [IH1 IH2]|d [IH1 IH2]
                       |d [IH1 IH2]|d [IH1 IH2]|d [IH1 IH2]|d [IH1 IH2]|d [IH1 IH2]];
         simpl; split; lia. Qed.

Lemma nb_digits_to_little_uint p :
  (Decimal.nb_digits (Pos.to_little_uint p) <= Pos.size_nat p)%nat.
Proof.
  induction p as [p IH|p IH|]; simpl.
  - pose proof (proj2 (nb_digits_double (Pos.to_little_uint p))). lia.
  - pose proof (proj1 (nb_digits_double (Pos.to_little_uint p))). lia.
  - lia.
Qed.

Lemma size_nat_bound p n : (Z.pos p < 2 ^ Z.of_nat n)%Z -> (Pos.size_nat p <= n)%nat.
Proof.
  revert n. induction p as [p IH|p IH|]; intros [|n] H; simpl.
  - simpl in H. lia.
  - rewrite Nat2Z.inj_succ, Z.pow_succ_r in H by lia.
    apply le_n_S, IH. lia.
  - simpl in H. lia.
  - rewrite Nat2Z.inj_succ, Z.pow_succ_r in H by lia.
    apply le_n_S, IH. lia.
  - simpl in H. lia.
  - lia.
Qed.

Lemma string_of_uint_length u :
  String.length (NilEmpty.string_of_uint u) = Decimal.nb_digits u.
Proof. induction u; simpl; congruence. Qed.

(** A number of 31 bits has at most 31 decimal digits. *)
Lemma printf_d_length z :
  (0 <= z < 2 ^ 31)%Z -> (String.length (printf_d z) <= 31)%nat.
Proof.
  intros Hz. unfold printf_d. destruct z as [|p|p]; [simpl; lia| |lia].
  cbn [Z.to_int NilZero.string_of_int].
  pose proof (DecimalPos.Unsigned.to_uint_nonnil p) as Hnil.
  assert (Hlen : (Decimal.nb_digits (Pos.to_uint p) <= 31)%nat).
  { unfold Pos.to_uint. rewrite nb_digits_rev.
    etransitivity; [apply nb_digits_to_little_uint|].
    apply size_nat_bound. simpl Z.of_nat. lia. }
  destruct (Pos.to_uint p) eqn:E; try congruence;
    unfold NilZero.string_of_uint; rewrite string_of_uint_length; exact Hlen.
Qed.

(** [printf_d] can be read back. *)
Lemma printf_d_read z : NilZero.int_of_string (printf_d z) = Some (Z.to_int z).
Proof.
  unfold printf_d. apply NilZero.isi.
  - destruct z; simpl; try discriminate.
    intros [= H]. now apply (DecimalPos.Unsigned.to_uint_nonnil p).
  - destruct z; simpl; try discriminate.
    intros [= H]. now apply (DecimalPos.Unsigned.to_uint_nonnil p).
Qed.

Lemma printf_d_inj z1 z2 : printf_d z1 = printf_d z2 -> z1 = z2.
Proof.
  intros H. apply DecimalZ.to_int_inj.
  pose proof (printf_d_read z1) as H1. rewrite H, printf_d_read in H1. congruence.
Qed.

(** ** The PDB procedure of a script *)

Lemma strncmp_eq_prefix (s p : string) :
  strncmp_eq s p (String.length p) = String.prefix p s.
Proof.
  revert s; induction p as [|c p IH]; intros [|c' s]; simpl; try reflexivity.
  rewrite IH. destruct (ascii_dec c c') as [->|Hne].
    + now rewrite Ascii.eqb_refl.
    + destruct (Ascii.eqb c' c) eqn:E; [|reflexivity].
      apply Ascii.eqb_eq in E. congruence.
Qed.

Section Procedure.
Context {GimpRGB : Type}.
Variable SFArgType_value : SFArgType -> nat.
Implicit Types (script : @SFScript GimpRGB) (arg : @SFArg GimpRGB)
  (l : list (@SFArg GimpRGB)).

Lemma create_PDB_procedure_arg_Some procedure (arg_count : list gint) arg :
  (SFArgType_value (arg_type arg) < length arg_count)%nat ->
  exists procedure' arg_count',
    create_PDB_procedure_arg SFArgType_value (procedure, arg_count) arg
    = Some (procedure', arg_count')
    /\ length arg_count' = length arg_count
    /\ proc_menu_label procedure' = proc_menu_label procedure.
Proof.
  intros Hlt. unfold create_PDB_procedure_arg.
  destruct (param_name (arg_type arg)) as [nm nick].
  destruct (arg_count !! SFArgType_value (arg_type arg)) as [count|] eqn:Hc.
  - simpl. destruct (count =? 0)%Z; eexists _, _; (split; [reflexivity|]);
      split; try reflexivity; apply length_insert.
  - apply lookup_ge_None in Hc. lia.
Qed.

Lemma create_PDB_procedure_arg_None procedure (arg_count : list gint) arg :
  (length arg_count <= SFArgType_value (arg_type arg))%nat ->
  create_PDB_procedure_arg SFArgType_value (procedure, arg_count) arg = None.
Proof.
  intros Hge. unfold create_PDB_procedure_arg.
  destruct (param_name (arg_type arg)) as [nm nick].
  destruct (arg_count !! SFArgType_value (arg_type arg)) as [count|] eqn:Hc;
    [|reflexivity].
  apply lookup_lt_Some in Hc. lia.
Qed.

Lemma create_PDB_procedure_loop_Some l procedure (arg_count : list gint) :
  Forall (fun arg => (SFArgType_value (arg_type arg) < length arg_count)%nat) l ->
  exists procedure' arg_count',
    create_PDB_procedure_loop SFArgType_value l (procedure, arg_count)
    = Some (procedure', arg_count')
    /\ proc_menu_label procedure' = proc_menu_label procedure.
Proof.
  revert procedure arg_count.
  induction l as [|arg l IH]; intros procedure arg_count Hall;
    cbn [create_PDB_procedure_loop].
  - eauto.
  - inversion Hall as [|? ? Harg Hl]; subst.
    destruct (create_PDB_procedure_arg_Some procedure arg_count arg Harg)
      as (p1 & c1 & -> & Hlen & Hml). simpl.
    rewrite <- Hlen in Hl.
    destruct (IH p1 c1 Hl) as (p2 & c2 & -> & Hml2).
    eexists _, _. split; [reflexivity|]. congruence.
Qed.

Lemma create_PDB_procedure_loop_length l st st' :
  create_PDB_procedure_loop SFArgType_value l st = Some st' ->
  length (snd st') = length (snd st).
Proof.
  revert st; induction l as [|arg l IH]; intros [procedure arg_count];
    cbn [create_PDB_procedure_loop].
  - now intros [= <-].
  - destruct (decide (SFArgType_value (arg_type arg) < length arg_count)%nat) as [Hlt|Hge].
    + destruct (create_PDB_procedure_arg_Some procedure arg_count arg Hlt)
        as (p1 & c1 & -> & Hlen & _). simpl.
      intros H. apply IH in H. simpl in H. congruence.
    + rewrite create_PDB_procedure_arg_None by lia. discriminate.
Qed.

Lemma create_PDB_procedure_loop_None l procedure (arg_count : list gint) :
  Exists (fun arg => (length arg_count <= SFArgType_value (arg_type arg))%nat) l ->
  create_PDB_procedure_loop SFArgType_value l (procedure, arg_count) = None.
Proof.
  revert procedure arg_count.
  induction l as [|arg l IH]; intros procedure arg_count Hex;
    cbn [create_PDB_procedure_loop].
  - inversion Hex.
  - destruct (decide (SFArgType_value (arg_type arg) < length arg_count)%nat) as [Hlt|Hge].
    + destruct (create_PDB_procedure_arg_Some procedure arg_count arg Hlt)
        as (p1 & c1 & -> & Hlen & _). simpl.
      apply IH. rewrite Hlen.
      inversion Hex as [? ? H|? ? H]; subst; [lia|exact H].
    + rewrite create_PDB_procedure_arg_None by lia. reflexivity.
Qed.

(** The menu label that the statements before the loop set. *)
Lemma create_PDB_procedure_head_menu_label script plug_in_type :
  (String.prefix "<None>" (menu_label script) = true ->
   proc_menu_label (create_PDB_procedure_head script plug_in_type) = None)
  /\ (String.prefix "<None>" (menu_label script) = false ->
      menu_label script <> "" ->
      proc_menu_label (create_PDB_procedure_head script plug_in_type)
      = Some (menu_label script)).
Proof.
  unfold create_PDB_procedure_head; simpl.
  change 6%nat with (String.length "<None>"). rewrite strncmp_eq_prefix.
  split.
  - intros ->. reflexivity.
  - intros -> Hne. simpl. destruct (menu_label script); [congruence|reflexivity].
Qed.

(** C8. When the first 6 characters of the menu label are ["<None>"], no
    menu label is set on the procedure; for any other menu label that is not
    empty, that label is set.  This is so of the procedure as the statements
    before the loop over the arguments leave it, for every script; and the
    procedure that is returned, for every script whose arguments stay inside
    [arg_count], has that menu label. *)
Theorem menu_label_registration script plug_in_type :
  let set_label := proc_menu_label (create_PDB_procedure_head script plug_in_type) in
  (String.prefix "<None>" (menu_label script) = true -> set_label = None)
  /\ (String.prefix "<None>" (menu_label script) = false ->
      menu_label script <> "" -> set_label = Some (menu_label script))
  /\ (Forall (arg_count_in_bounds SFArgType_value) (args script) ->
      exists procedure,
        script_fu_script_create_PDB_procedure SFArgType_value script plug_in_type
        = Some procedure
        /\ proc_menu_label procedure = set_label).
Proof.
  intros set_label.
  destruct (create_PDB_procedure_head_menu_label script plug_in_type) as [Hnone Hsome].
  split; [exact Hnone|]. split; [exact Hsome|].
  intros Hall. unfold script_fu_script_create_PDB_procedure.
  destruct (create_PDB_procedure_loop_Some (args script)
              (create_PDB_procedure_head script plug_in_type)
              (replicate (SFArgType_value SF_DISPLAY) 0%Z))
    as (p & c & -> & Hml).
  { rewrite length_replicate. exact Hall. }
  exists p. split; [reflexivity|exact Hml].
Qed.

(** C2 (the defect). [arg_count] has [SF_DISPLAY] elements and is indexed by
    the type of the argument: whatever the values of the enumerators, an
    argument of type [SF_DISPLAY] is counted outside the array, so the
    function gives no defined name to it. *)
Theorem display_argument_out_of_bounds script plug_in_type :
  Exists (fun arg => arg_type arg = SF_DISPLAY) (args script) ->
  script_fu_script_create_PDB_procedure SFArgType_value script plug_in_type = None.
Proof.
  intros Hex. unfold script_fu_script_create_PDB_procedure.
  rewrite create_PDB_procedure_loop_None; [reflexivity|].
  rewrite length_replicate.
  eapply Exists_impl; [exact Hex|]. intros arg ->. simpl. lia.
Qed.

(** *** The procedure and its parameters *)

(** The loop adds one parameter per argument, with the label of the argument
    and the constructor of its type, and leaves the rest of the procedure. *)
Lemma create_PDB_procedure_loop_parameters l procedure (arg_count : list Z) st' :
  create_PDB_procedure_loop SFArgType_value l (procedure, arg_count) = Some st' ->
  exists pspecs,
    fst st'
    = {| proc_name := proc_name procedure; proc_type := proc_type procedure;
         proc_image_types := proc_image_types procedure;
         proc_menu_label := proc_menu_label procedure;
         proc_documentation := proc_documentation procedure;
         proc_attribution := proc_attribution procedure;
         proc_arguments := proc_arguments procedure ++ pspecs |}
    /\ map pspec_blurb pspecs = map label l
    /\ map (fun pspec => (pspec_kind pspec, pspec_no_validate pspec)) pspecs
       = map (fun arg => param_kind (arg_type arg)) l.
Proof.
  revert procedure arg_count. induction l as [|arg l IH]; intros procedure arg_count;
    cbn [create_PDB_procedure_loop].
  - intros [= <-]. exists []. rewrite app_nil_r. destruct procedure. repeat split.
  - destruct (create_PDB_procedure_arg SFArgType_value (procedure, arg_count) arg)
      as [[p1 c1]|] eqn:E; [|discriminate].
    cbn [mbind option_bind]. intros H.
    destruct (IH p1 c1 H) as (pspecs & Hst & Hb & Hk).
    unfold create_PDB_procedure_arg in E.
    destruct (param_name (arg_type arg)) as [nm nick].
    destruct (arg_count !! SFArgType_value (arg_type arg)) as [count|]; [|discriminate].
    cbn [mbind option_bind] in E.
    destruct (count =? 0)%Z; injection E as <- <-;
      (eexists (_ :: pspecs); split;
       [rewrite Hst; cbn [gimp_procedure_add_argument proc_name proc_type
                            proc_image_types proc_menu_label proc_documentation
                            proc_attribution proc_arguments];
        rewrite <- app_assoc; reflexivity|]);
      cbn [map pspec_blurb pspec_kind pspec_no_validate]; rewrite Hb, Hk;
      destruct (param_kind (arg_type arg)); split; reflexivity.
Qed.

(** The procedure that is made for a script has the name, the image types,
    the documentation and the attribution of the script, and the type that
    was asked for; its parameters are the run mode and, after it, one
    parameter for each argument of the script, in order, that has the label
    of the argument as its description and is made by the constructor for
    the type of the argument. *)
Theorem create_PDB_procedure_metadata script plug_in_type procedure :
  script_fu_script_create_PDB_procedure SFArgType_value script plug_in_type
  = Some procedure ->
  proc_name procedure = name script
  /\ proc_type procedure = plug_in_type
  /\ proc_image_types procedure = image_types script
  /\ proc_documentation procedure = (blurb script, None, name script)
  /\ proc_attribution procedure = (author script, copyright script, date script)
  /\ exists pspecs,
       proc_arguments procedure
       = {| pspec_kind := PARAM_SPEC_ENUM; pspec_name := "run-mode";
            pspec_nick := "Run mode"; pspec_blurb := "The run mode";
            pspec_no_validate := false |} :: pspecs
       /\ map pspec_blurb pspecs = map label (args script)
       /\ map (fun pspec => (pspec_kind pspec, pspec_no_validate pspec)) pspecs
          = map (fun arg => param_kind (arg_type arg)) (args script).
Proof.
  unfold script_fu_script_create_PDB_procedure.
  destruct (create_PDB_procedure_loop _ _ _) as [st'|] eqn:E; [|discriminate].
  cbn [fmap option_fmap option_map]. intros [= <-].
  apply create_PDB_procedure_loop_parameters in E as (pspecs & -> & Hb & Hk).
  cbn. repeat split. exists pspecs. repeat split; assumption.
Qed.

(** The accesses to [arg_count] stay inside the array, and the procedure is
    made, exactly for the scripts that have no argument of a type numbered
    [SF_DISPLAY] or above. *)
Theorem create_PDB_procedure_defined script plug_in_type :
  is_Some (script_fu_script_create_PDB_procedure SFArgType_value script plug_in_type)
  <-> Forall (arg_count_in_bounds SFArgType_value) (args script).
Proof.
  unfold script_fu_script_create_PDB_procedure, arg_count_in_bounds. split.
  - intros [procedure H].
    apply Forall_forall. intros arg Hin.
    destruct (lt_dec (SFArgType_value (arg_type arg)) (SFArgType_value SF_DISPLAY))
      as [Hlt|Hge]; [exact Hlt|].
    rewrite create_PDB_procedure_loop_None in H; [discriminate|].
    rewrite length_replicate. apply Exists_exists. exists arg. split; [exact Hin|lia].
  - intros Hall.
    destruct (create_PDB_procedure_loop_Some (args script)
                (create_PDB_procedure_head script plug_in_type)
                (replicate (SFArgType_value SF_DISPLAY) 0%Z))
      as (p & c & -> & _); [|simpl; eauto].
    now rewrite length_replicate.
Qed.

(** *** The menu label, once more *)

(** The menu label of the procedure is the menu label of the script as it
    is, or none: none exactly when the label of the script begins with
    ["<None>"] or is empty. *)
Theorem menu_label_none script plug_in_type procedure :
  script_fu_script_create_PDB_procedure SFArgType_value script plug_in_type
  = Some procedure ->
  (proc_menu_label procedure = None
   <-> String.prefix "<None>" (menu_label script) = true \/ menu_label script = "")
  /\ (forall text, proc_menu_label procedure = Some text -> text = menu_label script).
Proof.
  unfold script_fu_script_create_PDB_procedure.
  destruct (create_PDB_procedure_loop _ _ _) as [st'|] eqn:E; [|discriminate].
  cbn [fmap option_fmap option_map]. intros [= <-].
  apply create_PDB_procedure_loop_parameters in E as (pspecs & -> & _ & _).
  cbn [proc_menu_label create_PDB_procedure_head].
  change 6%nat with (String.length "<None>"). rewrite strncmp_eq_prefix.
  destruct (String.prefix "<None>" (menu_label script)); cbn [negb].
  - split; [split; auto|discriminate].
  - destruct (menu_label script) as [|c rest]; cbn [strlen String.length Nat.ltb Nat.leb].
    + split; [split; auto|discriminate].
    + split; [split; [discriminate|intros [H|H]; discriminate H]|].
      now intros text [= <-].
Qed.

(** *** The procedure and the values *)

(** The loop reads the type and the label of an argument. *)
Lemma create_PDB_procedure_loop_reads l1 l2 st :
  map (fun arg => (arg_type arg, label arg)) l1
  = map (fun arg => (arg_type arg, label arg)) l2 ->
  create_PDB_procedure_loop SFArgType_value l1 st
  = create_PDB_procedure_loop SFArgType_value l2 st.
Proof.
  revert l2 st. induction l1 as [|a1 l1 IH]; intros [|a2 l2] st H; try discriminate;
    [reflexivity|].
  injection H as Ht Hl Hrest. cbn [create_PDB_procedure_loop].
  assert (Ha : create_PDB_procedure_arg SFArgType_value st a1
               = create_PDB_procedure_arg SFArgType_value st a2).
  { unfold create_PDB_procedure_arg. now rewrite Ht, Hl. }
  rewrite Ha. destruct (create_PDB_procedure_arg SFArgType_value st a2); [|reflexivity].
  cbn [mbind option_bind]. now apply IH.
Qed.

(** The procedure of a script does not change with the values of its
    arguments: it is the same after a reset and after the standard arguments
    were collected. *)
Theorem create_PDB_procedure_stable script reset_ids values plug_in_type :
  script_fu_script_create_PDB_procedure SFArgType_value
    (script_fu_script_reset script reset_ids) plug_in_type
  = script_fu_script_create_PDB_procedure SFArgType_value script plug_in_type
  /\ script_fu_script_create_PDB_procedure SFArgType_value
       (snd (script_fu_script_collect_standard_args values script)) plug_in_type
     = script_fu_script_create_PDB_procedure SFArgType_value script plug_in_type.
Proof.
  split.
  - unfold script_fu_script_create_PDB_procedure, script_fu_script_reset.
    change (create_PDB_procedure_head (set_args ?l script) plug_in_type)
      with (create_PDB_procedure_head script plug_in_type).
    cbn [args set_args]. f_equal. apply create_PDB_procedure_loop_reads.
    rewrite map_map. apply map_ext. intros arg.
    now rewrite reset_arg_type, reset_arg_label.
  - rewrite collect_standard_args_eq. cbn [snd].
    unfold script_fu_script_create_PDB_procedure, write_ids.
    change (create_PDB_procedure_head (set_args ?l script) plug_in_type)
      with (create_PDB_procedure_head script plug_in_type).
    cbn [args set_args]. f_equal. apply create_PDB_procedure_loop_reads.
    apply list_eq. intros i. rewrite !list_lookup_fmap, list_lookup_imap.
    destruct (args script !! i) as [arg|]; [|reflexivity]. simpl.
    destruct (i <? _)%nat; [|reflexivity].
    unfold write_id. destruct (values !! (i + 1)%nat); reflexivity.
Qed.

(** *** The names of the parameters, inside the array *)

Hypothesis SFArgType_value_inj : forall t1 t2,
  SFArgType_value t1 = SFArgType_value t2 -> t1 = t2.

Lemma occurrences_snoc type pre arg :
  occurrences type (pre ++ [arg])
  = (occurrences type pre + if decide (arg_type arg = type) then 1 else 0)%nat.
Proof.
  unfold occurrences. rewrite filter_app, length_app. f_equal.
  rewrite filter_cons, filter_nil. destruct (decide (arg_type arg = type)); reflexivity.
Qed.

Lemma create_PDB_procedure_arg_counted pre procedure arg_count arg l :
  counted SFArgType_value pre arg_count ->
  arg_count_in_bounds SFArgType_value arg ->
  exists arg_count',
    create_PDB_procedure_arg SFArgType_value (procedure, arg_count) arg
    = Some (gimp_procedure_add_argument procedure
              (script_pspec (pre ++ arg :: l) (length pre) arg), arg_count')
    /\ counted SFArgType_value (pre ++ [arg]) arg_count'.
Proof.
  intros [Hlen Hcnt] Hin. unfold create_PDB_procedure_arg.
  rewrite (Hcnt _ Hin). cbn [mbind option_bind].
  destruct (param_name (arg_type arg)) as [nm nick] eqn:En.
  eexists. split.
  - unfold script_pspec, numbered. rewrite take_app_length, En. cbn [fst snd].
    destruct (Z.of_nat (occurrences (arg_type arg) pre) =? 0)%Z; reflexivity.
  - split; [now rewrite length_insert|].
    intros type Htype. rewrite occurrences_snoc.
    destruct (decide (arg_type arg = type)) as [<-|Hne].
    + rewrite list_lookup_insert_eq by (rewrite Hlen; exact Hin). f_equal. lia.
    + rewrite list_lookup_insert_ne
        by (intros H; apply Hne, SFArgType_value_inj, H).
      rewrite (Hcnt _ Htype). f_equal. lia.
Qed.

Lemma create_PDB_procedure_loop_counted l pre procedure arg_count :
  counted SFArgType_value pre arg_count ->
  Forall (arg_count_in_bounds SFArgType_value) l ->
  exists procedure' arg_count',
    create_PDB_procedure_loop SFArgType_value l (procedure, arg_count)
    = Some (procedure', arg_count')
    /\ proc_arguments procedure'
       = proc_arguments procedure
         ++ imap (fun i arg => script_pspec (pre ++ l) (length pre + i) arg) l.
Proof.
  revert pre procedure arg_count.
  induction l as [|arg l IH]; intros pre procedure arg_count Hc Hall;
    cbn [create_PDB_procedure_loop].
  - eexists _, _. split; [reflexivity|]. simpl. now rewrite app_nil_r.
  - inversion Hall as [|? ? Harg Hl]; subst.
    destruct (create_PDB_procedure_arg_counted pre procedure arg_count arg l Hc Harg)
      as (c1 & -> & Hc1).
    cbn [mbind option_bind].
    destruct (IH (pre ++ [arg])
                (gimp_procedure_add_argument procedure
                   (script_pspec (pre ++ arg :: l) (length pre) arg)) c1 Hc1 Hl)
      as (p2 & c2 & -> & Hargs).
    eexists _, _. split; [reflexivity|].
    rewrite Hargs. cbn [gimp_procedure_add_argument proc_arguments imap].
    rewrite <- app_assoc. cbn [app]. rewrite Nat.add_0_r. do 2 f_equal.
    apply imap_ext. intros i x _. cbn.
    rewrite <- app_assoc, length_app. cbn [app length]. f_equal. lia.
Qed.

(** The first argument of a type has the bare name and nickname. *)
Lemma numbered_first type :
  numbered (fst (param_name type)) "-" 0 = fst (param_name type)
  /\ numbered (snd (param_name type)) " " 0 = snd (param_name type).
Proof. destruct type; split; reflexivity. Qed.

(** The names of the parameters of a script whose argument types are all
    numbered below [SF_DISPLAY], the enumerators having distinct values:
    after the run mode, the parameter of every argument has the name and
    nickname of its type, bare for the first argument of the type, and
    followed by [-k] and [ k] for the k-th one (k >= 2), as far as the buffer
    of 64 bytes holds them. *)
Theorem param_names_numbered script plug_in_type :
  Forall (arg_count_in_bounds SFArgType_value) (args script) ->
  exists procedure,
    script_fu_script_create_PDB_procedure SFArgType_value script plug_in_type
    = Some procedure
    /\ proc_arguments procedure
       = proc_arguments (create_PDB_procedure_head script plug_in_type)
         ++ imap (script_pspec (args script)) (args script)
    /\ forall i arg,
         args script !! i = Some arg ->
         let k := occurrences (arg_type arg) (take i (args script)) in
         let pspec := script_pspec (args script) i arg in
         (k = 0%nat ->
          pspec_name pspec = fst (param_name (arg_type arg))
          /\ pspec_nick pspec = snd (param_name (arg_type arg)))
         /\ (k <> 0%nat ->
             pspec_name pspec
             = g_snprintf 64 (fst (param_name (arg_type arg)) +:+ "-"
                              +:+ printf_d (Z.of_nat (S k)))
             /\ pspec_nick pspec
                = g_snprintf 64 (snd (param_name (arg_type arg)) +:+ " "
                                 +:+ printf_d (Z.of_nat (S k)))).
Proof.
  intros Hall. unfold script_fu_script_create_PDB_procedure.
  destruct (create_PDB_procedure_loop_counted (args script) []
              (create_PDB_procedure_head script plug_in_type)
              (replicate (SFArgType_value SF_DISPLAY) 0%Z))
    as (p & c & -> & Hargs); [|exact Hall|].
  - split; [apply length_replicate|].
    intros type Htype. now apply lookup_replicate_2.
  - exists p. split; [reflexivity|]. split; [exact Hargs|].
    intros i arg Hi. unfold script_pspec; cbn [pspec_name pspec_nick].
    set (k := occurrences (arg_type arg) (take i (args script))). split.
    + intros ->. apply numbered_first.
    + intros Hk. unfold numbered.
      replace (Z.of_nat k =? 0)%Z with false by (symmetry; apply Z.eqb_neq; lia).
      replace (Z.of_nat k + 1)%Z with (Z.of_nat (S k)) by lia. split; reflexivity.
Qed.

(** *** The names are whole and distinct *)

Lemma occurrences_app type l1 l2 :
  occurrences type (l1 ++ l2) = (occurrences type l1 + occurrences type l2)%nat.
Proof. unfold occurrences. now rewrite filter_app, length_app. Qed.

(** An argument counts among the arguments of its type before every later
    position. *)
Lemma occurrences_take_lt l i j arg :
  (i < j)%nat -> l !! i = Some arg ->
  (occurrences (arg_type arg) (take i l) < occurrences (arg_type arg) (take j l))%nat.
Proof.
  intros Hij Hi.
  assert (Hj : take j l = take i l ++ arg :: drop (S i) (take j l)).
  { rewrite <- (take_drop (S i) (take j l)) at 1.
    rewrite take_take, Nat.min_l by lia.
    rewrite (take_S_r l i arg Hi), <- app_assoc. reflexivity. }
  rewrite Hj, occurrences_app. unfold occurrences at 3.
  rewrite filter_cons. destruct (decide (arg_type arg = arg_type arg)); [|congruence].
  simpl. lia.
Qed.

Lemma param_name_no_dash type : has_char "-" (fst (param_name type)) = false.
Proof. destruct type; reflexivity. Qed.

Lemma param_name_inj type1 type2 :
  fst (param_name type1) = fst (param_name type2) -> type1 = type2.
Proof. destruct type1, type2; intros H; try reflexivity; discriminate H. Qed.

Lemma param_name_length type :
  (String.length (fst (param_name type)) <= 10)%nat
  /\ (String.length (snd (param_name type)) <= 10)%nat.
Proof. destruct type; simpl; lia. Qed.

(** The buffer of 64 bytes holds the numbered name whole. *)
Lemma numbered_fits text sep count :
  (String.length text <= 10)%nat -> String.length sep = 1%nat ->
  (0 <= count < 2 ^ 31 - 1)%Z ->
  numbered text sep count
  = if (count =? 0)%Z then text else text +:+ sep +:+ printf_d (count + 1).
Proof.
  intros Ht Hs Hc. unfold numbered, g_strlcpy, g_snprintf.
  destruct (count =? 0)%Z; apply string_take_all.
  - simpl. lia.
  - rewrite !string_app_length, Hs.
    pose proof (printf_d_length (count + 1)) as Hd. simpl. lia.
Qed.

Lemma numbered_name_before type count :
  (0 <= count < 2 ^ 31 - 1)%Z ->
  before_char "-" (numbered (fst (param_name type)) "-" count) = fst (param_name type).
Proof.
  intros Hc. rewrite numbered_fits by (try apply param_name_length; auto).
  destruct (count =? 0)%Z.
  - apply before_char_none, param_name_no_dash.
  - apply before_char_app, param_name_no_dash.
Qed.

(** The name tells the type and the count. *)
Lemma numbered_name_inj type1 type2 count1 count2 :
  (0 <= count1 < 2 ^ 31 - 1)%Z -> (0 <= count2 < 2 ^ 31 - 1)%Z ->
  numbered (fst (param_name type1)) "-" count1
  = numbered (fst (param_name type2)) "-" count2 ->
  type1 = type2 /\ count1 = count2.
Proof.
  intros H1 H2 H.
  assert (Ht : type1 = type2).
  { apply param_name_inj.
    rewrite <- (numbered_name_before type1 count1 H1), H.
    now apply numbered_name_before. }
  subst type2. split; [reflexivity|].
  rewrite !numbered_fits in H by (try apply param_name_length; auto).
  destruct (count1 =? 0)%Z eqn:E1, (count2 =? 0)%Z eqn:E2.
  - apply Z.eqb_eq in E1, E2. congruence.
  - exfalso. apply (f_equal String.length) in H.
    rewrite !string_app_length in H. simpl in H. lia.
  - exfalso. apply (f_equal String.length) in H.
    rewrite !string_app_length in H. simpl in H. lia.
  - apply string_app_inv_l in H. simpl in H. injection H as H.
    apply printf_d_inj in H. lia.
Qed.

Lemma run_mode_not_numbered type count :
  (0 <= count < 2 ^ 31 - 1)%Z ->
  numbered (fst (param_name type)) "-" count <> "run-mode".
Proof.
  intros Hc H. apply (f_equal (before_char "-")) in H.
  rewrite numbered_name_before in H by assumption.
  destruct type; discriminate H.
Qed.

Lemma create_PDB_procedure_arguments script plug_in_type :
  Forall (arg_count_in_bounds SFArgType_value) (args script) ->
  exists procedure,
    script_fu_script_create_PDB_procedure SFArgType_value script plug_in_type
    = Some procedure
    /\ proc_arguments procedure
       = proc_arguments (create_PDB_procedure_head script plug_in_type)
         ++ imap (script_pspec (args script)) (args script).
Proof.
  intros Hall. unfold script_fu_script_create_PDB_procedure.
  destruct (create_PDB_procedure_loop_counted
              (args script) [] (create_PDB_procedure_head script plug_in_type)
              (replicate (SFArgType_value SF_DISPLAY) 0%Z))
    as (p & c & -> & Hargs); [|exact Hall|].
  - split; [apply length_replicate|].
    intros type Htype. now apply lookup_replicate_2.
  - exists p. split; [reflexivity|]. exact Hargs.
Qed.

Lemma occurrences_take_range script type i :
  (Z.of_nat (n_args script) < 2 ^ 31)%Z -> (i < n_args script)%nat ->
  (0 <= Z.of_nat (occurrences type (take i (args script))) < 2 ^ 31 - 1)%Z.
Proof.
  intros Hn Hi. unfold n_args in *.
  assert (occurrences type (take i (args script)) <= i)%nat.
  { unfold occurrences. etransitivity; [apply length_filter|].
    rewrite length_take. lia. }
  lia.
Qed.

(** The buffers of 64 bytes are large enough: for a script with fewer than
    2^31 arguments (the count is a [gint]) whose types index [arg_count]
    inside the array, no name and no nickname is cut; the parameter at
    position [i + 1] is named after the type of the argument [i], with the
    number of the argument among those of its type when it is not the first
    one. *)
Theorem param_names_fit script plug_in_type :
  Forall (arg_count_in_bounds SFArgType_value) (args script) ->
  (Z.of_nat (n_args script) < 2 ^ 31)%Z ->
  exists procedure,
    script_fu_script_create_PDB_procedure SFArgType_value script plug_in_type
    = Some procedure
    /\ forall i arg,
         args script !! i = Some arg ->
         exists pspec,
           proc_arguments procedure !! S i = Some pspec
           /\ let k := occurrences (arg_type arg) (take i (args script)) in
              pspec_name pspec
              = (if decide (k = 0%nat) then fst (param_name (arg_type arg))
                 else fst (param_name (arg_type arg)) +:+ "-"
                      +:+ printf_d (Z.of_nat (S k)))
              /\ pspec_nick pspec
                 = (if decide (k = 0%nat) then snd (param_name (arg_type arg))
                    else snd (param_name (arg_type arg)) +:+ " "
                         +:+ printf_d (Z.of_nat (S k))).
Proof.
  intros Hall Hn.
  destruct (create_PDB_procedure_arguments script plug_in_type Hall)
    as (procedure & Hp & Hargs).
  exists procedure. split; [exact Hp|].
  intros i arg Hi. exists (script_pspec (args script) i arg). split.
  - rewrite Hargs. cbn [create_PDB_procedure_head proc_arguments app].
    change (imap (script_pspec (args script)) (args script) !! i
            = Some (script_pspec (args script) i arg)).
    rewrite list_lookup_imap, Hi. reflexivity.
  - cbv zeta. unfold script_pspec; cbn [pspec_name pspec_nick].
    pose proof (occurrences_take_range script (arg_type arg) i Hn
                  (lookup_lt_Some _ _ _ Hi)) as Hk.
    rewrite !numbered_fits by (try apply param_name_length; auto).
    set (k := occurrences (arg_type arg) (take i (args script))) in *.
    replace (Z.of_nat k + 1)%Z with (Z.of_nat (S k)) by lia.
    destruct (decide (k = 0%nat)) as [->|Hne]; [split; reflexivity|].
    replace (Z.of_nat k =? 0)%Z with false by (symmetry; apply Z.eqb_neq; lia).
    split; reflexivity.
Qed.

(** The names of the parameters of the procedure are pairwise distinct, the
    run mode included, for a script with fewer than 2^31 arguments whose
    types index [arg_count] inside the array. *)
Theorem param_names_unique script plug_in_type :
  Forall (arg_count_in_bounds SFArgType_value) (args script) ->
  (Z.of_nat (n_args script) < 2 ^ 31)%Z ->
  exists procedure,
    script_fu_script_create_PDB_procedure SFArgType_value script plug_in_type
    = Some procedure
    /\ NoDup (map pspec_name (proc_arguments procedure)).
Proof.
  intros Hall Hn.
  destruct (create_PDB_procedure_arguments script plug_in_type Hall)
    as (procedure & Hp & Hargs).
  exists procedure. split; [exact Hp|].
  rewrite Hargs. cbn [create_PDB_procedure_head proc_arguments app map pspec_name].
  assert (Hname : forall i x,
            map pspec_name (imap (script_pspec (args script)) (args script)) !! i = Some x ->
            exists arg, args script !! i = Some arg
              /\ x = numbered (fst (param_name (arg_type arg))) "-"
                       (Z.of_nat (occurrences (arg_type arg) (take i (args script))))).
  { intros i x. rewrite list_lookup_fmap, list_lookup_imap.
    destruct (args script !! i) as [arg|]; [|discriminate].
    simpl. intros [= <-]. eauto. }
  apply NoDup_cons. split.
  - intros Hin. apply list_elem_of_lookup in Hin as [i Hi].
    apply Hname in Hi as (arg & Ha & Hx).
    symmetry in Hx. revert Hx. apply run_mode_not_numbered.
    apply occurrences_take_range; [exact Hn|]. eapply lookup_lt_Some; eauto.
  - apply NoDup_alt. intros i j x Hi Hj.
    apply Hname in Hi as (arg1 & Ha1 & Hx1). apply Hname in Hj as (arg2 & Ha2 & Hx2).
    rewrite Hx1 in Hx2.
    apply numbered_name_inj in Hx2 as [Ht Hc];
      try (apply occurrences_take_range; [exact Hn|]; eapply lookup_lt_Some; eauto).
    apply Nat2Z.inj in Hc.
    destruct (Nat.lt_trichotomy i j) as [Hlt|[Heq|Hgt]]; [|exact Heq|].
    + pose proof (occurrences_take_lt _ _ _ _ Hlt Ha1) as H. rewrite Ht in *. lia.
    + pose proof (occurrences_take_lt _ _ _ _ Hgt Ha2) as H. rewrite <- Ht in *. lia.
Qed.

End Procedure.

(** ** Characters of a string *)

Lemma string_forall_app P (s t : string) :
  string_forall P (s +:+ t) = string_forall P s && string_forall P t.
Proof. induction s as [|c s IH]; simpl; [reflexivity|]. now rewrite IH, andb_assoc. Qed.

Lemma string_forall_take P n s :
  string_forall P s = true -> string_forall P (string_take n s) = true.
Proof.
  revert s; induction n as [|n IH]; intros [|c s]; simpl; try reflexivity.
  intros H. apply andb_true_iff in H as [H1 H2]. now rewrite H1, IH.
Qed.

Lemma string_forall_drop P n s :
  string_forall P s = true -> string_forall P (string_drop n s) = true.
Proof.
  revert s; induction n as [|n IH]; intros [|c s]; simpl; try reflexivity; auto.
  intros H. apply andb_true_iff in H as [H1 H2]. now apply IH.
Qed.

Lemma string_forall_strip_zeros P s :
  string_forall P s = true -> string_forall P (strip_zeros s) = true.
Proof.
  induction s as [|c s IH]; simpl; [reflexivity|].
  intros H. apply andb_true_iff in H as [H1 H2]. specialize (IH H2).
  destruct (strip_zeros s).
  - destruct (Ascii.eqb c "0"); simpl; [reflexivity|]. now rewrite H1.
  - simpl in *. now rewrite H1, IH.
Qed.

Lemma string_forall_zeros P n : P "0"%char = true -> string_forall P (zeros n) = true.
Proof. intros H. induction n; simpl; [reflexivity|]. now rewrite H. Qed.

Lemma string_forall_impl (P Q : ascii -> bool) s :
  (forall c, P c = true -> Q c = true) ->
  string_forall P s = true -> string_forall Q s = true.
Proof.
  intros HPQ. induction s as [|c s IH]; simpl; [reflexivity|].
  intros H. apply andb_true_iff in H as [H1 H2]. now rewrite (HPQ _ H1), IH.
Qed.

(** ** The characters of numbers *)

Lemma number_char_atom c : number_char c = true -> atom_char c = true.
Proof.
  destruct c as [[] [] [] [] [] [] [] []]; vm_compute; congruence.
Qed.

Lemma string_of_uint_chars u : string_forall number_char (NilEmpty.string_of_uint u) = true.
Proof. induction u; simpl; auto. Qed.

Lemma printf_d_chars i : string_forall number_char (printf_d i) = true.
Proof.
  unfold printf_d. destruct (Z.to_int i) as [u|u]; simpl.
  - destruct u; try reflexivity; apply (string_of_uint_chars (_ u)).
  - destruct u; try reflexivity; apply (string_of_uint_chars (_ u)).
Qed.

Lemma printf_d_nonempty i : printf_d i <> "".
Proof.
  unfold printf_d. destruct (Z.to_int i) as [u|u]; simpl; [|discriminate].
  destruct u; discriminate.
Qed.

Lemma point_fraction_chars frac :
  string_forall number_char frac = true ->
  string_forall number_char (point_fraction frac) = true.
Proof. destruct frac; [reflexivity|]. intros H. simpl in *. exact H. Qed.

Lemma printf_exponent_chars X : string_forall number_char (printf_exponent X) = true.
Proof.
  unfold printf_exponent. rewrite !string_forall_app, printf_d_chars.
  destruct (X <? 0)%Z, (Z.abs X <? 10)%Z; reflexivity.
Qed.

Lemma printf_g_finite_chars P m e :
  string_forall number_char (printf_g_finite P m e) = true.
Proof.
  unfold printf_g_finite.
  destruct (if (_ =? _)%Z then _ else _) as [D X].
  pose proof (printf_d_chars D) as HD.
  destruct (_ || _); [|destruct (0 <=? X)%Z].
  - rewrite !string_forall_app, printf_exponent_chars.
    rewrite string_forall_take, point_fraction_chars; auto.
    apply string_forall_strip_zeros, string_forall_drop, HD.
  - rewrite !string_forall_app.
    rewrite string_forall_take, point_fraction_chars; auto.
    apply string_forall_strip_zeros, string_forall_drop, HD.
  - rewrite !string_forall_app, point_fraction_chars; [reflexivity|].
    apply string_forall_strip_zeros. rewrite string_forall_app, HD.
    now rewrite string_forall_zeros.
Qed.

Lemma printf_g_finite_nonempty P m e : printf_g_finite P m e <> "".
Proof.
  unfold printf_g_finite.
  destruct (if (_ =? _)%Z then _ else _) as [D X].
  destruct (_ || _); [|destruct (0 <=? X)%Z].
  - apply string_app_nonempty_l, (string_take_nonempty 0), printf_d_nonempty.
  - apply string_app_nonempty_l, string_take_nonempty, printf_d_nonempty.
  - discriminate.
Qed.

Lemma g_ascii_dtostr_chars d : string_forall number_char (g_ascii_dtostr d) = true.
Proof.
  unfold g_ascii_dtostr, printf_g. destruct d as [[]|[]| |[] m e]; try reflexivity;
    rewrite string_forall_app, printf_g_finite_chars; reflexivity.
Qed.

Lemma g_ascii_dtostr_nonempty d : g_ascii_dtostr d <> "".
Proof.
  unfold g_ascii_dtostr, printf_g. destruct d as [[]|[]| |[] m e]; try discriminate.
  simpl. apply printf_g_finite_nonempty.
Qed.

(** ** The reader on the texts of the arguments *)

Lemma read_chars_app r (s t : string) :
  read_chars r (s +:+ t)
  = match read_chars r s with Some r' => read_chars r' t | None => None end.
Proof.
  revert r; induction s as [|c s IH]; intros r; simpl; [reflexivity|].
  destruct (read_char r c); [apply IH|reflexivity].
Qed.

(** The count plays no part in what the reader does. *)
Lemma datum_begins_add_count k r :
  datum_begins (add_count k r) = (datum_begins r + k)%nat.
Proof. unfold datum_begins; simpl. destruct (_ && _); lia. Qed.

Lemma read_char_add_count k r c :
  read_char (add_count k r) c = add_count k <$> read_char r c.
Proof.
  unfold read_char. cbn [depth mode quoted add_count].
  destruct (depth r) as [|d]; [reflexivity|].
  destruct (mode r) eqn:Em;
    repeat match goal with
      | |- context [if ?b then _ else _] => destruct b
      end;
    cbn [fmap option_fmap option_map]; unfold set_mode, add_count; simpl;
    rewrite ?Em, ?datum_begins_add_count; try reflexivity;
    f_equal; f_equal; unfold datum_begins; simpl;
    destruct ((depth r =? 1)%nat && negb (quoted r)); lia.
Qed.

Lemma read_chars_add_count k r s :
  read_chars (add_count k r) s = add_count k <$> read_chars r s.
Proof.
  revert r; induction s as [|c s IH]; intros r; simpl; [reflexivity|].
  rewrite read_char_add_count. destruct (read_char r c); simpl; [apply IH|reflexivity].
Qed.

(** A single datum read at the top level after [n] tokens. *)
Lemma single_datum_read t n :
  single_datum t = true ->
  exists m, read_chars (top_level n) t
            = Some {| depth := 1; mode := m; quoted := false; count := S n |}
            /\ (m = Gap \/ m = Atom).
Proof.
  unfold single_datum. intros H.
  change (top_level n) with (add_count n (top_level 0)).
  rewrite read_chars_add_count.
  destruct (read_chars (top_level 0) t) as [[d m q c]|]; [|discriminate].
  simpl in *.
  apply andb_true_iff in H as [H Hm]. apply andb_true_iff in H as [H Hq].
  apply andb_true_iff in H as [Hd Hc].
  apply Nat.eqb_eq in Hd, Hc. apply negb_true_iff in Hq. subst.
  exists m. split.
  - reflexivity.
  - destruct m; auto; discriminate.
Qed.

Lemma atom_char_inv c :
  atom_char c = true ->
  is_space c = false /\ Ascii.eqb c "(" = false /\ Ascii.eqb c ")" = false
  /\ Ascii.eqb c dquote = false /\ Ascii.eqb c ";" = false /\ is_quote_mark c = false.
Proof.
  unfold atom_char. intros H. apply negb_true_iff in H.
  destruct (is_space c), (Ascii.eqb c "("), (Ascii.eqb c ")"), (Ascii.eqb c dquote),
    (Ascii.eqb c ";"), (is_quote_mark c); simpl in H; try discriminate;
    repeat split.
Qed.

(** An atom: a run of atom characters, read from a gap. *)
Lemma read_atom_rest r s :
  mode r = Atom -> depth r <> 0%nat -> string_forall atom_char s = true ->
  read_chars r s = Some r.
Proof.
  intros Hm Hd. induction s as [|c s IH]; [reflexivity|].
  cbn [string_forall read_chars].
  intros H. apply andb_true_iff in H as [Hc Hs].
  unfold read_char. destruct (depth r) as [|d]; [congruence|]. rewrite Hm.
  destruct (atom_char_inv c Hc) as (-> & -> & -> & -> & -> & _).
  now apply IH.
Qed.

Lemma read_atom d q n s :
  s <> "" -> string_forall atom_char s = true ->
  read_chars {| depth := S d; mode := Gap; quoted := q; count := n |} s
  = Some {| depth := S d; mode := Atom; quoted := false;
            count := datum_begins {| depth := S d; mode := Gap; quoted := q; count := n |} |}.
Proof.
  destruct s as [|c s]; [congruence|]. intros _ H. simpl in H.
  apply andb_true_iff in H as [Hc Hs].
  cbn [read_chars]. unfold read_char. cbn [depth mode quoted count].
  destruct (atom_char_inv c Hc) as (-> & -> & -> & -> & -> & ->).
  apply read_atom_rest; auto.
Qed.

Lemma read_number d q n s :
  s <> "" -> string_forall number_char s = true ->
  read_chars {| depth := S d; mode := Gap; quoted := q; count := n |} s
  = Some {| depth := S d; mode := Atom; quoted := false;
            count := datum_begins {| depth := S d; mode := Gap; quoted := q; count := n |} |}.
Proof.
  intros Hne H. apply read_atom; [assumption|].
  eapply string_forall_impl; [apply number_char_atom|assumption].
Qed.

(** Inside a string. *)
Lemma read_strescape r s :
  mode r = Str -> depth r <> 0%nat ->
  read_chars r (script_fu_strescape s) = Some r.
Proof.
  intros Hm Hd. induction s as [|c s IH]; simpl; [reflexivity|].
  assert (Hr : set_mode Str (set_mode StrEsc r) = r) by (destruct r; simpl in *; now subst).
  destruct (depth r) as [|d] eqn:Ed; [congruence|].
  destruct (Ascii.eqb c backslash || Ascii.eqb c dquote) eqn:E.
  - cbn [read_chars]. unfold read_char at 1. rewrite Ed, Hm, Ascii.eqb_refl.
    unfold read_char at 1. cbn [depth mode set_mode]. rewrite Ed.
    fold (set_mode StrEsc r). rewrite Hr. exact IH.
  - apply orb_false_iff in E as [E1 E2].
    cbn [read_chars]. unfold read_char at 1. rewrite Ed, Hm, E1, E2. exact IH.
Qed.

Lemma read_plain_name r s :
  mode r = Str -> depth r <> 0%nat -> plain_name s = true ->
  read_chars r s = Some r.
Proof.
  intros Hm Hd. unfold plain_name. induction s as [|c s IH]; simpl; [reflexivity|].
  intros H. apply andb_true_iff in H as [H1 H2].
  apply negb_true_iff, orb_false_iff in H1 as [H1 H1'].
  apply negb_true_iff, orb_false_iff in H2 as [H2 H2'].
  unfold read_char. destruct (depth r) as [|d] eqn:Ed; [congruence|].
  rewrite Hm, H2, H1. apply IH. now rewrite H1', H2'.
Qed.

(** A string between double quotes, when its inside leaves the reader in
    the string. *)
Lemma read_quoted d m q n body :
  (m = Gap \/ m = Atom) ->
  (forall r, mode r = Str -> depth r <> 0%nat -> read_chars r body = Some r) ->
  read_chars {| depth := S d; mode := m; quoted := q; count := n |} (dq +:+ body +:+ dq)
  = Some {| depth := S d; mode := Gap; quoted := false;
            count := datum_begins {| depth := S d; mode := m; quoted := q; count := n |} |}.
Proof.
  intros Hm Hbody. unfold dq.
  change (String dquote "" +:+ body +:+ String dquote "")
    with (String dquote (body +:+ String dquote "")).
  cbn [read_chars].
  assert (H1 : read_char {| depth := S d; mode := m; quoted := q; count := n |} dquote
               = Some {| depth := S d; mode := Str; quoted := false;
                         count := datum_begins
                                    {| depth := S d; mode := m; quoted := q; count := n |} |}).
  { destruct Hm as [-> | ->]; reflexivity. }
  rewrite H1, read_chars_app, Hbody by (simpl; congruence).
  reflexivity.
Qed.

Lemma number_single_datum s :
  s <> "" -> string_forall number_char s = true -> single_datum s = true.
Proof.
  intros Hne Hs. unfold single_datum, top_level. now rewrite read_number.
Qed.

Lemma quoted_single_datum body :
  (forall r, mode r = Str -> depth r <> 0%nat -> read_chars r body = Some r) ->
  single_datum (dq +:+ body +:+ dq) = true.
Proof.
  intros Hbody. unfold single_datum, top_level. now rewrite read_quoted; auto.
Qed.

(** A blank after a token. *)
Lemma read_blank d m n s :
  (m = Gap \/ m = Atom) ->
  read_chars {| depth := S d; mode := m; quoted := false; count := n |} (String " " s)
  = read_chars {| depth := S d; mode := Gap; quoted := false; count := n |} s.
Proof. intros [-> | ->]; reflexivity. Qed.

(** The closing parenthesis of a list. *)
Lemma read_close d m n s :
  (m = Gap \/ m = Atom) ->
  read_chars {| depth := S d; mode := m; quoted := false; count := n |} (String ")" s)
  = read_chars {| depth := d; mode := Gap; quoted := false; count := n |} s.
Proof. intros [-> | ->]; reflexivity. Qed.

(** Two atoms, each followed by a character that ends an atom, are equal when
    the texts are. *)
Lemma atom_app_inj t1 t2 c1 c2 r1 r2 :
  string_forall atom_char t1 = true -> string_forall atom_char t2 = true ->
  atom_char c1 = false -> atom_char c2 = false ->
  t1 +:+ String c1 r1 = t2 +:+ String c2 r2 ->
  t1 = t2 /\ String c1 r1 = String c2 r2.
Proof.
  revert t2. induction t1 as [|a1 t1 IH]; intros [|a2 t2] H1 H2 Hc1 Hc2; simpl.
  - auto.
  - intros [= -> _]. simpl in H2. rewrite Hc1 in H2. discriminate.
  - intros [= -> _]. simpl in H1. rewrite Hc2 in H1. discriminate.
  - intros [= -> H]. simpl in H1, H2.
    apply andb_true_iff in H1 as [_ H1]. apply andb_true_iff in H2 as [_ H2].
    destruct (IH t2 H1 H2 Hc1 Hc2 H) as [-> H']. auto.
Qed.

Section Tokens.
Context {GimpRGB : Type}.
Variable gimp_rgb_get_uchar : GimpRGB -> Byte.byte * Byte.byte * Byte.byte.
Implicit Types (script : @SFScript GimpRGB) (arg : @SFArg GimpRGB)
  (l : list (@SFArg GimpRGB)) (values : @GimpValueArray GimpRGB).

#[local] Abbreviation token := (arg_token gimp_rgb_get_uchar).
#[local] Abbreviation tokens := (command_tokens gimp_rgb_get_uchar).


Lemma get_command_arg_eq s arg :
  get_command_arg gimp_rgb_get_uchar s arg = s +:+ " " +:+ token arg.
Proof.
  unfold arg_token, get_command_arg, g_string_append, g_string_append_c.
  destruct (arg_type arg); try destruct (gimp_rgb_get_uchar _) as [[r g] b];
    rewrite string_app_assoc; reflexivity.
Qed.

Lemma fold_get_command_arg l s :
  fold_left (get_command_arg gimp_rgb_get_uchar) l s = s +:+ tokens l.
Proof.
  revert s; induction l as [|arg l IH]; intros s; simpl.
  - now rewrite string_app_nil_r.
  - rewrite IH, get_command_arg_eq. now rewrite !string_app_assoc.
Qed.

(** The command of a script: the name, then one text per declared argument. *)
Lemma get_command_eq script :
  script_fu_script_get_command gimp_rgb_get_uchar script
  = "(" +:+ name script +:+ tokens (args script) +:+ ")".
Proof.
  unfold script_fu_script_get_command, g_string_new, g_string_append, g_string_append_c.
  rewrite fold_get_command_arg. now rewrite !string_app_assoc.
Qed.

Lemma color_single_datum (r g b : Byte.byte) :
  single_datum ("'(" +:+ printf_uchar r +:+ " " +:+ printf_uchar g +:+ " "
                +:+ printf_uchar b +:+ ")") = true.
Proof.
  unfold single_datum, printf_uchar.
  change (read_chars (top_level 0) ("'(" +:+ ?s))
    with (read_chars {| depth := 2; mode := Gap; quoted := false; count := 1 |} s).
  rewrite read_chars_app, read_number by auto using printf_d_nonempty, printf_d_chars.
  change (" " +:+ ?s) with (String " " s). rewrite read_blank by auto.
  rewrite read_chars_app, read_number by auto using printf_d_nonempty, printf_d_chars.
  change (" " +:+ ?s) with (String " " s). rewrite read_blank by auto.
  rewrite read_chars_app, read_number by auto using printf_d_nonempty, printf_d_chars.
  reflexivity.
Qed.

Lemma brush_single_datum (b : SFBrush) :
  plain_name (brush_name b) = true ->
  single_datum ("'(" +:+ dq +:+ brush_name b +:+ dq +:+ " "
                +:+ g_ascii_dtostr (opacity b) +:+ " "
                +:+ printf_d (spacing b) +:+ " "
                +:+ printf_d (paint_mode b) +:+ ")") = true.
Proof.
  intros Hname. unfold single_datum.
  change (read_chars (top_level 0) ("'(" +:+ ?s))
    with (read_chars {| depth := 2; mode := Gap; quoted := false; count := 1 |} s).
  rewrite <- !string_app_assoc.
  rewrite (string_app_assoc dq), (string_app_assoc dq).
  rewrite !string_app_assoc.
  replace (dq +:+ brush_name b +:+ dq +:+ " " +:+ g_ascii_dtostr (opacity b) +:+ " "
           +:+ printf_d (spacing b) +:+ " " +:+ printf_d (paint_mode b) +:+ ")")
    with ((dq +:+ brush_name b +:+ dq) +:+ " " +:+ g_ascii_dtostr (opacity b) +:+ " "
           +:+ printf_d (spacing b) +:+ " " +:+ printf_d (paint_mode b) +:+ ")")
    by now rewrite !string_app_assoc.
  rewrite read_chars_app, read_quoted; auto using read_plain_name.
  change (" " +:+ ?s) with (String " " s). rewrite read_blank by auto.
  rewrite read_chars_app, read_number
    by auto using g_ascii_dtostr_nonempty, g_ascii_dtostr_chars.
  change (" " +:+ ?s) with (String " " s). rewrite read_blank by auto.
  rewrite read_chars_app, read_number by auto using printf_d_nonempty, printf_d_chars.
  change (" " +:+ ?s) with (String " " s). rewrite read_blank by auto.
  rewrite read_chars_app, read_number by auto using printf_d_nonempty, printf_d_chars.
  reflexivity.
Qed.

Lemma arg_token_single_datum arg :
  arg_readable arg = true -> single_datum (token arg) = true.
Proof.
  unfold arg_readable, arg_token, get_command_arg, g_string_append, g_string_append_c.
  destruct (arg_type arg); intros Hr;
    try destruct (gimp_rgb_get_uchar _) as [[r g] b];
    cbn [String.append string_drop];
    try (apply number_single_datum;
         auto using printf_d_nonempty, printf_d_chars,
           g_ascii_dtostr_nonempty, g_ascii_dtostr_chars; fail);
    try (apply quoted_single_datum; intros; auto using read_strescape, read_plain_name; fail).
  - apply color_single_datum.
  - destruct (sfa_toggle (value arg)); reflexivity.
  - exact Hr.
  - now apply brush_single_datum.
Qed.

Lemma read_command_tokens l m n :
  (m = Gap \/ m = Atom) ->
  Forall (fun arg => arg_readable arg = true) l ->
  exists m',
    read_chars {| depth := 1; mode := m; quoted := false; count := n |} (tokens l)
    = Some {| depth := 1; mode := m'; quoted := false; count := n + length l |}
    /\ (m' = Gap \/ m' = Atom).
Proof.
  intros Hm Hall. revert m n Hm.
  induction Hall as [|arg l Harg Hall IH]; intros m n Hm.
  - exists m. simpl. rewrite Nat.add_0_r. auto.
  - cbn [command_tokens]. change (" " +:+ ?s) with (String " " s).
    rewrite read_blank by assumption.
    rewrite read_chars_app.
    destruct (single_datum_read _ n (arg_token_single_datum arg Harg)) as (m1 & H1 & Hm1).
    unfold top_level in H1. rewrite H1.
    destruct (IH m1 (S n) Hm1) as (m' & H' & Hm').
    exists m'. rewrite H'. split; [|assumption].
    do 2 f_equal. simpl. lia.
Qed.


(** The command of a script whose texts are readable is one expression of
    [1 + n_args] tokens. *)
Lemma read_command script :
  single_datum (name script) = true ->
  Forall (fun arg => arg_readable arg = true) (args script) ->
  read_call (script_fu_script_get_command gimp_rgb_get_uchar script)
  = Some (1 + n_args script)%nat.
Proof.
  intros Hname Hall. rewrite get_command_eq.
  change ("(" +:+ ?s) with (String "(" s). unfold read_call. rewrite Ascii.eqb_refl.
  rewrite read_chars_app.
  destruct (single_datum_read _ 0 Hname) as (m & -> & Hm).
  rewrite read_chars_app.
  destruct (read_command_tokens (args script) m 1 Hm Hall) as (m' & -> & Hm').
  change ")" with (String ")" ""). rewrite read_close by assumption.
  reflexivity.
Qed.

Lemma arg_readable_write_id values i arg :
  arg_readable (write_id values i arg) = arg_readable arg.
Proof. unfold write_id. destruct (values !! (i + 1)); reflexivity. Qed.

Lemma write_ids_readable values c script :
  Forall (fun arg => arg_readable arg = true) (args script) ->
  Forall (fun arg => arg_readable arg = true) (args (write_ids values c script)).
Proof.
  intros Hall. apply Forall_lookup. intros i arg'. rewrite write_ids_lookup.
  destruct (args script !! i) as [arg|] eqn:Ha; [|discriminate].
  simpl. intros [= <-]. rewrite Forall_lookup in Hall. specialize (Hall i arg Ha).
  destruct (i <? c)%nat; [now rewrite arg_readable_write_id|assumption].
Qed.

(** C5 (amended). The command of a script is an opening parenthesis, the
    name, then for every declared argument a space and its text, and a
    closing parenthesis.  When the name is a single datum, every raw value
    (SF_VALUE) is a single datum, and no name of a font, palette, pattern,
    gradient or brush has a double quote or a backslash, the command reads
    as one parenthesized expression of exactly [1 + n_args] top-level tokens;
    it does so after the standard arguments were collected too, however many
    of them were consumed. *)
Theorem get_command_tokens script :
  script_fu_script_get_command gimp_rgb_get_uchar script
  = "(" +:+ name script +:+ tokens (args script) +:+ ")"
  /\ (single_datum (name script) = true ->
      Forall (fun arg => arg_readable arg = true) (args script) ->
      read_call (script_fu_script_get_command gimp_rgb_get_uchar script)
      = Some (1 + n_args script)%nat
      /\ forall values,
           read_call
             (script_fu_script_get_command gimp_rgb_get_uchar
                (snd (script_fu_script_collect_standard_args values script)))
           = Some (1 + n_args script)%nat).
Proof.
  split; [apply get_command_eq|].
  intros Hname Hall. split; [now apply read_command|].
  intros values. rewrite collect_standard_args_eq. cbn [snd].
  set (c := leading_args_spec script values).
  rewrite read_command.
  - unfold n_args, write_ids; simpl. now rewrite length_imap.
  - unfold write_ids. destruct script; exact Hname.
  - now apply write_ids_readable.
Qed.

(** *** The text of a brush *)

Lemma command_tokens_app l1 l2 : tokens (l1 ++ l2) = tokens l1 +:+ tokens l2.
Proof.
  induction l1 as [|arg l1 IH]; simpl; [reflexivity|].
  now rewrite IH, !string_app_assoc.
Qed.

Lemma arg_token_brush arg :
  arg_type arg = SF_BRUSH -> token arg = brush_text (sfa_brush (value arg)).
Proof. unfold arg_token, get_command_arg. now intros ->. Qed.

Lemma get_command_from_params_arg_append s arg v :
  get_command_from_params_arg gimp_rgb_get_uchar s arg v
  = (fun t => s +:+ t) <$> get_command_from_params_arg gimp_rgb_get_uchar "" arg v.
Proof.
  unfold get_command_from_params_arg, g_string_append, g_string_append_c.
  destruct (arg_type arg), v; simpl; try reflexivity;
    try destruct (gimp_rgb_get_uchar _) as [[r g] b]; simpl;
    now rewrite !string_app_assoc.
Qed.

Lemma get_command_from_params_loop_append values i l s :
  get_command_from_params_loop gimp_rgb_get_uchar values i l s
  = (fun t => s +:+ t) <$> get_command_from_params_loop gimp_rgb_get_uchar values i l "".
Proof.
  revert i s. induction l as [|arg l IH]; intros i s; cbn [get_command_from_params_loop].
  - simpl. now rewrite string_app_nil_r.
  - destruct (gimp_value_array_index values (i + 1)) as [v|]; [|reflexivity]. simpl.
    rewrite get_command_from_params_arg_append.
    destruct (get_command_from_params_arg gimp_rgb_get_uchar "" arg v) as [t|];
      [|reflexivity].
    simpl. rewrite (IH (S i) (s +:+ t)), (IH (S i) t).
    destruct (get_command_from_params_loop gimp_rgb_get_uchar values (S i) l "");
      simpl; [|reflexivity].
    now rewrite string_app_assoc.
Qed.

Lemma get_command_from_params_loop_app values i l1 l2 s :
  get_command_from_params_loop gimp_rgb_get_uchar values i (l1 ++ l2) s
  = match get_command_from_params_loop gimp_rgb_get_uchar values i l1 s with
    | Some s' =>
        get_command_from_params_loop gimp_rgb_get_uchar values (i + length l1) l2 s'
    | None => None
    end.
Proof.
  revert i s. induction l1 as [|arg l1 IH]; intros i s.
  - simpl. now rewrite Nat.add_0_r.
  - cbn [app get_command_from_params_loop length].
    destruct (gimp_value_array_index values (i + 1)) as [v|]; [|reflexivity]. simpl.
    destruct (get_command_from_params_arg gimp_rgb_get_uchar s arg v) as [s'|];
      [|reflexivity].
    simpl. rewrite IH. now replace (S i + length l1)%nat with (i + S (length l1))%nat by lia.
Qed.

Lemma get_command_from_params_arg_brush s arg v :
  arg_type arg = SF_BRUSH ->
  get_command_from_params_arg gimp_rgb_get_uchar s arg v
  = match v with
    | GValue_string brush => Some (s +:+ " " +:+ dq +:+ brush +:+ dq)
    | _ => None
    end.
Proof.
  unfold get_command_from_params_arg, g_string_append, g_string_append_c.
  intros ->. destruct v; simpl; try reflexivity. now rewrite string_app_assoc.
Qed.

(** C6 (amended). In the command of a script, the text of a brush argument
    is [brush_text]: a quote mark and a list of the name between double
    quotes (as it is, not escaped), the opacity as [g_ascii_dtostr] writes
    it, and the spacing and the paint mode in decimal.  In the command made
    from the values of an invocation, the value of a brush argument is a
    string, and its text is that string between double quotes (as it is) and
    nothing else: the texts of the arguments before it, a space, the quoted
    string, and the texts of the arguments after it. *)
Theorem brush_command_text :
  (forall script pre arg post,
     args script = pre ++ arg :: post -> arg_type arg = SF_BRUSH ->
     script_fu_script_get_command gimp_rgb_get_uchar script
     = "(" +:+ name script +:+ tokens pre +:+ " "
       +:+ brush_text (sfa_brush (value arg)) +:+ tokens post +:+ ")")
  /\ (forall s arg brush,
        arg_type arg = SF_BRUSH ->
        get_command_from_params_arg gimp_rgb_get_uchar s arg (GValue_string brush)
        = Some (s +:+ " " +:+ dq +:+ brush +:+ dq))
  /\ (forall script values pre arg post text,
        args script = pre ++ arg :: post -> arg_type arg = SF_BRUSH ->
        script_fu_script_get_command_from_params gimp_rgb_get_uchar script values
        = Some text ->
        exists brush before after,
          values !! (length pre + 1)%nat = Some (GValue_string brush)
          /\ get_command_from_params_loop gimp_rgb_get_uchar values 0 pre ""
             = Some before
          /\ get_command_from_params_loop gimp_rgb_get_uchar values
               (S (length pre)) post "" = Some after
          /\ text = "(" +:+ name script +:+ before +:+ " " +:+ dq +:+ brush +:+ dq
                    +:+ after +:+ ")").
Proof.
  split; [|split].
  - intros script pre arg post Hargs Ht.
    rewrite get_command_eq, Hargs, command_tokens_app. cbn [command_tokens].
    rewrite (arg_token_brush arg Ht). now rewrite !string_app_assoc.
  - intros s arg brush Ht. now rewrite get_command_from_params_arg_brush.
  - intros script values pre arg post text Hargs Ht.
    unfold script_fu_script_get_command_from_params, g_string_new, g_string_append,
      g_string_append_c.
    rewrite Hargs, get_command_from_params_loop_app.
    rewrite get_command_from_params_loop_append.
    destruct (get_command_from_params_loop gimp_rgb_get_uchar values 0 pre "")
      as [before|]; [|discriminate].
    cbn [fmap option_fmap option_map get_command_from_params_loop].
    unfold gimp_value_array_index. cbn [Nat.add].
    destruct (values !! (length pre + 1)%nat) as [v|]; [|discriminate].
    cbn [mbind option_bind].
    rewrite (get_command_from_params_arg_brush _ arg v Ht).
    destruct v as [| | |brush| | |]; try discriminate.
    cbn [mbind option_bind]. rewrite get_command_from_params_loop_append.
    destruct (get_command_from_params_loop gimp_rgb_get_uchar values (S (length pre))
                post "") as [after|]; [|discriminate].
    cbn [fmap option_fmap option_map mbind option_bind]. intros [= <-].
    exists brush, before, after. repeat split.
    rewrite !string_app_assoc. simpl. now rewrite !string_app_assoc.
Qed.

(** C1 (amended). The command of a script named ["test-blur"] whose arguments
    are an adjustment of value 3.5, a toggle that is set and a string
    ["hello"] is [(test-blur 3.5 TRUE "hello")]: the adjustment is written by
    [g_ascii_dtostr], with a decimal point whatever the locale and without
    trailing zeros. *)
Theorem test_blur_command script a1 a2 a3 :
  name script = "test-blur" ->
  args script = [a1; a2; a3] ->
  arg_type a1 = SF_ADJUSTMENT -> adj_value (sfa_adjustment (value a1)) = gdouble_3_5 ->
  arg_type a2 = SF_TOGGLE -> sfa_toggle (value a2) = true ->
  arg_type a3 = SF_STRING -> sfa_value (value a3) = "hello" ->
  script_fu_script_get_command gimp_rgb_get_uchar script
  = "(test-blur 3.5 TRUE " +:+ dq +:+ "hello" +:+ dq +:+ ")".
Proof.
  intros Hname Hargs Ht1 Hv1 Ht2 Hv2 Ht3 Hv3.
  rewrite get_command_eq, Hname, Hargs.
  unfold command_tokens, arg_token, get_command_arg.
  rewrite Ht1, Hv1, Ht2, Hv2, Ht3, Hv3. reflexivity.
Qed.

(** *** The two commands *)

Lemma get_command_from_params_arg_carries s arg v :
  value_carries arg v ->
  get_command_from_params_arg gimp_rgb_get_uchar s arg v
  = Some (get_command_arg gimp_rgb_get_uchar s arg).
Proof.
  unfold value_carries, get_command_from_params_arg, get_command_arg.
  destruct (arg_type arg); intros H; try contradiction;
    try (destruct H as (t & o & -> & Hid); simpl; rewrite <- Hid; destruct o; reflexivity);
    subst v; simpl; try reflexivity.
  destruct (gimp_rgb_get_uchar _) as [[r g] b]. reflexivity.
Qed.

Lemma get_command_from_params_loop_carries values i l s :
  (forall k arg, l !! k = Some arg ->
     exists v, values !! (i + k + 1)%nat = Some v /\ value_carries arg v) ->
  get_command_from_params_loop gimp_rgb_get_uchar values i l s
  = Some (fold_left (get_command_arg gimp_rgb_get_uchar) l s).
Proof.
  revert i s. induction l as [|arg l IH]; intros i s H; [reflexivity|].
  cbn [get_command_from_params_loop fold_left].
  destruct (H 0%nat arg eq_refl) as (v & Hv & Hc).
  unfold gimp_value_array_index. rewrite Nat.add_0_r in Hv. rewrite Hv.
  cbn [mbind option_bind].
  rewrite (get_command_from_params_arg_carries _ _ _ Hc). cbn [mbind option_bind].
  apply IH. intros k arg' Hk.
  destruct (H (S k) arg' Hk) as (v' & Hv' & Hc').
  exists v'. split; [|exact Hc'].
  now replace (S i + k + 1)%nat with (i + S k + 1)%nat by lia.
Qed.

(** When every declared argument has its value in the invocation (after the
    run mode) and that value carries the current value of the argument, the
    command made from the invocation is the command of the script. *)
Theorem get_command_from_params_agrees script values :
  (forall k arg, args script !! k = Some arg ->
     exists v, values !! (k + 1)%nat = Some v /\ value_carries arg v) ->
  script_fu_script_get_command_from_params gimp_rgb_get_uchar script values
  = Some (script_fu_script_get_command gimp_rgb_get_uchar script).
Proof.
  intros H. unfold script_fu_script_get_command_from_params, script_fu_script_get_command.
  rewrite get_command_from_params_loop_carries; [reflexivity|].
  exact H.
Qed.

(** *** What the commands read *)

(** The text of an argument depends on its type and on the member of the
    value that belongs to the type, and on nothing else. *)
Lemma get_command_arg_current s arg1 arg2 :
  arg_type arg1 = arg_type arg2 ->
  current_value_eq (arg_type arg1) (value arg1) (value arg2) ->
  get_command_arg gimp_rgb_get_uchar s arg1 = get_command_arg gimp_rgb_get_uchar s arg2.
Proof.
  unfold get_command_arg, current_value_eq. intros <-.
  destruct (arg_type arg1); intros ->; reflexivity.
Qed.

Lemma fold_get_command_arg_current l1 l2 s :
  Forall2 (fun arg1 arg2 =>
             arg_type arg1 = arg_type arg2
             /\ current_value_eq (arg_type arg1) (value arg1) (value arg2)) l1 l2 ->
  fold_left (get_command_arg gimp_rgb_get_uchar) l1 s
  = fold_left (get_command_arg gimp_rgb_get_uchar) l2 s.
Proof.
  intros H. revert s. induction H as [|a1 a2 l1 l2 [Ht Hv] _ IH]; intros s; simpl.
  - reflexivity.
  - rewrite (get_command_arg_current s a1 a2 Ht Hv). apply IH.
Qed.

(** The command of a script is made of its name, the types of its arguments
    and their current values: two scripts that agree on these have the same
    command, whatever their labels, default values, menu labels and the
    members of the values that do not belong to the type. *)
Theorem get_command_reads_current_values script1 script2 :
  name script1 = name script2 ->
  Forall2 (fun arg1 arg2 =>
             arg_type arg1 = arg_type arg2
             /\ current_value_eq (arg_type arg1) (value arg1) (value arg2))
    (args script1) (args script2) ->
  script_fu_script_get_command gimp_rgb_get_uchar script1
  = script_fu_script_get_command gimp_rgb_get_uchar script2.
Proof.
  intros Hn Hall. unfold script_fu_script_get_command. rewrite Hn.
  now rewrite (fold_get_command_arg_current _ _ _ Hall).
Qed.

(** After a reset with the ids, the command is the one of the default
    values. *)
Theorem get_command_reset script :
  script_fu_script_get_command gimp_rgb_get_uchar (script_fu_script_reset script true)
  = script_fu_script_get_command gimp_rgb_get_uchar
      (set_args (map (fun arg => set_value (default_value arg) arg) (args script)) script).
Proof.
  unfold script_fu_script_get_command. cbn [name args set_args script_fu_script_reset].
  f_equal. apply fold_get_command_arg_current.
  apply Forall2_fmap, Forall_Forall2_diag, Forall_forall. intros arg _.
  split.
  - now rewrite reset_arg_type.
  - rewrite reset_arg_type. apply reset_arg_restores. now right.
Qed.

Lemma get_command_from_params_arg_type s arg1 arg2 v :
  arg_type arg1 = arg_type arg2 ->
  get_command_from_params_arg gimp_rgb_get_uchar s arg1 v
  = get_command_from_params_arg gimp_rgb_get_uchar s arg2 v.
Proof. unfold get_command_from_params_arg. now intros ->. Qed.

Lemma get_command_from_params_loop_types values i l1 l2 s :
  map arg_type l1 = map arg_type l2 ->
  get_command_from_params_loop gimp_rgb_get_uchar values i l1 s
  = get_command_from_params_loop gimp_rgb_get_uchar values i l2 s.
Proof.
  revert l2 i s. induction l1 as [|a1 l1 IH]; intros [|a2 l2] i s H;
    try discriminate; [reflexivity|].
  injection H as Ht Hl. cbn [get_command_from_params_loop].
  destruct (gimp_value_array_index values (i + 1)) as [v|]; [|reflexivity].
  cbn [mbind option_bind].
  rewrite (get_command_from_params_arg_type s a1 a2 v Ht).
  destruct (get_command_from_params_arg gimp_rgb_get_uchar s a2 v); [|reflexivity].
  cbn [mbind option_bind]. now apply IH.
Qed.

(** The command made from an invocation reads the name of the script and the
    types of its arguments, and nothing else of the script: neither the
    current values nor the default values. *)
Theorem get_command_from_params_reads_types script1 script2 values :
  name script1 = name script2 ->
  map arg_type (args script1) = map arg_type (args script2) ->
  script_fu_script_get_command_from_params gimp_rgb_get_uchar script1 values
  = script_fu_script_get_command_from_params gimp_rgb_get_uchar script2 values.
Proof.
  intros Hn Ht. unfold script_fu_script_get_command_from_params. rewrite Hn.
  now rewrite (get_command_from_params_loop_types values 0 _ _ _ Ht).
Qed.

Lemma get_command_from_params_loop_window values1 values2 i l s :
  (forall k, (k < length l)%nat -> values1 !! (i + k + 1)%nat = values2 !! (i + k + 1)%nat) ->
  get_command_from_params_loop gimp_rgb_get_uchar values1 i l s
  = get_command_from_params_loop gimp_rgb_get_uchar values2 i l s.
Proof.
  revert i s. induction l as [|arg l IH]; intros i s H; [reflexivity|].
  cbn [get_command_from_params_loop]. unfold gimp_value_array_index.
  specialize (H 0%nat) as H0. rewrite Nat.add_0_r in H0.
  rewrite H0 by (simpl; lia).
  destruct (values2 !! (i + 1)%nat) as [v|]; [|reflexivity].
  cbn [mbind option_bind].
  destruct (get_command_from_params_arg gimp_rgb_get_uchar s arg v); [|reflexivity].
  cbn [mbind option_bind]. apply IH. intros k Hk.
  replace (S i + k + 1)%nat with (i + S k + 1)%nat by lia.
  apply H. simpl. lia.
Qed.

(** The command made from an invocation reads the values at the positions 1
    to [n_args] only: the run mode and the values after the last argument
    have no part in it. *)
Theorem get_command_from_params_window script run_mode1 run_mode2 vs extra1 extra2 :
  length vs = n_args script ->
  script_fu_script_get_command_from_params gimp_rgb_get_uchar script
    (run_mode1 :: vs ++ extra1)
  = script_fu_script_get_command_from_params gimp_rgb_get_uchar script
      (run_mode2 :: vs ++ extra2).
Proof.
  intros Hlen. unfold script_fu_script_get_command_from_params.
  rewrite (get_command_from_params_loop_window
             (run_mode1 :: vs ++ extra1) (run_mode2 :: vs ++ extra2)); [reflexivity|].
  intros k Hk. replace (0 + k + 1)%nat with (S k) by lia. simpl.
  unfold n_args in Hlen.
  rewrite !lookup_app_l by lia. reflexivity.
Qed.

Lemma get_command_from_params_loop_Some values i l s text :
  get_command_from_params_loop gimp_rgb_get_uchar values i l s = Some text ->
  l = [] \/ (i + length l < length values)%nat.
Proof.
  revert i s. induction l as [|arg l IH]; intros i s; [now left|].
  cbn [get_command_from_params_loop]. unfold gimp_value_array_index.
  destruct (values !! (i + 1)%nat) as [v|] eqn:Hv; [|discriminate].
  cbn [mbind option_bind].
  destruct (get_command_from_params_arg gimp_rgb_get_uchar s arg v); [|discriminate].
  cbn [mbind option_bind]. intros H. right.
  apply IH in H as [->|H].
  - apply lookup_lt_Some in Hv. simpl. lia.
  - simpl. lia.
Qed.

(** A command is made from an invocation only when the invocation has a
    value for every argument of the script, after the run mode. *)
Theorem get_command_from_params_needs_values script values text :
  script_fu_script_get_command_from_params gimp_rgb_get_uchar script values = Some text ->
  n_args script = 0%nat \/ (n_args script < length values)%nat.
Proof.
  unfold script_fu_script_get_command_from_params.
  destruct (get_command_from_params_loop gimp_rgb_get_uchar values 0 (args script) _)
    as [s|] eqn:E; [|discriminate].
  intros _. apply get_command_from_params_loop_Some in E as [E|E].
  - left. unfold n_args. now rewrite E.
  - right. exact E.
Qed.

(** Once the standard arguments are collected, the command of the script is
    the command made from the invocation, when the values of the invocation
    for the arguments that were not collected carry the current values of
    these arguments. *)
Theorem get_command_collected script values :
  let '(consumed, script') := script_fu_script_collect_standard_args values script in
  (forall k arg, (consumed <= k)%nat -> args script !! k = Some arg ->
     exists v, values !! (k + 1)%nat = Some v /\ value_carries arg v) ->
  script_fu_script_get_command_from_params gimp_rgb_get_uchar script values
  = Some (script_fu_script_get_command gimp_rgb_get_uchar script').
Proof.
  rewrite collect_standard_args_eq.
  set (c := leading_args_spec script values). intros H.
  assert (Ht : map arg_type (args script) = map arg_type (args (write_ids values c script))).
  { apply list_eq. intros i. rewrite !list_lookup_fmap, write_ids_lookup.
    destruct (args script !! i) as [arg|]; [|reflexivity]. simpl.
    destruct (i <? c)%nat; [|reflexivity]. now rewrite write_id_type. }
  unfold script_fu_script_get_command_from_params, script_fu_script_get_command.
  rewrite (get_command_from_params_loop_types values 0 _ _ _ Ht).
  replace (name (write_ids values c script)) with (name script)
    by (destruct script; reflexivity).
  rewrite get_command_from_params_loop_carries; [reflexivity|].
  intros k arg' Hk. rewrite write_ids_lookup in Hk.
  destruct (args script !! k) as [arg|] eqn:Ha; [|discriminate].
  simpl in Hk. injection Hk as <-. cbn [Nat.add].
  destruct (decide (k < c)%nat) as [i_lt|i_lt].
  - destruct (leading_args_spec_id script values k) as (arg0 & v & Ha0 & Hv & Hid & Hobj);
      [exact i_lt|].
    apply Nat.ltb_lt in i_lt. rewrite i_lt.
    rewrite Ha in Ha0. injection Ha0 as <-.
    exists v. split; [exact Hv|].
    unfold write_id. rewrite Hv. unfold value_carries. cbn [arg_type set_value value].
    destruct v as [t o| | | | | |]; try discriminate.
    destruct (arg_type arg); try discriminate; exists t, o; split; reflexivity.
  - apply Nat.ltb_nlt in i_lt as i_ltb. rewrite i_ltb.
    apply (H k arg); [lia|exact Ha].
Qed.

(** *** Reading the values back *)

Lemma command_tokens_close l :
  exists c r, command_tokens gimp_rgb_get_uchar l +:+ ")" = String c r
              /\ atom_char c = false.
Proof. destruct l as [|arg l]; simpl; eexists _, _; split; reflexivity. Qed.

Lemma integral_token_atom arg :
  integral_type (arg_type arg) = true ->
  string_forall atom_char (arg_token gimp_rgb_get_uchar arg) = true.
Proof.
  unfold arg_token, get_command_arg. 
  destruct (arg_type arg); try discriminate; intros _; simpl;
    try (apply (string_forall_impl number_char); [apply number_char_atom|];
         apply printf_d_chars).
  destruct (sfa_toggle (value arg)); reflexivity.
Qed.

Lemma integral_token_inj arg1 arg2 :
  arg_type arg1 = arg_type arg2 -> integral_type (arg_type arg1) = true ->
  arg_token gimp_rgb_get_uchar arg1 = arg_token gimp_rgb_get_uchar arg2 ->
  current_value_eq (arg_type arg1) (value arg1) (value arg2).
Proof.
  unfold arg_token, get_command_arg, current_value_eq. intros <-.
  destruct (arg_type arg1); try discriminate; intros _; simpl;
    try (intros H; now apply printf_d_inj in H).
  destruct (sfa_toggle (value arg1)), (sfa_toggle (value arg2));
    intros H; try reflexivity; discriminate H.
Qed.

Lemma command_tokens_integral_inj l1 l2 :
  Forall2 (fun arg1 arg2 =>
             arg_type arg1 = arg_type arg2 /\ integral_type (arg_type arg1) = true)
    l1 l2 ->
  command_tokens gimp_rgb_get_uchar l1 +:+ ")"
  = command_tokens gimp_rgb_get_uchar l2 +:+ ")" ->
  Forall2 (fun arg1 arg2 => current_value_eq (arg_type arg1) (value arg1) (value arg2))
    l1 l2.
Proof.
  induction 1 as [|a1 a2 l1 l2 [Ht Hi] _ IH]; intros H; [constructor|].
  cbn [command_tokens] in H. rewrite !string_app_assoc in H.
  simpl in H. injection H as H.
  destruct (command_tokens_close l1) as (c1 & r1 & E1 & Hc1).
  destruct (command_tokens_close l2) as (c2 & r2 & E2 & Hc2).
  rewrite E1, E2 in H.
  apply atom_app_inj in H as [Htok Hrest]; try assumption.
  - constructor.
    + now apply integral_token_inj.
    + apply IH. now rewrite E1, E2.
  - now apply integral_token_atom.
  - apply integral_token_atom. now rewrite <- Ht.
Qed.

(** The integers and truth values of a command can be read back: two scripts
    of the same name whose arguments are, in order, of the same types, all of
    them ids, toggles, options or enums, have the same command only when the
    current values of their arguments are the same. *)
Theorem get_command_integral_injective script1 script2 :
  name script1 = name script2 ->
  Forall2 (fun arg1 arg2 =>
             arg_type arg1 = arg_type arg2 /\ integral_type (arg_type arg1) = true)
    (args script1) (args script2) ->
  script_fu_script_get_command gimp_rgb_get_uchar script1
  = script_fu_script_get_command gimp_rgb_get_uchar script2 ->
  Forall2 (fun arg1 arg2 => current_value_eq (arg_type arg1) (value arg1) (value arg2))
    (args script1) (args script2).
Proof.
  intros Hn Hall. rewrite !get_command_eq, Hn. intros H.
  simpl in H. injection H as H. apply string_app_inv_l in H.
  now apply command_tokens_integral_inj.
Qed.

(** *** The tokens of the command made from an invocation *)

Ltac as_arg a :=
  exists a; unfold get_command_arg, arg_readable;
  cbn [arg_type set_value value sfa_color set_sfa_color];
  match goal with
  | Et : arg_type _ = _ |- _ => rewrite ?Et
  end;
  match goal with
  | Ec : gimp_rgb_get_uchar _ = _ |- _ => rewrite ?Ec
  | _ => idtac
  end;
  split;
  [repeat match goal with o : option GObject |- _ => destruct o end; reflexivity
  |first [reflexivity|assumption]].

(** What is appended for a value of the invocation is what is appended for
    an argument that holds the value. *)
Lemma get_command_from_params_arg_as_arg s arg v s' :
  get_command_from_params_arg gimp_rgb_get_uchar s arg v = Some s' ->
  value_readable (arg_type arg) v = true ->
  exists arg', s' = get_command_arg gimp_rgb_get_uchar s arg'
               /\ arg_readable arg' = true.
Proof.
  unfold get_command_from_params_arg, value_readable.
  destruct (arg_type arg) eqn:Et; destruct v as [t o|c|b|str|d|i|i]; try discriminate;
    cbn [G_VALUE_HOLDS_OBJECT gimp_value_get_rgb g_value_get_boolean g_value_get_string
           g_value_get_double g_value_get_int mbind option_bind];
    intros Hs Hr.
  all: try (destruct (gimp_rgb_get_uchar c) as [[r g] b] eqn:Ec);
    injection Hs as <-;
    first
      [ as_arg (set_value (set_sfa_image (gimp_get_id o) (value arg)) arg)
      | as_arg (set_value (set_sfa_color c (value arg)) arg)
      | as_arg (set_value (set_sfa_toggle b (value arg)) arg)
      | as_arg (set_value (set_sfa_value str (value arg)) arg)
      | as_arg (set_value (set_sfa_adjustment {| adj_value := d |} (value arg)) arg)
      | as_arg (set_value (set_sfa_file {| filename := str |} (value arg)) arg)
      | as_arg (set_value (set_sfa_font str (value arg)) arg)
      | as_arg (set_value (set_sfa_palette str (value arg)) arg)
      | as_arg (set_value (set_sfa_pattern str (value arg)) arg)
      | as_arg (set_value (set_sfa_gradient str (value arg)) arg)
      | (* a brush is written as a font is *)
        as_arg {| arg_type := SF_FONT; label := label arg;
                  default_value := default_value arg;
                  value := set_sfa_font str (value arg) |}
      | as_arg (set_value (set_sfa_option {| option_list := []; option_history := i |}
                             (value arg)) arg)
      | as_arg (set_value (set_sfa_enum {| enum_type_name := ""; enum_history := i |}
                             (value arg)) arg) ].
Qed.

Lemma get_command_from_params_loop_as_args values i l s s' :
  get_command_from_params_loop gimp_rgb_get_uchar values i l s = Some s' ->
  (forall k arg v, l !! k = Some arg -> values !! (i + k + 1)%nat = Some v ->
     value_readable (arg_type arg) v = true) ->
  exists l', length l' = length l
             /\ s' = fold_left (get_command_arg gimp_rgb_get_uchar) l' s
             /\ Forall (fun arg => arg_readable arg = true) l'.
Proof.
  revert i s. induction l as [|arg l IH]; intros i s; cbn [get_command_from_params_loop].
  - intros [= <-] _. exists []. repeat split. constructor.
  - unfold gimp_value_array_index.
    destruct (values !! (i + 1)%nat) as [v|] eqn:Hv; [|discriminate].
    cbn [mbind option_bind].
    destruct (get_command_from_params_arg gimp_rgb_get_uchar s arg v) as [s1|] eqn:E1;
      [|discriminate].
    cbn [mbind option_bind]. intros Hloop Hr.
    destruct (get_command_from_params_arg_as_arg s arg v s1 E1) as (arg' & -> & Harg').
    { apply (Hr 0%nat arg v eq_refl). now rewrite Nat.add_0_r. }
    destruct (IH (S i) _ Hloop) as (l' & Hlen & -> & Hall).
    { intros k a w Hk Hw. apply (Hr (S k) a w Hk).
      now replace (i + S k + 1)%nat with (S i + k + 1)%nat by lia. }
    exists (arg' :: l'). simpl. rewrite Hlen. repeat split. now constructor.
Qed.

(** The command made from an invocation is one parenthesized expression of
    [1 + n_args] tokens, when the name of the script is a single datum and
    the strings of the invocation are read as intended. *)
Theorem get_command_from_params_tokens script values text :
  script_fu_script_get_command_from_params gimp_rgb_get_uchar script values = Some text ->
  single_datum (name script) = true ->
  (forall k arg v, args script !! k = Some arg -> values !! (k + 1)%nat = Some v ->
     value_readable (arg_type arg) v = true) ->
  read_call text = Some (1 + n_args script)%nat.
Proof.
  unfold script_fu_script_get_command_from_params.
  destruct (get_command_from_params_loop _ _ _ _ _) as [s|] eqn:E; [|discriminate].
  cbn [mbind option_bind]. intros [= <-] Hname Hr.
  apply get_command_from_params_loop_as_args in E as (l' & Hlen & -> & Hall);
    [|exact Hr].
  change (read_call (script_fu_script_get_command gimp_rgb_get_uchar (set_args l' script))
          = Some (1 + n_args script)%nat).
  rewrite read_command.
  - unfold n_args. cbn [args set_args]. now rewrite Hlen.
  - exact Hname.
  - exact Hall.
Qed.

End Tokens.

(** ** The procedure and the invocation *)

Section Invocation.
Context {GimpRGB : Type}.
Variable gimp_rgb_get_uchar : GimpRGB -> Byte.byte * Byte.byte * Byte.byte.
Variable SFArgType_value : SFArgType -> nat.
Implicit Types (script : @SFScript GimpRGB) (arg : @SFArg GimpRGB)
  (l : list (@SFArg GimpRGB)) (values : @GimpValueArray GimpRGB).

Lemma get_command_from_params_arg_takes s arg v :
  pspec_takes (fst (param_kind (arg_type arg))) v = true ->
  is_Some (get_command_from_params_arg gimp_rgb_get_uchar s arg v).
Proof.
  unfold get_command_from_params_arg.
  destruct (arg_type arg); simpl; destruct v as [t o| | | | | |]; try discriminate;
    try destruct t; try discriminate; intros _; simpl; eauto.
  destruct (gimp_rgb_get_uchar c) as [[r g] b]. eauto.
Qed.

Lemma get_command_from_params_loop_takes values i l s :
  (forall k arg, l !! k = Some arg ->
     exists v, values !! (i + k + 1)%nat = Some v
               /\ pspec_takes (fst (param_kind (arg_type arg))) v = true) ->
  is_Some (get_command_from_params_loop gimp_rgb_get_uchar values i l s).
Proof.
  revert i s. induction l as [|arg l IH]; intros i s H; [simpl; eauto|].
  cbn [get_command_from_params_loop].
  destruct (H 0%nat arg eq_refl) as (v & Hv & Hc).
  unfold gimp_value_array_index. rewrite Nat.add_0_r in Hv. rewrite Hv.
  cbn [mbind option_bind].
  destruct (get_command_from_params_arg_takes s arg v Hc) as [s' ->].
  cbn [mbind option_bind].
  apply IH. intros k arg' Hk.
  destruct (H (S k) arg' Hk) as (v' & Hv' & Hc').
  exists v'. split; [|exact Hc'].
  now replace (S i + k + 1)%nat with (i + S k + 1)%nat by lia.
Qed.

(** The procedure and the command agree on the values: when the values of an
    invocation are, one for one, of the kinds that the parameters of the
    procedure of the script take, a command is made from the invocation. *)
Theorem get_command_from_params_conforming script plug_in_type procedure values :
  script_fu_script_create_PDB_procedure SFArgType_value script plug_in_type
  = Some procedure ->
  Forall2 (fun pspec v => pspec_takes (pspec_kind pspec) v = true)
    (proc_arguments procedure) values ->
  is_Some (script_fu_script_get_command_from_params gimp_rgb_get_uchar script values).
Proof.
  unfold script_fu_script_create_PDB_procedure.
  destruct (create_PDB_procedure_loop _ _ _) as [st'|] eqn:E; [|discriminate].
  cbn [fmap option_fmap option_map]. intros [= <-].
  apply create_PDB_procedure_loop_parameters in E as (pspecs & -> & _ & Hk).
  cbn [proc_arguments create_PDB_procedure_head app]. intros Hall.
  inversion Hall as [|run_mode v0 ? vs _ Hvs]; subst.
  unfold script_fu_script_get_command_from_params.
  destruct (get_command_from_params_loop_takes (v0 :: vs) 0 (args script)
              (g_string_append (g_string_new "(") (name script))) as [s ->];
    [|simpl; eauto].
  intros k arg Hk'. replace (0 + k + 1)%nat with (S k) by lia. cbn [lookup list_lookup].
  change ((v0 :: vs) !! S k) with (vs !! k).
  assert (Hp : (fun pspec => (pspec_kind pspec, pspec_no_validate pspec)) <$> pspecs !! k
               = Some (param_kind (arg_type arg))).
  { rewrite <- list_lookup_fmap. change (fmap ?f pspecs) with (map f pspecs).
    rewrite Hk, list_lookup_fmap, Hk'. reflexivity. }
  destruct (pspecs !! k) as [pspec|] eqn:Ep; [|discriminate].
  destruct (Forall2_lookup_l _ _ _ _ _ Hvs Ep) as (v & Hv & Ht).
  exists v. split; [exact Hv|].
  simpl in Hp. injection Hp as Hp. rewrite <- Hp. exact Ht.
Qed.

End Invocation.

(** * The statements on the examples *)

(** The numbers of the examples are binary64 numbers. *)
Lemma example_numbers_binary64 :
  SpecFloat.bounded 53 1024 7881299347898368 (-51) = true
  /\ SpecFloat.bounded 53 1024 6755399441055744 (-52) = true
  /\ SpecFloat.bounded 53 1024 7036874417766400 (-46) = true.
Proof. repeat split; reflexivity. Qed.

(** C1, the statement of the specification: the command of [test_blur] is
    not [(test-blur 3.500000 TRUE "hello")]. *)
Lemma test_blur_command_not_fixed_precision :
  script_fu_script_get_command rgb8_get_uchar test_blur
  <> "(test-blur 3.500000 TRUE " +:+ dq +:+ "hello" +:+ dq +:+ ")".
Proof. vm_compute. discriminate. Qed.

Lemma test_blur_command_witness :
  script_fu_script_get_command rgb8_get_uchar test_blur
  = "(test-blur 3.5 TRUE " +:+ dq +:+ "hello" +:+ dq +:+ ")".
Proof.
  apply (test_blur_command rgb8_get_uchar test_blur
           (new_arg SF_ADJUSTMENT "Radius"
              (set_sfa_adjustment {| adj_value := gdouble_3_5 |} zero_value))
           (new_arg SF_TOGGLE "Wrap" (set_sfa_toggle true zero_value))
           (new_arg SF_STRING "Name" (set_sfa_value "hello" zero_value)));
    reflexivity.
Defined.

(** C2: the procedure of [display_script] is not defined. *)
Lemma display_argument_out_of_bounds_witness :
  script_fu_script_create_PDB_procedure SFArgType_order display_script
    GIMP_PDB_PROC_TYPE_TEMPORARY = None.
Proof.
  apply (display_argument_out_of_bounds SFArgType_order display_script).
  apply Exists_cons_hd. reflexivity.
Defined.

Lemma collect_standard_args_ordered_witness :
  let '(consumed, script') :=
    script_fu_script_collect_standard_args standard_values standard_script in
  consumed = 3%nat
  /\ map (fun arg => sfa_image (value arg)) (take 3 (args script')) = [42; 7; 3]%Z
  /\ drop 3 (args script') = drop 3 (args standard_script).
Proof.
  exact (proj1 (proj2 (@collect_standard_args_ordered rgb8))
           standard_script (GValue_enum 0) gdouble_1_5 eq_refl).
Defined.

Lemma reset_restores_values_witness :
  exists arg',
    args (script_fu_script_reset standard_script false) !! 0%nat = Some arg'
    /\ sfa_image (value arg') = 5%Z
    /\ exists arg'',
         args (script_fu_script_reset standard_script false) !! 3%nat = Some arg''
         /\ adj_value (sfa_adjustment (value arg'')) = gdouble_3_5.
Proof.
  destruct (reset_restores_values standard_script false 0
              {| arg_type := SF_DISPLAY; label := "Display";
                 default_value := set_sfa_image (-1) zero_value;
                 value := set_sfa_image 5 zero_value |} eq_refl)
    as (arg' & H0 & _ & _ & Hid).
  exists arg'. split; [exact H0|]. split; [now rewrite (Hid eq_refl)|].
  destruct (reset_restores_values standard_script false 3
              {| arg_type := SF_ADJUSTMENT; label := "Amount";
                 default_value :=
                   set_sfa_adjustment {| adj_value := gdouble_3_5 |} zero_value;
                 value := set_sfa_adjustment {| adj_value := gdouble_1_5 |} zero_value |}
              eq_refl)
    as (arg'' & H3 & _ & Hother & _).
  exists arg''. split; [exact H3|]. exact (Hother eq_refl).
Defined.

(** C5, the statement of the specification: the command of [value_script],
    [(script-fu-raw 1 2)], has three tokens and one argument. *)
Lemma raw_value_two_tokens :
  read_call (script_fu_script_get_command rgb8_get_uchar value_script)
  <> Some (1 + n_args value_script)%nat.
Proof. vm_compute. discriminate. Qed.

Lemma get_command_tokens_witness :
  read_call (script_fu_script_get_command rgb8_get_uchar test_blur) = Some 4%nat
  /\ read_call
       (script_fu_script_get_command rgb8_get_uchar
          (snd (script_fu_script_collect_standard_args standard_values standard_script)))
     = Some 5%nat.
Proof.
  split.
  - apply (proj2 (get_command_tokens rgb8_get_uchar test_blur)); [reflexivity|].
    repeat constructor.
  - apply (proj2 (get_command_tokens rgb8_get_uchar standard_script)); [reflexivity|].
    repeat constructor.
Defined.

(** C6, the statement of the specification: the command made from the values
    of an invocation has no text of a brush with opacity, spacing and paint
    mode; and the command of a script does not escape the name. *)
Lemma brush_text_not_as_specified :
  ~ (exists b : SFBrush,
       script_fu_script_get_command_from_params rgb8_get_uchar (brush_script circle)
         [GValue_enum 0; GValue_string "Circle"]
       = Some ("(script-fu-paint " +:+ brush_text_escaped b +:+ ")"))
  /\ script_fu_script_get_command rgb8_get_uchar (brush_script quoted_brush)
     <> "(script-fu-paint " +:+ brush_text_escaped quoted_brush +:+ ")".
Proof.
  split.
  - intros [b H].
    assert (L : script_fu_script_get_command_from_params rgb8_get_uchar
                  (brush_script circle) [GValue_enum 0; GValue_string "Circle"]
                = Some ("(script-fu-paint " +:+ dq +:+ "Circle" +:+ dq +:+ ")"))
      by reflexivity.
    rewrite L in H. unfold brush_text_escaped, dq in H.
    cbn [String.append] in H. discriminate H.
  - vm_compute. discriminate.
Qed.

Lemma brush_command_text_witness :
  script_fu_script_get_command rgb8_get_uchar (brush_script circle)
  = "(script-fu-paint '(" +:+ dq +:+ "Circle" +:+ dq +:+ " 100 20 0))"
  /\ script_fu_script_get_command_from_params rgb8_get_uchar (brush_script circle)
       [GValue_enum 0; GValue_string "Circle"]
     = Some ("(script-fu-paint " +:+ dq +:+ "Circle" +:+ dq +:+ ")").
Proof.
  split.
  - apply (proj1 (brush_command_text rgb8_get_uchar) (brush_script circle) []
             (new_arg SF_BRUSH "Brush" (set_sfa_brush circle zero_value)) []);
      reflexivity.
  - destruct (proj2 (proj2 (brush_command_text rgb8_get_uchar)) (brush_script circle)
                [GValue_enum 0; GValue_string "Circle"] []
                (new_arg SF_BRUSH "Brush" (set_sfa_brush circle zero_value)) []
                ("(script-fu-paint " +:+ dq +:+ "Circle" +:+ dq +:+ ")")
                eq_refl eq_refl eq_refl)
      as (brush & before & after & Hv & Hb & Ha & _).
    reflexivity.
Defined.

(** C7, the statement of the specification: the label ["<Image>/Filters/"]
    is kept whole, where the specification keeps what follows the last [/];
    and the title ["Save... as..."] keeps its ellipsis. *)
Lemma title_not_as_specified :
  script_fu_script_get_title gimp_strip_uline_model (menu_path_script "<Image>/Filters/")
  <> title_as_specified (gimp_strip_uline_model "<Image>/Filters/")
  /\ script_fu_script_get_title gimp_strip_uline_model (menu_path_script "Save... as...")
     <> title_as_specified (gimp_strip_uline_model "Save... as...").
Proof. split; vm_compute; discriminate. Qed.

Lemma get_title_amended_witness :
  script_fu_script_get_title gimp_strip_uline_model
    (menu_path_script "<Image>/Filters/Blur/Gaussian Blur...")
  = "Gaussian Blur".
Proof.
  exact (proj2 (get_title_amended gimp_strip_uline_model
                  (menu_path_script "<Image>/Filters/Blur/Gaussian Blur..."))
           eq_refl eq_refl).
Defined.

Lemma menu_label_registration_witness :
  (exists procedure,
     script_fu_script_create_PDB_procedure SFArgType_order test_blur
       GIMP_PDB_PROC_TYPE_TEMPORARY = Some procedure
     /\ proc_menu_label procedure = None)
  /\ (exists procedure,
        script_fu_script_create_PDB_procedure SFArgType_order three_images
          GIMP_PDB_PROC_TYPE_PLUGIN = Some procedure
        /\ proc_menu_label procedure = Some "<Image>/Filters/Blend...").
Proof.
  split.
  - destruct (menu_label_registration SFArgType_order test_blur
                GIMP_PDB_PROC_TYPE_TEMPORARY)
      as (Hnone & _ & Hmade).
    destruct Hmade as (procedure & Hp & Hl); [repeat constructor|].
    exists procedure. split; [exact Hp|]. rewrite Hl. apply Hnone. reflexivity.
  - destruct (menu_label_registration SFArgType_order three_images
                GIMP_PDB_PROC_TYPE_PLUGIN)
      as (_ & Hsome & Hmade).
    destruct Hmade as (procedure & Hp & Hl); [repeat constructor|].
    exists procedure. split; [exact Hp|]. rewrite Hl.
    apply Hsome; [reflexivity|discriminate].
Defined.

Lemma SFArgType_order_inj t1 t2 : SFArgType_order t1 = SFArgType_order t2 -> t1 = t2.
Proof. destruct t1, t2; simpl; intros H; try reflexivity; discriminate H. Qed.

Lemma param_names_numbered_witness :
  exists procedure,
    script_fu_script_create_PDB_procedure SFArgType_order three_images
      GIMP_PDB_PROC_TYPE_TEMPORARY = Some procedure
    /\ map pspec_name (proc_arguments procedure)
       = ["run-mode"; "image"; "image-2"; "image-3"]
    /\ map pspec_nick (proc_arguments procedure)
       = ["Run mode"; "Image"; "Image 2"; "Image 3"].
Proof.
  destruct (param_names_numbered SFArgType_order SFArgType_order_inj three_images
              GIMP_PDB_PROC_TYPE_TEMPORARY)
    as (procedure & Hp & Hargs & _); [repeat constructor|].
  exists procedure. split; [exact Hp|]. rewrite Hargs. split; reflexivity.
Defined.

Lemma collect_standard_args_frame_witness :
  args (snd (script_fu_script_collect_standard_args standard_values standard_script))
    !! 3%nat
  = args standard_script !! 3%nat
  /\ script_fu_script_collect_standard_args (drop 1 standard_values) standard_script
     = (0%nat, standard_script).
Proof.
  split.
  - pose proof (collect_standard_args_frame standard_values standard_script) as H.
    destruct (script_fu_script_collect_standard_args standard_values standard_script)
      as [consumed script'] eqn:E.
    destruct H as (_ & _ & H & _).
    destruct (H 3%nat _ eq_refl) as (arg' & H3 & _ & _ & _ & Hsame).
    cbn [snd]. rewrite H3, Hsame; [reflexivity|].
    vm_compute in E. injection E as <- _. lia.
  - pose proof (collect_standard_args_frame (drop 1 standard_values) standard_script) as H.
    destruct (script_fu_script_collect_standard_args (drop 1 standard_values)
                standard_script) as [consumed script'] eqn:E.
    destruct H as (_ & _ & _ & H).
    assert (Hc : consumed = 0%nat) by (vm_compute in E; now injection E as <- _).
    now rewrite (H Hc), Hc.
Defined.

Lemma get_command_from_params_agrees_witness :
  script_fu_script_get_command_from_params rgb8_get_uchar test_blur
    [GValue_enum 0; GValue_double gdouble_3_5; GValue_boolean true; GValue_string "hello"]
  = Some ("(test-blur 3.5 TRUE " +:+ dq +:+ "hello" +:+ dq +:+ ")").
Proof.
  rewrite (get_command_from_params_agrees rgb8_get_uchar test_blur).
  - reflexivity.
  - intros [|[|[|k]]] arg H; simpl in H; try discriminate;
      injection H as <-; eexists; (split; [reflexivity|]); reflexivity.
Defined.

(** ** Further properties on the examples *)

Lemma collect_standard_args_nothing_witness :
  script_fu_script_collect_standard_args standard_values test_blur = (0%nat, test_blur)
  /\ script_fu_script_collect_standard_args [GValue_enum 0] standard_script
     = (0%nat, standard_script).
Proof.
  split.
  - apply (collect_standard_args_nothing standard_values test_blur).
    right; right. eexists. split; [reflexivity|]. split; discriminate.
  - apply (collect_standard_args_nothing [GValue_enum 0] standard_script).
    left. simpl. lia.
Defined.

Lemma get_command_reads_current_values_witness :
  script_fu_script_get_command rgb8_get_uchar test_blur_edited
  = script_fu_script_get_command rgb8_get_uchar test_blur.
Proof.
  apply (get_command_reads_current_values rgb8_get_uchar test_blur_edited test_blur).
  - reflexivity.
  - repeat constructor.
Defined.

Lemma get_command_from_params_reads_types_witness :
  script_fu_script_get_command_from_params rgb8_get_uchar test_blur_edited
    [GValue_enum 0; GValue_double gdouble_1_5; GValue_boolean false; GValue_string "x"]
  = script_fu_script_get_command_from_params rgb8_get_uchar test_blur
      [GValue_enum 0; GValue_double gdouble_1_5; GValue_boolean false; GValue_string "x"].
Proof.
  apply (get_command_from_params_reads_types rgb8_get_uchar test_blur_edited test_blur);
    reflexivity.
Defined.

Lemma get_command_from_params_window_witness :
  script_fu_script_get_command_from_params rgb8_get_uchar test_blur
    [GValue_enum 0; GValue_double gdouble_1_5; GValue_boolean false; GValue_string "x";
     GValue_int 9]
  = script_fu_script_get_command_from_params rgb8_get_uchar test_blur
      [GValue_enum 1; GValue_double gdouble_1_5; GValue_boolean false; GValue_string "x"].
Proof.
  exact (get_command_from_params_window rgb8_get_uchar test_blur
           (GValue_enum 0) (GValue_enum 1)
           [GValue_double gdouble_1_5; GValue_boolean false; GValue_string "x"]
           [GValue_int 9] [] eq_refl).
Defined.

Lemma get_command_from_params_needs_values_witness :
  n_args test_blur = 0%nat
  \/ (n_args test_blur
      < length [GValue_enum 0 : @GValue rgb8; GValue_double gdouble_1_5;
                GValue_boolean false; GValue_string "x"])%nat.
Proof.
  exact (get_command_from_params_needs_values rgb8_get_uchar test_blur
           [GValue_enum 0; GValue_double gdouble_1_5; GValue_boolean false;
            GValue_string "x"]
           ("(test-blur 1.5 FALSE " +:+ dq +:+ "x" +:+ dq +:+ ")") eq_refl).
Defined.

Lemma get_command_collected_witness :
  script_fu_script_get_command_from_params rgb8_get_uchar standard_script standard_values
  = Some (script_fu_script_get_command rgb8_get_uchar
            (snd (script_fu_script_collect_standard_args standard_values
                    standard_script))).
Proof.
  pose proof (get_command_collected rgb8_get_uchar standard_script standard_values) as H.
  destruct (script_fu_script_collect_standard_args standard_values standard_script)
    as [consumed script'] eqn:E.
  cbn [snd]. apply H.
  assert (Hc : consumed = 3%nat) by (vm_compute in E; now injection E as <- _).
  subst consumed.
  intros [|[|[|[|k]]]] arg Hk Ha; try lia; simpl in Ha; try discriminate.
  injection Ha as <-. eexists. split; reflexivity.
Defined.

Lemma get_title_no_slash_witness :
  has_char "/"
    (script_fu_script_get_title gimp_strip_uline_model
       (menu_path_script "<Image>/Filters/Blur/Gaussian Blur...")) = false.
Proof.
  apply (get_title_no_slash gimp_strip_uline_model
           (menu_path_script "<Image>/Filters/Blur/Gaussian Blur..."));
    reflexivity.
Defined.

Lemma create_PDB_procedure_metadata_witness :
  exists procedure,
    script_fu_script_create_PDB_procedure SFArgType_order three_images
      GIMP_PDB_PROC_TYPE_TEMPORARY = Some procedure
    /\ proc_name procedure = "script-fu-blend"
    /\ proc_type procedure = GIMP_PDB_PROC_TYPE_TEMPORARY
    /\ map pspec_blurb (proc_arguments procedure)
       = ["The run mode"; "First"; "Second"; "Third"].
Proof.
  eexists. split; [reflexivity|].
  destruct (create_PDB_procedure_metadata SFArgType_order three_images
              GIMP_PDB_PROC_TYPE_TEMPORARY _ eq_refl)
    as (Hn & Ht & _ & _ & _ & pspecs & Hargs & Hb & _).
  split; [exact Hn|]. split; [exact Ht|].
  rewrite Hargs. cbn [map pspec_blurb]. now rewrite Hb.
Defined.

Lemma param_names_fit_witness :
  exists procedure pspec,
    script_fu_script_create_PDB_procedure SFArgType_order three_images
      GIMP_PDB_PROC_TYPE_TEMPORARY = Some procedure
    /\ proc_arguments procedure !! 3%nat = Some pspec
    /\ pspec_name pspec = "image-3" /\ pspec_nick pspec = "Image 3".
Proof.
  destruct (param_names_fit SFArgType_order SFArgType_order_inj three_images
              GIMP_PDB_PROC_TYPE_TEMPORARY)
    as (procedure & Hp & Hnames); [repeat constructor|reflexivity|].
  destruct (Hnames 2%nat (new_arg SF_IMAGE "Third" zero_value) eq_refl)
    as (pspec & Hl & Hname & Hnick).
  exists procedure, pspec. repeat split; assumption.
Defined.

Lemma param_names_unique_witness :
  exists procedure,
    script_fu_script_create_PDB_procedure SFArgType_order three_images
      GIMP_PDB_PROC_TYPE_TEMPORARY = Some procedure
    /\ NoDup (map pspec_name (proc_arguments procedure)).
Proof.
  apply (param_names_unique SFArgType_order SFArgType_order_inj three_images
           GIMP_PDB_PROC_TYPE_TEMPORARY); [repeat constructor|reflexivity].
Defined.

Lemma get_command_integral_injective_witness :
  Forall2 (fun arg1 arg2 => current_value_eq (arg_type arg1) (value arg1) (value arg2))
    (args three_images) (args (script_fu_script_reset three_images true)).
Proof.
  apply (get_command_integral_injective rgb8_get_uchar three_images
           (script_fu_script_reset three_images true)).
  - reflexivity.
  - repeat constructor.
  - reflexivity.
Defined.

Lemma get_command_from_params_conforming_witness :
  is_Some
    (script_fu_script_get_command_from_params rgb8_get_uchar three_images
       [GValue_enum 0; GValue_id GIMP_TYPE_IMAGE 1; GValue_id GIMP_TYPE_IMAGE 2;
        GValue_id GIMP_TYPE_IMAGE 3]).
Proof.
  apply (get_command_from_params_conforming rgb8_get_uchar SFArgType_order three_images
           GIMP_PDB_PROC_TYPE_TEMPORARY _
           [GValue_enum 0; GValue_id GIMP_TYPE_IMAGE 1; GValue_id GIMP_TYPE_IMAGE 2;
            GValue_id GIMP_TYPE_IMAGE 3] eq_refl).
  repeat constructor.
Defined.

Lemma get_command_from_params_tokens_witness :
  read_call ("(test-blur 1.5 FALSE " +:+ dq +:+ "x" +:+ dq +:+ ")") = Some 4%nat.
Proof.
  apply (get_command_from_params_tokens rgb8_get_uchar test_blur
           [GValue_enum 0; GValue_double gdouble_1_5; GValue_boolean false;
            GValue_string "x"]).
  - reflexivity.
  - reflexivity.
  - intros [|[|[|k]]] arg v Ha Hv; simpl in Ha, Hv; try discriminate;
      injection Ha as <-; injection Hv as <-; reflexivity.
Defined.

Lemma menu_label_none_witness :
  exists procedure,
    script_fu_script_create_PDB_procedure SFArgType_order (menu_path_script "")
      GIMP_PDB_PROC_TYPE_PLUGIN = Some procedure
    /\ proc_menu_label procedure = None.
Proof.
  eexists. split; [reflexivity|].
  apply (menu_label_none SFArgType_order (menu_path_script "")
           GIMP_PDB_PROC_TYPE_PLUGIN _ eq_refl).
  now right.
Defined.

Lemma get_title_short_witness :
  script_fu_script_get_title gimp_strip_uline_model (menu_path_script "") = "".
Proof.
  apply (get_title_short gimp_strip_uline_model (menu_path_script "")).
  simpl. lia.
Defined.
